(** * AMQ-SRS Trainer: a shallow embedding of the scheduling and import core

    The repository holds two iterations of one React component:
    - the AniList -> AnimeThemes trainer (module [Trainer] below), with the
      four-grade SM-2 scheduler, the retrying HTTP client, the theme
      resolver with its cache and the incremental import loop;
    - [App.jsx] (module [App]), with the three-grade scheduler and the
      import from streaming episodes.

    Both iterations persist their schedule objects under the same storage
    key, so the schedule object is modelled once, as a record of optional
    keys. *)

From Stdlib Require Import ZArith QArith Qround Qminmax Lia Ascii Lqa.
From stdpp Require Import gmap strings list pretty.

Local Open Scope Z_scope.

(* [set_solver] clears hypotheses it has already used. *)
Set Warnings "-clear-no-such-hyp".

(** ** Schedule objects *)

(** A schedule object as it sits in the [srs] map: every key may be missing
    ([None] is JavaScript's [undefined]). *)
Record Srs := mkSrs {
  ef : option Q;
  interval : option Z;
  reps : option Z;
  attempts : option Z;
  successes : option Z;
  due : option Z
}.

(** The empty object [{}]. *)
Definition emptySrs : Srs := mkSrs None None None None None None.

(** Destructuring default: [let { k = d } = o]. *)
Definition orDefault {A} (o : option A) (d : A) : A :=
  match o with Some v => v | None => d end.

(** [a || b] on strings: the first one that is present and not empty. *)
Definition strOr (a : option string) (b : string) : string :=
  match a with
  | Some s => if decide (s = "") then b else s
  | None => b
  end.

(** ** Results, state and exceptions *)

(** The outcome of running a piece of the program: it returns, it throws an
    [Error] with a message, or a [while (true)] loop has not left within the
    steps granted ([Diverge]). *)
Inductive Result (A : Type) :=
  | Ok (a : A)
  | Throw (message : string)
  | Diverge.
Arguments Ok {A} a.
Arguments Throw {A} message.
Arguments Diverge {A}.

(** Code running on a state [S]. *)
Definition M (S A : Type) : Type := S -> Result A * S.

Definition ret {S A} (a : A) : M S A := fun s => (Ok a, s).

Definition bind {S A B} (m : M S A) (k : A -> M S B) : M S B :=
  fun s =>
    match m s with
    | (Ok a, s') => k a s'
    | (Throw e, s') => (Throw e, s')
    | (Diverge, s') => (Diverge, s')
    end.

Definition throw {S A} (message : string) : M S A := fun s => (Throw message, s).

Definition diverge {S A} : M S A := fun s => (Diverge, s).

(** [try { body } catch (e) { handler(e.message) }]. *)
Definition tryCatch {S A} (body : M S A) (handler : string -> M S A) : M S A :=
  fun s =>
    match body s with
    | (Throw e, s') => handler e s'
    | other => other
    end.

(** [try { body } finally { cleanup }]: the cleanup runs on return and on
    throw, and the outcome of the body stands. *)
Definition tryFinally {S A} (body : M S A) (cleanup : S -> S) : M S A :=
  fun s =>
    match body s with
    | (Diverge, s') => (Diverge, s')
    | (r, s') => (r, cleanup s')
    end.

Definition modify {S} (f : S -> S) : M S unit := fun s => (Ok tt, f s).

Declare Scope monad_scope.
Delimit Scope monad_scope with monad.
Notation "x <- c1 ;; c2" := (bind c1 (fun x => c2))
  (at level 100, c1 at next level, right associativity) : monad_scope.
Notation "c1 ;; c2" := (bind c1 (fun _ => c2))
  (at level 100, right associativity) : monad_scope.
Local Open Scope monad_scope.

(** ** JSON documents of the two remote services *)

(** [title { romaji english native }] of an AniList media. *)
Record Title := mkTitle {
  romaji : option string;
  english : option string;
  native : option string
}.

(** One [streamingEpisodes] item. *)
Record Episode := mkEpisode {
  ep_title : option string;
  ep_url : option string
}.

(** An AniList [media] object, with the keys either query asks for. *)
Record Media := mkMedia {
  media_id : Z;
  media_title : option Title;
  media_season : option string;
  media_seasonYear : option Z;
  streamingEpisodes : option (list Episode)
}.

(** AnimeThemes: a video, an entry, a theme and an anime record. *)
Record Video := mkVideo {
  link : option string;
  audio : option string
}.

Record ThemeEntry := mkThemeEntry {
  videos : option (list Video)
}.

Record Theme := mkTheme {
  type : option string;
  sequence : option Z;
  song_title : option string;
  animethemeentries : option (list ThemeEntry)
}.

Record Anime := mkAnime {
  animethemes : option (list Theme)
}.

(** The parsed body of a response, by the shape the callers read. *)
Inductive Json :=
  | JUser (user : option Z)
      (* { data: { User: null | { id } } } *)
  | JPage (mediaList : list Media) (hasNextPage : bool)
      (* { data: { Page: { mediaList: [{ media }], pageInfo: { hasNextPage } } } } *)
  | JCollection (lists : list (list Media))
      (* { data: { MediaListCollection: { lists: [{ entries: [{ media }] }] } } } *)
  | JAnime (anime : list Anime)
      (* { anime: [...] } *)
  | JOther.
      (* any other document *)

(** ** Requests, responses and the environment *)

(** The variables of a GraphQL request body (the query text is fixed per
    caller). *)
Inductive Variables :=
  | VarsName (name : string)
  | VarsPage (userId page perPage : Z)
  | VarsUsername (username : string).

Record Request := mkRequest {
  url : string;
  body : option Variables
}.

(** A well-formed [Retry-After] value: delay seconds or an HTTP date. *)
Inductive RetryAfter :=
  | DelaySeconds (n : N)
  | HttpDate (date : string).

Record Response := mkResponse {
  status : Z;
  statusText : string;
  retryAfterHeader : option RetryAfter;   (* r.headers.get("Retry-After") *)
  text : option string;                   (* r.text(); None when it rejects *)
  json : Json + string                    (* r.json(); inr when it rejects *)
}.

(** [fetch] resolves with a response or rejects (no connection). *)
Inductive Fetched :=
  | Rejected (message : string)
  | Responded (r : Response).

(** [Math.random()]: a number in [0, 1). *)
Record Unit01 := mkUnit01 {
  u_val : Q;
  u_range : Qle_bool 0 u_val && negb (Qle_bool 1 u_val) = true
}.

(** What the program cannot decide: the answer to the n-th [fetch] of a
    session, the n-th [Math.random()] draw, and whether [cancelImport()] has
    set [cancelImportRef.current] by the time the import loop tests it at
    the top of its i-th iteration. *)
Record Env := mkEnv {
  net : nat -> Request -> Fetched;
  random : nat -> Unit01;
  cancelRequested : nat -> bool
}.

Inductive Event :=
  | EvFetch (req : Request)
  | EvSleep (ms : Z).

(** The input/output state: how many fetches and draws were made, and the
    fetches and sleeps in the order they happened. *)
Record Io := mkIo {
  fetches : nat;
  draws : nat;
  trace : list Event
}.

Definition Io0 : Io := mkIo 0 0 [].

(** ** The HTTP client (the same text in both files) *)

Definition MAX_RETRIES : Z := 6.
Definition JITTER_MS : Z := 120.

(** A JavaScript number as far as [Number(header)] needs it. *)
Inductive JsNumber := NaN | Num (v : Z).

Definition Number_header (h : option RetryAfter) : JsNumber :=
  match h with
  | None => Num 0                          (* Number(null) *)
  | Some (DelaySeconds n) => Num (Z.of_N n)
  | Some (HttpDate _) => NaN
  end.

(** [r.ok]: the status is in the range 200-299. *)
Definition ok (r : Response) : bool := (200 <=? status r) && (status r <=? 299).

Definition Math_floor (x : Q) : Z := Qfloor x.

(** [`${status} ${r.statusText}${text ? ` — ${text}` : ""}`]. *)
Definition statusMessage (r : Response) : string :=
  let text := orDefault (text r) "" in
  pretty (status r) +:+ " " +:+ statusText r +:+
  (if decide (text = "") then "" else " — " +:+ text).

Section Client.
Variable env : Env.

Definition fetch (req : Request) : M Io Response :=
  fun io =>
    let io' := mkIo (S (fetches io)) (draws io) (trace io ++ [EvFetch req]) in
    match net env (fetches io) req with
    | Rejected e => (Throw e, io')
    | Responded r => (Ok r, io')
    end.

Definition Math_random : M Io Q :=
  fun io => (Ok (u_val (random env (draws io))), mkIo (fetches io) (S (draws io)) (trace io)).

Definition sleep (ms : Z) : M Io unit :=
  fun io => (Ok tt, mkIo (fetches io) (draws io) (trace io ++ [EvSleep ms])).

(** [r.json()]. *)
Definition r_json (r : Response) : M Io Json :=
  match json r with
  | inl j => ret j
  | inr e => throw e
  end.

(** The body of [while (true)] in [fetchJSON], at a given [attempt]; [fuel]
    bounds the number of turns. *)
Fixpoint fetchJSON_loop (fuel : nat) (req : Request) (attempt : Z) : M Io Json :=
  match fuel with
  | O => diverge
  | S fuel' =>
      r <- fetch req ;;
      if ok r then r_json r
      else
        let status := status r in
        let retryAfter := Number_header (retryAfterHeader r) in
        if (status =? 429) || ((500 <=? status) && (status <? 600)) then
          if MAX_RETRIES <=? attempt then throw (statusMessage r)
          else
            backoff <-
              match retryAfter with
              | Num v =>
                  if v =? 0 then
                    x <- Math_random ;;
                    ret (Z.min (1000 * 2 ^ attempt) 16000 + Math_floor (x * inject_Z JITTER_MS))
                  else ret (Z.max 1000 (v * 1000))
              | NaN =>
                  x <- Math_random ;;
                  ret (Z.min (1000 * 2 ^ attempt) 16000 + Math_floor (x * inject_Z JITTER_MS))
              end ;;
            sleep backoff ;;
            fetchJSON_loop fuel' req (attempt + 1)
        else throw (statusMessage r)
  end.

(** [fetchJSON(url, opts)]: [let attempt = 0; while (true) ...].  The loop
    leaves within [MAX_RETRIES + 1] turns whatever the answers are
    (lemma [loop_terminates] below), so that many are granted. *)
Definition fetchJSON (req : Request) : M Io Json :=
  fetchJSON_loop (S (Z.to_nat MAX_RETRIES)) req 0.

Definition postJSON (url : string) (body : Variables) : M Io Json :=
  fetchJSON (mkRequest url (Some body)).

End Client.

Definition ANILIST_GQL : string := "https://graphql.anilist.co".

(** Running a client action inside a larger state that holds the [Io]. *)
Definition liftIo {S A} (getIo : S -> Io) (setIo : Io -> S -> S) (m : M Io A) : M S A :=
  fun s => let '(r, io') := m (getIo s) in (r, setIo io' s).

(** [e?.message || String(e)] for a thrown [Error]. *)
Definition errorText (message : string) : string :=
  if decide (message = "") then "Error" else message.

(** [for (const c of arr) map.set(c.id, c)] on an insertion-ordered [Map]:
    a known key keeps its place and takes the new value, a new key goes to
    the end. *)
Fixpoint map_set {V} (m : list (string * V)) (k : string) (v : V) : list (string * V) :=
  match m with
  | [] => [(k, v)]
  | (k', v') :: m' =>
      if decide (k = k') then (k, v) :: m' else (k', v') :: map_set m' k v
  end.

(** [Array.from(map.values())] after setting every element of [arr] under
    its key, in order. *)
Definition dedupeBy {V} (key : V -> string) (arr : list V) : list V :=
  (fold_left (fun m c => map_set m (key c) c) arr []).*2.

(** ** Arrays, [shuffle] and the string tests of the filters *)

(** An array whose elements may be [undefined] ([None]).  [a[i]] is
    [undefined] past the end and at a negative index. *)
Definition arr_get {A} (a : list (option A)) (i : Z) : option A :=
  if i <? 0 then None
  else match a !! Z.to_nat i with
       | Some v => v
       | None => None
       end.

(** [a[i] = v]: writing past the end extends the array, with holes up to
    the index; a negative index names a property and leaves the elements. *)
Definition arr_set {A} (a : list (option A)) (i : Z) (v : option A) : list (option A) :=
  if i <? 0 then a
  else if (Z.to_nat i <? length a)%nat then <[Z.to_nat i := v]> a
  else a ++ replicate (Z.to_nat i - length a) None ++ [v].

(** [a.slice(start, end)]: a negative bound counts from the end, and both
    bounds are brought into the array. *)
Definition slice {A} (a : list A) (start stop : Z) : list A :=
  let len := Z.of_nat (length a) in
  let k := if start <? 0 then Z.max (len + start) 0 else Z.min start len in
  let final := if stop <? 0 then Z.max (len + stop) 0 else Z.min stop len in
  take (Z.to_nat (final - k)) (drop (Z.to_nat k) a).

Section Shuffle.
Variable env : Env.
Context {A : Type}.

(** [for (let i = a.length - 1; i > 0; i--)] of [shuffle], from the index
    [i] down: [j] is drawn in [0, i], then
    [[a[i], a[j]] = [a[j], a[i]]] reads both elements before it writes
    them.  The product [Math.random() * (i + 1)] is taken exactly (the
    source rounds it to a double, which stays below [i + 1]). *)
Fixpoint shuffle_loop (i : nat) (a : list (option A)) : M Io (list (option A)) :=
  match i with
  | O => ret a
  | S i' =>
      x <- Math_random env ;;
      let j := Math_floor (x * inject_Z (Z.of_nat i + 1)) in
      let aj := arr_get a j in
      let ai := arr_get a (Z.of_nat i) in
      shuffle_loop i' (arr_set (arr_set a (Z.of_nat i) aj) j ai)
  end.

(** [shuffle(array)]: a shuffled copy, the argument is left as it is. *)
Definition shuffle (array : list A) : M Io (list (option A)) :=
  let a := Some <$> array in
  shuffle_loop (length a - 1) a.

End Shuffle.

(** [s.toLowerCase()], on the ASCII letters. *)
Definition lowerChar (a : ascii) : ascii :=
  let n := nat_of_ascii a in
  if (65 <=? n)%nat && (n <=? 90)%nat then ascii_of_nat (n + 32) else a.

Fixpoint toLowerCase (s : string) : string :=
  match s with
  | EmptyString => EmptyString
  | String a s' => String (lowerChar a) (toLowerCase s')
  end.

(** [hay.includes(q)]: [q] starts at some position of [hay]. *)
Fixpoint includes (hay q : string) : bool :=
  String.prefix q hay ||
  match hay with
  | EmptyString => false
  | String _ hay' => includes hay' q
  end.

(** ** The AniList -> AnimeThemes trainer *)
Module Trainer.

(** *** SRS (SM-2 simplified) *)

(** quality: 0(Again), 1(Hard), 2(Good), 3(Easy), the four grade buttons. *)
Inductive Quality := Again | Hard | Good | Easy.

Definition TEN_MINUTES : Z := 10 * 60 * 1000.

(** [qMap = [2, 3, 4, 5]], indexed by the quality. *)
Definition qMap (quality : Quality) : Q :=
  match quality with
  | Again => 2
  | Hard => 3
  | Good => 4
  | Easy => 5
  end%Q.

(** [Math.round]: the nearest integer, halves going up. *)
Definition Math_round (x : Q) : Z := Qfloor (x + (1 # 2))%Q.

(** [sm2Schedule(card, quality)], with [now] standing for the one
    [Date.now()] read at the top; [card] is [srs[current.id]], which is
    [undefined] for a card never graded.  The ease factor is a rational
    here (the source computes it in binary floating point). *)
Definition sm2Schedule (now : Z) (card : option Srs) (quality : Quality) : Srs :=
  let c := orDefault card emptySrs in
  let ef0 := orDefault (ef c) (5 # 2)%Q in
  let interval0 := orDefault (interval c) 0 in
  let reps0 := orDefault (reps c) 0 in
  match quality with
  | Again =>
      {| ef := Some (Qmax (13 # 10) (ef0 - (2 # 10)))%Q;
         interval := Some TEN_MINUTES;
         reps := Some 0;
         attempts := None;
         successes := None;
         due := Some (now + TEN_MINUTES) |}
  | _ =>
      let q := qMap quality in
      let ef1 := (ef0 + ((1 # 10) - (5 - q) * ((8 # 100) + (5 - q) * (2 # 100))))%Q in
      let ef2 := Qmax (13 # 10) (Qmin (28 # 10) ef1) in
      let interval1 :=
        if decide (reps0 = 0) then 24 * 60 * 60 * 1000
        else if decide (reps0 = 1) then 6 * 24 * 60 * 60 * 1000
        else Math_round (inject_Z interval0 * ef2)%Q in
      {| ef := Some ef2;
         interval := Some interval1;
         reps := Some (reps0 + 1);
         attempts := None;
         successes := None;
         due := Some (now + interval1) |}
  end.

(** [sm2Schedule] applied along a review history of [(now, quality)]
    pairs, each call on the object the call before returned, as [grade]
    does through [srs[current.id]]. *)
Definition gradeAll (card : option Srs) (history : list (Z * Quality)) : option Srs :=
  fold_left (fun st e => Some (sm2Schedule e.1 st e.2)) history card.

(** *** Strings *)

(** [s.toUpperCase()], on the ASCII letters. *)
Definition upperChar (a : ascii) : ascii :=
  let n := nat_of_ascii a in
  if (97 <=? n)%nat && (n <=? 122)%nat then ascii_of_nat (n - 32) else a.

Fixpoint toUpperCase (s : string) : string :=
  match s with
  | EmptyString => EmptyString
  | String a s' => String (upperChar a) (toUpperCase s')
  end.

(** [s.trim()], on the ASCII white space. *)
Definition isSpace (a : ascii) : bool :=
  let n := nat_of_ascii a in
  (n =? 32)%nat || ((9 <=? n)%nat && (n <=? 13)%nat).

Fixpoint trimStart (s : string) : string :=
  match s with
  | EmptyString => EmptyString
  | String a s' => if isSpace a then trimStart s' else s
  end.

Definition trim (s : string) : string :=
  String.rev (trimStart (String.rev (trimStart s))).

(** [encodeURIComponent(s)] on the UTF-8 bytes of [s]: letters, digits and
    [- _ . ! ~ * ' ( )] stay, every other byte becomes [%XX]. *)
Definition unreserved (a : ascii) : bool :=
  let n := nat_of_ascii a in
  ((48 <=? n) && (n <=? 57) || (65 <=? n) && (n <=? 90) || (97 <=? n) && (n <=? 122)
   || (n =? 45) || (n =? 95) || (n =? 46) || (n =? 33) || (n =? 126)
   || (n =? 42) || (n =? 39) || (n =? 40) || (n =? 41))%nat.

Definition hexDigit (n : nat) : ascii :=
  if (n <? 10)%nat then ascii_of_nat (48 + n) else ascii_of_nat (55 + n).

Fixpoint encodeURIComponent (s : string) : string :=
  match s with
  | EmptyString => EmptyString
  | String a s' =>
      if unreserved a then String a (encodeURIComponent s')
      else
        let n := nat_of_ascii a in
        String "%" (String (hexDigit (n / 16)) (String (hexDigit (n mod 16))
          (encodeURIComponent s')))
  end.

(** *** Data shapes *)

(** One entry of the list [getAniListAnime] builds. *)
Record Entry := mkEntry {
  anilistId : Z;
  titleRomaji : string;
  titleEnglish : string;
  titleNative : string;
  season : string;
  year : option Z
}.

(** One opening as [fetchByUrl] returns it. *)
Record Opening := mkOpening {
  op_type : string;
  number : option Z;
  op_songTitle : string;
  op_artists : string;
  op_videoUrl : string
}.

(** Card data: [{ id, anilistId, titleRomaji, titleEnglish, titleNative,
    season, year, opNumber, songTitle, artists, videoUrl }]. *)
Record Card := mkCard {
  id : string;
  card_anilistId : Z;
  card_titleRomaji : string;
  card_titleEnglish : string;
  card_titleNative : string;
  card_season : string;
  card_year : option Z;
  opNumber : option Z;
  songTitle : string;
  artists : string;
  videoUrl : string
}.

Record Progress := mkProgress {
  totalShows : Z;
  processedShows : Z;
  totalOps : Z
}.

(** The state of the component: the [useState] cells the import touches,
    the [idsRef] set, and the input/output state. *)
Record World := mkWorld {
  io : Io;
  cards : list Card;
  cache : gmap string (list Opening);
  error : string;
  loading : bool;
  showAnswer : bool;
  progress : Progress;
  idsRef : gset string
}.

(** What the functions of one render see of the state: they are closures
    over the [cards], [cache], [maxShows] and [delayMs] of the render that
    created them, and keep seeing these values while the state moves on. *)
Record Closure := mkClosure {
  seen_cards : list Card;
  seen_cache : gmap string (list Opening);
  maxShows : Z;
  delayMs : Z
}.

Definition setIo (v : Io) (w : World) : World :=
  mkWorld v (cards w) (cache w) (error w) (loading w) (showAnswer w) (progress w) (idsRef w).
Definition setCards (v : list Card) (w : World) : World :=
  mkWorld (io w) v (cache w) (error w) (loading w) (showAnswer w) (progress w) (idsRef w).
Definition setCache (v : gmap string (list Opening)) (w : World) : World :=
  mkWorld (io w) (cards w) v (error w) (loading w) (showAnswer w) (progress w) (idsRef w).
Definition setError (v : string) (w : World) : World :=
  mkWorld (io w) (cards w) (cache w) v (loading w) (showAnswer w) (progress w) (idsRef w).
Definition setLoading (v : bool) (w : World) : World :=
  mkWorld (io w) (cards w) (cache w) (error w) v (showAnswer w) (progress w) (idsRef w).
Definition setShowAnswer (v : bool) (w : World) : World :=
  mkWorld (io w) (cards w) (cache w) (error w) (loading w) v (progress w) (idsRef w).
Definition setProgress (v : Progress) (w : World) : World :=
  mkWorld (io w) (cards w) (cache w) (error w) (loading w) (showAnswer w) v (idsRef w).
Definition setIdsRef (v : gset string) (w : World) : World :=
  mkWorld (io w) (cards w) (cache w) (error w) (loading w) (showAnswer w) (progress w) v.

(** [dedupeById(arr)]: keep last occurrence per id. *)
Definition dedupeById (arr : list Card) : list Card := dedupeBy id arr.

(** Card id: [`${anilistId}::OP${seq || 1}`]. *)
Definition cardId (anilistId : Z) (number : option Z) : string :=
  pretty anilistId +:+ "::OP" +:+
  pretty (match number with
          | Some n => if decide (n = 0) then 1 else n
          | None => 1
          end).

Section ImportRun.
Variable env : Env.

Definition inIo {A} (m : M Io A) : M World A := liftIo io setIo m.

(** *** ListFetcher *)

Definition getAniListUserId (name : string) : M World Z :=
  data <- inIo (postJSON env ANILIST_GQL (VarsName name)) ;;
  match data with
  | JUser (Some u) => ret u
  | _ => throw "Utilisateur AniList introuvable"
  end.

Definition entryOf (m : Media) : Entry :=
  {| anilistId := media_id m;
     titleRomaji := strOr (media_title m ≫= romaji) "";
     titleEnglish := strOr (media_title m ≫= english) "";
     titleNative := strOr (media_title m ≫= native) "";
     season := strOr (media_season m) "";
     year := match media_seasonYear m with
             | Some y => if decide (y = 0) then None else Some y
             | None => None
             end |}.

(** The [while (true)] of [getAniListAnime]; it ends when a page has no
    next page, which no bound on the number of pages ensures. *)
Fixpoint getAniListAnime_loop (fuel : nat) (userId page perPage : Z) (out : list Entry)
    : M World (list Entry) :=
  match fuel with
  | O => diverge
  | S fuel' =>
      data <- inIo (postJSON env ANILIST_GQL (VarsPage userId page perPage)) ;;
      let list := match data with JPage l _ => l | _ => [] end in
      let out' := out ++ map entryOf list in
      let hasNext := match data with JPage _ h => h | _ => false end in
      if negb hasNext then ret out'
      else
        inIo (sleep 400) ;;
        getAniListAnime_loop fuel' userId (page + 1) perPage out'
  end.

Definition getAniListAnime (fuel : nat) (userId : Z) : M World (list Entry) :=
  getAniListAnime_loop fuel userId 1 50 [].

(** *** ThemeResolver *)

(** The inner loop of [fetchByUrl] over [t.animethemeentries]: the link of
    the first video of the first entry that has a usable one. *)
Fixpoint firstVideoUrl (entries : list ThemeEntry) (videoUrl : string) : string :=
  match entries with
  | [] => videoUrl
  | e :: entries' =>
      match orDefault (videos e) [] with
      | [] => firstVideoUrl entries' videoUrl
      | v :: _ =>
          let videoUrl' := strOr (link v) (strOr (audio v) "") in
          if decide (videoUrl' = "") then firstVideoUrl entries' videoUrl' else videoUrl'
      end
  end.

(** The outer loop of [fetchByUrl] over [a.animethemes]. *)
Fixpoint openingsOf (themes : list Theme) : list Opening :=
  match themes with
  | [] => []
  | t :: themes' =>
      if decide (toUpperCase (orDefault (type t) "") = "OP") then
        {| op_type := "OP";
           number := sequence t;
           op_songTitle := orDefault (song_title t) "";
           op_artists := "";
           op_videoUrl := firstVideoUrl (orDefault (animethemeentries t) []) "" |}
        :: openingsOf themes'
      else openingsOf themes'
  end.

Definition fetchByUrl (url : string) : M World (list Opening) :=
  data <- inIo (fetchJSON env (mkRequest url None)) ;;
  let animeArr := match data with JAnime l => l | _ => [] end in
  match animeArr with
  | [] => ret []
  | a :: _ => ret (openingsOf (orDefault (animethemes a) []))
  end.

Definition themesUrl (title : string) : string :=
  "https://api.animethemes.moe/anime?filter[name]=" +:+ encodeURIComponent title +:+
  "&include=animethemes,animethemes.song,animethemes.animethemeentries,animethemes.animethemeentries.videos".

(** [getOpeningsForAniListId(anilistId, titles)]; [cache] is the cache the
    closure sees, [setCache] writes the state.  [if (cached)] holds for
    every array, the empty one too: only a missing key is falsy. *)
Definition getOpeningsForAniListId (cache : gmap string (list Opening)) (anilistId : Z)
    (titleRomaji titleEnglish titleNative : string) : M World (list Opening) :=
  match cache !! pretty anilistId with
  | Some cached => ret cached
  | None =>
      results <-
        (if decide (titleRomaji = "") then ret []
         else fetchByUrl (themesUrl titleRomaji)) ;;
      results <-
        (if (length results =? 0)%nat && negb (bool_decide (titleEnglish = ""))
         then fetchByUrl (themesUrl titleEnglish) else ret results) ;;
      results <-
        (if (length results =? 0)%nat && negb (bool_decide (titleNative = ""))
         then fetchByUrl (themesUrl titleNative) else ret results) ;;
      let newCache := <[pretty anilistId := results]> cache in
      modify (setCache newCache) ;;
      ret results
  end.

(** *** ImportCoordinator *)

(** One turn of [for (const op of ops)]: the ids seen so far, the cards
    staged for this show and their count. *)
Definition stageOp (m : Entry) (acc : gset string * list Card * Z) (op : Opening)
    : gset string * list Card * Z :=
  let '(ids, newCards, added) := acc in
  let id := cardId (anilistId m) (number op) in
  if decide (id ∈ ids) then acc
  else
    ({[id]} ∪ ids,
     newCards ++
       [{| id := id;
           card_anilistId := anilistId m;
           card_titleRomaji := titleRomaji m;
           card_titleEnglish := titleEnglish m;
           card_titleNative := titleNative m;
           card_season := season m;
           card_year := year m;
           opNumber := number op;
           songTitle := op_songTitle op;
           artists := op_artists op;
           videoUrl := op_videoUrl op |}],
     added + 1).

Definition stage (m : Entry) (ops : list Opening) (ids : gset string)
    : gset string * list Card * Z :=
  fold_left (stageOp m) ops (ids, [], 0).

(** The body of [try] inside the loop after the resolver has returned
    [ops] for the show [m]: stage the new cards, commit them, and advance
    the progress. *)
Definition stageShow (m : Entry) (ops : list Opening) (w : World) : World :=
  let '(ids', newCards, added) := stage m ops (idsRef w) in
  let w1 := setIdsRef ids' w in
  let w2 :=
    if (length newCards =? 0)%nat then w1
    else setCards (dedupeById (cards w1 ++ newCards)) w1 in
  setProgress (mkProgress (totalShows (progress w2))
                          (processedShows (progress w2) + 1)
                          (totalOps (progress w2) + added)) w2.

(** The body of [try] inside the loop, for the show [m]. *)
Definition importShow (cl : Closure) (m : Entry) : M World unit :=
  ops <- getOpeningsForAniListId (seen_cache cl) (anilistId m)
           (titleRomaji m) (titleEnglish m) (titleNative m) ;;
  modify (stageShow m ops).

(** The [catch (e)] inside the loop. *)
Definition countFailure (w : World) : World :=
  setProgress (mkProgress (totalShows (progress w))
                          (processedShows (progress w) + 1)
                          (totalOps (progress w))) w.

(** The polite delay at the end of a turn. *)
Definition pause (cl : Closure) : M World unit :=
  x <- inIo (Math_random env) ;;
  inIo (sleep (delayMs cl + Math_floor (x * inject_Z JITTER_MS))).

(** [for (const m of list)], from its i-th turn on. *)
Fixpoint importLoop (cl : Closure) (i : nat) (list : list Entry) : M World unit :=
  match list with
  | [] => ret tt
  | m :: rest =>
      if cancelRequested env i then ret tt
      else
        tryCatch (importShow cl m) (fun _ => modify countFailure) ;;
        pause cl ;;
        importLoop cl (S i) rest
  end.

Definition NO_ANIME : string :=
  "Aucun anime trouvé pour cet utilisateur (profil vide ou privé)".
Definition NO_OPENING : string :=
  "Aucun OP trouvé via AnimeThemes pour tes séries (le mapping AniList → AnimeThemes a peut-être échoué pour ce compte).".

(** The last [setCards(prev => ...)]: final dedupe, and the message when
    no card is left. *)
Definition finalDedupe (w : World) : World :=
  let deduped := dedupeById (cards w) in
  let w' := if (length deduped =? 0)%nat then setError NO_OPENING w else w in
  setCards deduped w'.

(** The [try] block of [buildDeckFromAniList] from the cap on: cap the
    list, refuse an empty one, run the loop, dedupe. *)
Definition importEntries (cl : Closure) (anime : list Entry) : M World unit :=
  let list := take (Z.to_nat (Z.max 10 (maxShows cl))) anime in
  if (length list =? 0)%nat then throw NO_ANIME
  else
    modify (setProgress (mkProgress (Z.of_nat (length list)) 0 0)) ;;
    importLoop cl 0 list ;;
    modify finalDedupe.

(** The [try] block of [buildDeckFromAniList]. *)
Definition buildDeck_try (fuel : nat) (cl : Closure) (name : string) : M World unit :=
  uid <- getAniListUserId (trim name) ;;
  anime <- getAniListAnime fuel uid ;;
  importEntries cl anime.

(** The [catch (e)] block of [buildDeckFromAniList]. *)
Definition buildDeck_catch (e : string) : M World unit :=
  modify (setError (errorText e)) ;;
  modify (setCards []).

(** The statements before [try]: the messages and flags are reset and
    [idsRef] is rebuilt from the cards the closure sees.  The reset of
    [cancelImportRef.current] is in the environment's account of the flag:
    [cancelRequested] tells what the loop reads, cancel requests of earlier
    runs not counted. *)
Definition buildDeck_begin (cl : Closure) (w : World) : World :=
  setIdsRef (list_to_set (map id (seen_cards cl)))
    (setShowAnswer false (setLoading true (setError "" w))).

(** [buildDeckFromAniList(name)], run by the closure [cl]; [fuel] bounds
    the pages [getAniListAnime] may ask for. *)
Definition buildDeckFromAniList (fuel : nat) (cl : Closure) (name : string) : M World unit :=
  modify (buildDeck_begin cl) ;;
  tryFinally
    (tryCatch (buildDeck_try fuel cl name) buildDeck_catch)
    (setLoading false).

End ImportRun.

(** The closure of the render that follows a state [w]. *)
Definition render (w : World) (maxShows delayMs : Z) : Closure :=
  mkClosure (cards w) (cache w) maxShows delayMs.

(** *** The review side *)

(** A card of the deck: the stored card with its schedule object attached
    under [srs]. *)
Record DeckCard := mkDeckCard {
  card : Card;
  card_srs : Srs
}.

(** [{ all, due, later }]; [due] and [later] are shuffled arrays. *)
Record Deck := mkDeck {
  deck_all : list DeckCard;
  deck_due : list (option DeckCard);
  deck_later : list (option DeckCard)
}.

(** [{ ef: 2.5, interval: 0, reps: 0, due: 0 }], for a card with no entry
    in the schedule map. *)
Definition NEW_SRS : Srs := mkSrs (Some (5 # 2)%Q) (Some 0) (Some 0) None None (Some 0).

(** The callback of [cards.filter]; [q] is the filter text, trimmed and
    lower-cased. *)
Definition matchesFilter (q : string) (c : Card) : bool :=
  if decide (q = "") then true
  else
    let hay :=
      toLowerCase (card_titleRomaji c +:+ " " +:+ card_titleEnglish c +:+ " " +:+
                   card_titleNative c +:+ " " +:+ songTitle c +:+ " " +:+ artists c) in
    includes hay q.

Section Review.
Variable env : Env.

(** The [useMemo] that computes [deck], with [now] the [Date.now()] of the
    render. *)
Definition deck (now : Z) (cards : list Card) (srs : gmap string Srs) (filterQuery : string)
    : M Io Deck :=
  let q := toLowerCase (trim filterQuery) in
  let filtered := filter (fun c => matchesFilter q c = true) cards in
  let withMeta := map (fun c => mkDeckCard c (orDefault (srs !! id c) NEW_SRS)) filtered in
  let dueNow := filter (fun c => orDefault (due (card_srs c)) 0 <= now) withMeta in
  let later := filter (fun c => orDefault (due (card_srs c)) 0 > now) withMeta in
  shuffledDue <- shuffle env dueNow ;;
  shuffledLater <- shuffle env later ;;
  ret (mkDeck withMeta shuffledDue shuffledLater).

End Review.

(** [deck.due[0] || deck.later[0]]. *)
Definition current (d : Deck) : option DeckCard :=
  match arr_get (deck_due d) 0 with
  | Some c => Some c
  | None => arr_get (deck_later d) 0
  end.

(** The cells [grade] writes: the schedule map [srs] and [showAnswer]. *)
Record Study := mkStudy {
  srs : gmap string Srs;
  study_showAnswer : bool
}.

(** [grade(quality)], run by a closure that sees the card [current] and
    the schedule map [seen_srs]; [now] is the [Date.now()] of the
    scheduler. *)
Definition grade (now : Z) (current : option DeckCard) (seen_srs : gmap string Srs)
    (quality : Quality) (s : Study) : Study :=
  match current with
  | None => s
  | Some c =>
      let next := sm2Schedule now (seen_srs !! id (card c)) quality in
      mkStudy (<[id (card c) := next]> (srs s)) false
  end.

End Trainer.

(** ** App.jsx *)
Module App.

(** *** SRS (simplified) *)

(** A card of the deck as [sm2Schedule] receives it: the stored card with
    the schedule object of its id attached under [srs]. *)
Record Card := mkCard {
  id : string;
  titleRomaji : option string;
  opNumber : Z;
  videoUrl : option string;
  artists : list string;
  songTitle : string;
  srs : option Srs
}.

Definition TEN_MINUTES : Z := 10 * 60 * 1000.

(** [sm2Schedule(card, quality, easyDelayHours, diffAgain)]; [quality] is
    the number the grade buttons pass: 0 (Again), 1 (Hard), 2 (Easy).  The
    default of [due] is never read: every branch assigns [due]. *)
Definition sm2Schedule (now : Z) (card : option Card) (quality : Z)
    (easyDelayHours : Z) (diffAgain : bool) : Srs :=
  let s := orDefault (card ≫= srs) emptySrs in
  let attempts1 := orDefault (attempts s) 0 + 1 in
  let successes1 :=
    if decide (quality > 0) then orDefault (successes s) 0 + 1
    else orDefault (successes s) 0 in
  let reps1 := orDefault (reps s) 0 + 1 in
  let '(interval1, due1) :=
    if decide (quality = 2) then
      let i := easyDelayHours * 60 * 60 * 1000 in (i, now + i)
    else if decide (quality = 1) then (0, now)
    else
      let i := if diffAgain then TEN_MINUTES else 0 in (i, now + i) in
  {| ef := None;
     interval := Some interval1;
     reps := Some reps1;
     attempts := Some attempts1;
     successes := Some successes1;
     due := Some due1 |}.

Definition withSrs (c : Card) (s : option Srs) : Card :=
  mkCard (id c) (titleRomaji c) (opNumber c) (videoUrl c) (artists c) (songTitle c) s.

(** [sm2Schedule] applied along a review history of [(now, quality)]
    pairs, each call on the card carrying the object the call before
    returned. *)
Definition gradeAll (easyDelayHours : Z) (diffAgain : bool)
    (c : Card) (history : list (Z * Z)) : Card :=
  fold_left
    (fun c e => withSrs c (Some (sm2Schedule e.1 (Some c) e.2 easyDelayHours diffAgain)))
    history c.

(** *** Import from the streaming episodes *)

Definition DEFAULT_MAX_SHOWS : nat := 1000.
Definition MAX_STORAGE_SIZE_MB : Z := 5.
Definition MAX_CARDS_PER_SERIES : nat := 5.
Definition ONE_DAY : Z := 24 * 60 * 60 * 1000.

(** The state [importAnilist] works on: the [cards], [loading] and [error]
    cells behind the setters it is given, the card blob in [localStorage]
    as [loadCards] reads it (the empty list when the item is missing), and
    the input/output state. *)
Record World := mkWorld {
  io : Io;
  cards : list Card;
  loading : bool;
  error : string;
  stored : list Card
}.

Definition setIo (v : Io) (w : World) : World :=
  mkWorld v (cards w) (loading w) (error w) (stored w).
Definition setCards (v : list Card) (w : World) : World :=
  mkWorld (io w) v (loading w) (error w) (stored w).
Definition setLoading (v : bool) (w : World) : World :=
  mkWorld (io w) (cards w) v (error w) (stored w).
Definition setError (v : string) (w : World) : World :=
  mkWorld (io w) (cards w) (loading w) v (stored w).

Definition setStored (v : list Card) (w : World) : World :=
  mkWorld (io w) (cards w) (loading w) (error w) v.

(** What [saveCards] meets in the [localStorage] of the browser: the size
    in bytes of the text that holds given cards, and, for the cards
    [setItem] is asked to write, the message of the exception it throws
    when the quota is exceeded ([None]: the write goes through). *)
Record LocalStorage := mkLocalStorage {
  blobBytes : list Card -> Z;
  quotaError : list Card -> option string
}.

(** [saveCards(cs)]: the item is removed when it is larger than
    [MAX_STORAGE_SIZE_MB] (the size is divided by 2^20, which is exact),
    then written with the first [DEFAULT_MAX_SHOWS] cards; [setItem]
    throws when the quota is exceeded, after the purge. *)
Definition saveCards (storage : LocalStorage) (cs : list Card) : M World unit :=
  fun w =>
    let w1 :=
      if decide (blobBytes storage (stored w) > MAX_STORAGE_SIZE_MB * (1024 * 1024))
      then setStored [] w
      else w in
    let blob := take DEFAULT_MAX_SHOWS cs in
    match quotaError storage blob with
    | Some e => (Throw e, w1)
    | None => (Ok tt, setStored blob w1)
    end.

Definition dedupeById (arr : list Card) : list Card := dedupeBy id arr.

(** What reading a property of [null] throws (the text is the engine's). *)
Definition TYPE_ERROR : string := "Cannot read properties of null".

(** [media.title.romaji || media.title.english || media.title.native]. *)
Definition displayTitle (t : Title) : option string :=
  match romaji t with
  | Some s => if decide (s = "") then
                match english t with
                | Some s' => if decide (s' = "") then native t else Some s'
                | None => native t
                end
              else Some s
  | None =>
      match english t with
      | Some s' => if decide (s' = "") then native t else Some s'
      | None => native t
      end
  end.

(** The variables the [forEach] callbacks share. *)
Record Gen := mkGen {
  globalIndex : Z;
  seenOps : gset string;
  newCards : list Card
}.

(** Building a card reads [media.title.romaji], which throws when the
    title is [null]. *)
Definition cardTitle (media : Media) : Result (option string) :=
  match media_title media with
  | Some t => Ok (displayTitle t)
  | None => Throw TYPE_ERROR
  end.

(** One turn of the inner [forEach((episode, index) => ...)]; the
    accumulator also holds [uniqueOps] and [seriesCards] of the media. *)
Definition episodeStep (now : Z) (media : Media)
    (acc : Z * gset string * gset Z * list Card) (ie : nat * Episode)
    : Result (Z * gset string * gset Z * list Card) :=
  let '(globalIndex, seenOps, uniqueOps, seriesCards) := acc in
  let '(index, episode) := ie in
  let globalIndex := globalIndex + 1 in
  let opNumber := Z.of_nat index + 1 in
  let uniqueKey :=
    pretty (media_id media) +:+ "::OP" +:+ pretty opNumber +:+ "::" +:+
    strOr (ep_url episode) "none" in
  if negb (bool_decide (strOr (ep_url episode) "" = ""))
     && negb (bool_decide (uniqueKey ∈ seenOps))
     && negb (bool_decide (opNumber ∈ uniqueOps))
  then
    match cardTitle media with
    | Ok title =>
        Ok (globalIndex, {[uniqueKey]} ∪ seenOps, {[opNumber]} ∪ uniqueOps,
            seriesCards ++
              [{| id := pretty (media_id media) +:+ "::OP" +:+ pretty opNumber +:+ "::" +:+
                        pretty globalIndex;
                  titleRomaji := title;
                  opNumber := opNumber;
                  videoUrl := ep_url episode;
                  artists := [];
                  songTitle := "Opening " +:+ pretty opNumber;
                  srs := Some (mkSrs None None None None None (Some (now + ONE_DAY))) |}])
    | Throw e => Throw e
    | Diverge => Diverge
    end
  else Ok (globalIndex, seenOps, uniqueOps, seriesCards).

Fixpoint forEachEpisode (now : Z) (media : Media)
    (acc : Z * gset string * gset Z * list Card) (episodes : list (nat * Episode))
    : Result (Z * gset string * gset Z * list Card) :=
  match episodes with
  | [] => Ok acc
  | ie :: rest =>
      match episodeStep now media acc ie with
      | Ok acc' => forEachEpisode now media acc' rest
      | other => other
      end
  end.

(** One turn of [allEntries.forEach(media => ...)]. *)
Definition mediaStep (now : Z) (g : Gen) (media : Media) : Result Gen :=
  let episodes := take MAX_CARDS_PER_SERIES (orDefault (streamingEpisodes media) []) in
  match forEachEpisode now media (globalIndex g, seenOps g, ∅, [])
          (imap (fun i e => (i, e)) episodes) with
  | Ok (globalIndex, seenOps, _, seriesCards) =>
      if (0 <? length seriesCards)%nat then
        Ok (mkGen globalIndex seenOps (newCards g ++ seriesCards))
      else
        (* Fallback pour les séries sans épisodes *)
        let globalIndex := globalIndex + 1 in
        let fallbackId := pretty (media_id media) +:+ "::OP1::" +:+ pretty globalIndex in
        if bool_decide (fallbackId ∈ seenOps) then Ok (mkGen globalIndex seenOps (newCards g))
        else
          match cardTitle media with
          | Ok title =>
              Ok (mkGen globalIndex ({[fallbackId]} ∪ seenOps)
                    (newCards g ++
                      [{| id := fallbackId;
                          titleRomaji := title;
                          opNumber := 1;
                          videoUrl := None;
                          artists := [];
                          songTitle := "Opening 1";
                          srs := Some (mkSrs None None None None None (Some (now + ONE_DAY))) |}]))
          | Throw e => Throw e
          | Diverge => Diverge
          end
  | Throw e => Throw e
  | Diverge => Diverge
  end.

Fixpoint forEachMedia (now : Z) (g : Gen) (allEntries : list Media) : Result Gen :=
  match allEntries with
  | [] => Ok g
  | media :: rest =>
      match mediaStep now g media with
      | Ok g' => forEachMedia now g' rest
      | other => other
      end
  end.

Section ImportRun.
Variable env : Env.
Variable storage : LocalStorage.

Definition inIo {A} (m : M Io A) : M World A := liftIo io setIo m.

(** The [try] block of [importAnilist] after the username test; [cards]
    is the value the caller read from its render. *)
Definition importAnilist_try (now : Z) (cards_seen : list Card) (username : string)
    : M World unit :=
  response <- inIo (postJSON env ANILIST_GQL (VarsUsername username)) ;;
  match response with
  | JCollection lists =>
      let entries := concat lists in
      let allEntries := [] ++ entries in
      match forEachMedia now (mkGen 0 ∅ []) allEntries with
      | Ok g =>
          modify (fun w => setCards (take DEFAULT_MAX_SHOWS (dedupeById (cards w ++ newCards g))) w) ;;
          saveCards storage (take DEFAULT_MAX_SHOWS (cards_seen ++ newCards g))
      | Throw e => throw e
      | Diverge => diverge
      end
  | _ => throw TYPE_ERROR
  end.

(** [importAnilist(setCards, setLoading, setError, cards, username)];
    [now] stands for the [Date.now()] of the cards it builds. *)
Definition importAnilist (now : Z) (cards_seen : list Card) (username : string)
    : M World unit :=
  tryFinally
    (tryCatch
       (modify (setLoading true) ;;
        modify (setError "") ;;
        if decide (username = "") then
          modify (setError "Veuillez entrer un nom d'utilisateur AniList.") ;;
          modify (setLoading false)
        else importAnilist_try now cards_seen username)
       (fun e => modify (setError ("Erreur lors de l'import : " +:+ e))))
    (setLoading false).

End ImportRun.

(** *** The review side *)

(** [srs[id]] on the schedule map; a key may hold [undefined] (which is
    what [undoGrade] writes back for a card that had no entry). *)
Definition srsAt (m : gmap string (option Srs)) (k : string) : option Srs :=
  match m !! k with
  | Some v => v
  | None => None
  end.

Record Deck := mkDeck {
  deck_all : list Card;
  deck_due : list Card;
  deck_later : list Card
}.

(** The callback of [all.filter].  The cards this file builds have no
    [titleEnglish] and no [titleNative] key, so these two tests look into
    the empty string. *)
Definition matchesFilter (filterQuery : string) (c : Card) : bool :=
  if decide (filterQuery = "") then true
  else
    let q := toLowerCase filterQuery in
    includes (toLowerCase (strOr (titleRomaji c) "")) q
    || includes (toLowerCase "") q
    || includes (toLowerCase "") q
    || includes (toLowerCase (songTitle c)) q
    || existsb (fun a => includes (toLowerCase a) q) (artists c).

(** [!c.srs.due || c.srs.due <= now]. *)
Definition isDue (now : Z) (c : Card) : bool :=
  match srs c ≫= due with
  | Some d => (d =? 0) || (d <=? now)
  | None => true
  end.

(** [c.srs.due && c.srs.due > now]. *)
Definition isLater (now : Z) (c : Card) : bool :=
  match srs c ≫= due with
  | Some d => negb (d =? 0) && (now <? d)
  | None => false
  end.

(** The [useMemo] that computes [deck]; [now] is its [Date.now()]. *)
Definition deck (now : Z) (cards : list Card) (srs_map : gmap string (option Srs))
    (filterQuery : string) : Deck :=
  let all := map (fun c => withSrs c (Some (orDefault (srsAt srs_map (id c)) emptySrs))) cards in
  let filtered := filter (fun c => matchesFilter filterQuery c = true) all in
  let dueNow := filter (fun c => isDue now c = true) filtered in
  let later := filter (fun c => isLater now c = true) filtered in
  mkDeck filtered dueNow later.

(** *** Grading and undoing a grade *)

(** The cells the grade handlers write.  [timeouts] holds the callbacks
    [setTimeout] has queued and not yet run, each given by the deck its
    closure sees.  The writes to the answer field ([answerRef]) are left
    out. *)
Record Study := mkStudy {
  study_io : Io;
  srs_map : gmap string (option Srs);
  lastGrade : option (string * option Srs);
  toast : string;
  showAnswer : bool;
  currentCard : option Card;
  timeouts : list Deck
}.

(** What the handlers of one render see of the state and the settings. *)
Record Seen := mkSeen {
  seen_srs : gmap string (option Srs);
  seen_currentCard : option Card;
  seen_lastGrade : option (string * option Srs);
  seen_deck : Deck;
  easyDelayHours : Z;
  diffAgain : bool;
  hideVideo : bool
}.

Definition setStudyIo (v : Io) (s : Study) : Study :=
  mkStudy v (srs_map s) (lastGrade s) (toast s) (showAnswer s) (currentCard s) (timeouts s).
Definition setSrs (v : gmap string (option Srs)) (s : Study) : Study :=
  mkStudy (study_io s) v (lastGrade s) (toast s) (showAnswer s) (currentCard s) (timeouts s).
Definition setLastGrade (v : option (string * option Srs)) (s : Study) : Study :=
  mkStudy (study_io s) (srs_map s) v (toast s) (showAnswer s) (currentCard s) (timeouts s).
Definition setToast (v : string) (s : Study) : Study :=
  mkStudy (study_io s) (srs_map s) (lastGrade s) v (showAnswer s) (currentCard s) (timeouts s).
Definition setShowAnswer (v : bool) (s : Study) : Study :=
  mkStudy (study_io s) (srs_map s) (lastGrade s) (toast s) v (currentCard s) (timeouts s).
Definition setCurrentCard (v : option Card) (s : Study) : Study :=
  mkStudy (study_io s) (srs_map s) (lastGrade s) (toast s) (showAnswer s) v (timeouts s).
Definition setTimeouts (v : list Deck) (s : Study) : Study :=
  mkStudy (study_io s) (srs_map s) (lastGrade s) (toast s) (showAnswer s) (currentCard s) v.

(** [["Again", "Hard", "Easy"][quality]] inside a template string. *)
Definition gradeName (quality : Z) : string :=
  if decide (quality = 0) then "Again"
  else if decide (quality = 1) then "Hard"
  else if decide (quality = 2) then "Easy"
  else "undefined".

Section Grading.
Variable env : Env.

(** [deck.due.length > 0 ? shuffle(deck.due)[0]
     : (deck.later.length > 0 ? shuffle(deck.later)[0] : null)]. *)
Definition pickNext (d : Deck) : M Io (option Card) :=
  if (0 <? length (deck_due d))%nat then
    a <- shuffle env (deck_due d) ;; ret (arr_get a 0)
  else if (0 <? length (deck_later d))%nat then
    a <- shuffle env (deck_later d) ;; ret (arr_get a 0)
  else ret None.

(** The statements [grade] runs at once when the video is hidden, and from
    a timeout of 500 ms otherwise; [d] is the deck of the closure. *)
Definition showNext (d : Deck) : M Study unit :=
  modify (setShowAnswer false) ;;
  newCurrent <- liftIo study_io setStudyIo (pickNext d) ;;
  modify (setCurrentCard newCurrent).

(** [grade(quality)], run by the handlers of a render that sees [cl]. *)
Definition grade (now : Z) (cl : Seen) (quality : Z) : M Study unit :=
  match seen_currentCard cl with
  | None => ret tt
  | Some currentCard =>
      let prevSrs := srsAt (seen_srs cl) (id currentCard) in
      modify (setLastGrade (Some (id currentCard, prevSrs))) ;;
      let newSrs :=
        sm2Schedule now (Some currentCard) quality (easyDelayHours cl) (diffAgain cl) in
      modify (fun s => setSrs (<[id currentCard := Some newSrs]> (srs_map s)) s) ;;
      modify (setToast ("Noté : " +:+ gradeName quality)) ;;
      if hideVideo cl then showNext (seen_deck cl)
      else modify (fun s => setTimeouts (timeouts s ++ [seen_deck cl]) s)
  end.

(** The oldest queued timeout fires. *)
Definition runTimeout : M Study unit :=
  fun s =>
    match timeouts s with
    | [] => (Ok tt, s)
    | d :: rest => showNext d (setTimeouts rest s)
    end.

End Grading.

(** [undoGrade()], run by the handlers of a render that sees [cl]. *)
Definition undoGrade (cl : Seen) : M Study unit :=
  match seen_lastGrade cl with
  | None => ret tt
  | Some (id, prevSrs) =>
      modify (fun s => setSrs (<[id := prevSrs]> (srs_map s)) s) ;;
      modify (setLastGrade None) ;;
      modify (setToast "Undo effectué")
  end.

(** *** The pages of the deck table *)

Definition pageSize : Z := 50.

Definition Math_ceil (x : Q) : Z := Qceiling x.

(** [sortedDeck.slice((currentPage - 1) * pageSize, currentPage * pageSize)]. *)
Definition paginatedDeck {A} (sortedDeck : list A) (currentPage : Z) : list A :=
  slice sortedDeck ((currentPage - 1) * pageSize) (currentPage * pageSize).

(** [Math.ceil(sortedDeck.length / pageSize)], the number of the last page. *)
Definition pageCount {A} (sortedDeck : list A) : Z :=
  Math_ceil (inject_Z (Z.of_nat (length sortedDeck)) / inject_Z pageSize).

End App.

(** ** The resolver as the specification words it *)

Section ResolverSpec.
Variable env : Env.

(** Step 2: try the given title variants in order, one query of the theme
    index per variant tried, and stop at the first one whose result list is
    not empty; the empty list when every variant yields none. *)
Fixpoint firstMatch (variants : list string) : M Trainer.World (list Trainer.Opening) :=
  match variants with
  | [] => ret []
  | title :: rest =>
      results <- Trainer.fetchByUrl env (Trainer.themesUrl title) ;;
      if (length results =? 0)%nat then firstMatch rest else ret results
  end.

(** [resolve(catalogId, titleVariants)]: step 1, a cache entry is returned
    as it is; step 2, the first match over the non-empty variants; step 3,
    the result is written into the cache under the catalogId. *)
Definition resolve (cache : gmap string (list Trainer.Opening)) (catalogId : Z)
    (titleVariants : list string) : M Trainer.World (list Trainer.Opening) :=
  match cache !! pretty catalogId with
  | Some cached => ret cached
  | None =>
      results <- firstMatch (filter (fun title => title <> "") titleVariants) ;;
      modify (Trainer.setCache (<[pretty catalogId := results]> cache)) ;;
      ret results
  end.

End ResolverSpec.

(** ** Vocabulary of the retry policy *)

(** The statuses the client retries. *)
Definition transient (r : Response) : bool :=
  (status r =? 429) || ((500 <=? status r) && (status r <? 600)).

(** What a call makes of the response it stops at: the parsed body for a
    success, an error with the status and body text otherwise. *)
Definition settle (r : Response) : Result Json :=
  if ok r then
    match json r with
    | inl j => Ok j
    | inr e => Throw e
    end
  else Throw (statusMessage r).

(** [ms] is a wait the client may take after the response [r] of the given
    attempt: the [Retry-After] seconds when the header holds a number other
    than zero, the capped exponential delay plus a jitter below [JITTER_MS]
    when the header is missing, zero or a date. *)
Definition backoffOk (attempt : Z) (r : Response) (ms : Z) : Prop :=
  match retryAfterHeader r with
  | Some (DelaySeconds (Npos p)) => ms = Z.max 1000 (Z.pos p * 1000)
  | _ => exists jitter, 0 <= jitter < JITTER_MS /\
                        ms = Z.min (1000 * 2 ^ attempt) 16000 + jitter
  end.

Fixpoint backoffsOk (attempt : Z) (rs : list Response) (waits : list Z) : Prop :=
  match rs, waits with
  | [], [] => True
  | r :: rs', ms :: waits' => backoffOk attempt r ms /\ backoffsOk (attempt + 1) rs' waits'
  | _, _ => False
  end.

(** The events of one call that slept [waits] between its fetches. *)
Definition retryEvents (req : Request) (waits : list Z) : list Event :=
  flat_map (fun ms => [EvFetch req; EvSleep ms]) waits ++ [EvFetch req].

(** The shape of the events of one call: fetches of the request, with a
    sleep of at least a second between any two of them. *)
Inductive retryTrace (req : Request) : list Event -> Prop :=
  | retry_last : retryTrace req [EvFetch req]
  | retry_more ms evs :
      1000 <= ms -> retryTrace req evs ->
      retryTrace req (EvFetch req :: EvSleep ms :: evs).

(** Setting every element of [arr] under its key into the map [m]. *)
Definition setAll {V} (key : V -> string) (m : list (string * V)) (arr : list V)
    : list (string * V) :=
  fold_left (fun m c => map_set m (key c) c) arr m.

(** ** The resolver on a remote that does not change *)








(** The ids of a list of cards, as [new Set(cards.map(c => c.id))]. *)
Definition idSet (cards : list Trainer.Card) : gset string :=
  list_to_set (map Trainer.id cards).

(** The id the import gives the opening [op] of the show [m]. *)
Definition opId (m : Trainer.Entry) (op : Trainer.Opening) : string :=
  Trainer.cardId (Trainer.anilistId m) (Trainer.number op).

(** The id of the card is the one its show and opening number give. *)
Definition derivedId (c : Trainer.Card) : Prop :=
  Trainer.id c = Trainer.cardId (Trainer.card_anilistId c) (Trainer.opNumber c).

(** ** The streaming-episode import on a remote that does not change *)





(** The input/output state right after one more fetch of [req]. *)
Definition afterFetch (req : Request) (io : Io) : Io :=
  mkIo (S (fetches io)) (draws io) (trace io ++ [EvFetch req]).

(** ** Sample responses and environments *)

Definition halfJitter : Unit01 := mkUnit01 (1 # 2) eq_refl.

Definition respond (status : Z) (statusText : string) (header : option RetryAfter)
    (text : string) (j : Json) : Response :=
  mkResponse status statusText header (Some text) (inl j).

Definition r429 : Response := respond 429 "Too Many Requests" None "slow down" JOther.
Definition r429_zero : Response :=
  respond 429 "Too Many Requests" (Some (DelaySeconds 0)) "slow down" JOther.
Definition r503_after3 : Response :=
  respond 503 "Service Unavailable" (Some (DelaySeconds 3)) "" JOther.
Definition r500 : Response := respond 500 "Internal Server Error" None "" JOther.
Definition r404 : Response := respond 404 "Not Found" None "no such user" JOther.
Definition r200 (j : Json) : Response := respond 200 "OK" None "" j.

(** The n-th fetch is answered by the n-th response of the list, and by
    [last] once the list is used up. *)
Definition scripted (script : list Response) (last : Response) : Env :=
  mkEnv (fun n _ => Responded (nth n script last)) (fun _ => halfJitter) (fun _ => false).

Definition sampleRequest : Request := mkRequest "https://api.animethemes.moe/anime" None.

(** A state with no card, an empty cache and nothing fetched yet. *)
Definition sampleWorld : Trainer.World :=
  Trainer.mkWorld Io0 [] ∅ "" false false (Trainer.mkProgress 0 0 0) ∅.

Definition sampleTheme (type : string) (sequence : option Z) : Theme :=
  mkTheme (Some type) sequence (Some "Guren no Yumiya")
    (Some [mkThemeEntry (Some [mkVideo (Some "https://v.animethemes.moe/op1.webm") None])]).

Definition sampleOpening : Trainer.Opening :=
  Trainer.mkOpening "OP" (Some 1) "Guren no Yumiya" "" "https://v.animethemes.moe/op1.webm".

Definition media3 : Media :=
  mkMedia 3 (Some (mkTitle (Some "Cowboy Bebop") None None)) None None None.
Definition media7 : Media :=
  mkMedia 7 (Some (mkTitle (Some "Shingeki no Kyojin") (Some "Attack on Titan") None))
    (Some "SPRING") (Some 2013) None.

(** A steady remote.  The list service knows one user, whose one page
    holds the show 7 (and whose collection holds the shows 3 and 7); the
    theme index knows the show 7 under its English title, and under its
    romaji title answers with two records of which the first has an ending
    only; any other title is not found. *)
Definition steadyF (req : Request) : Fetched :=
  match body req with
  | Some (VarsName _) => Responded (r200 (JUser (Some 5)))
  | Some (VarsPage _ _ _) => Responded (r200 (JPage [media7] false))
  | Some (VarsUsername _) => Responded (r200 (JCollection [[media3; media7]]))
  | None =>
      if decide (url req = Trainer.themesUrl "Attack on Titan") then
        Responded (r200 (JAnime [mkAnime (Some [sampleTheme "OP" (Some 1)])]))
      else if decide (url req = Trainer.themesUrl "Shingeki no Kyojin") then
        Responded (r200 (JAnime [mkAnime (Some [sampleTheme "ED" (Some 1)]);
                                 mkAnime (Some [sampleTheme "OP" (Some 1)])]))
      else Responded r404
  end.

Definition steadyEnv : Env :=
  mkEnv (fun _ => steadyF) (fun _ => halfJitter) (fun _ => false).

Definition unknownShow : Trainer.Entry :=
  Trainer.mkEntry 99 "Unknown Show" "" "" "" None.
Definition knownShow : Trainer.Entry := Trainer.entryOf media7.

Definition sampleCard : Trainer.Card :=
  Trainer.mkCard "7::OP1" 7 "Shingeki no Kyojin" "Attack on Titan" "" "SPRING" (Some 2013)
    (Some 1) "Guren no Yumiya" "" "https://v.animethemes.moe/op1.webm".

(** A state of the [App.jsx] component with no card. *)
Definition sampleAppWorld : App.World := App.mkWorld Io0 [] false "" [].

(** A [localStorage] with room: every write goes through. *)
Definition roomyStorage : App.LocalStorage :=
  App.mkLocalStorage (fun cs => 2 + 200 * Z.of_nat (length cs)) (fun _ => None).

(** A [localStorage] that is full: every write of the cards is refused. *)
Definition fullStorage : App.LocalStorage :=
  App.mkLocalStorage (fun cs => 2 + 200 * Z.of_nat (length cs))
    (fun _ => Some "The quota has been exceeded.").

(** A list service whose collection for every user is [lists]. *)
Definition collectionEnv (lists : list (list Media)) : Env :=
  scripted [] (r200 (JCollection lists)).

(** ** Readers used in the statements *)

(** [c.srs.attempts || 0], [c.srs.successes || 0] and
    [srs[c.id]?.reps || 0], as the statistics of the deck read them. *)
Definition attemptCount (s : option Srs) : Z := orDefault (s ≫= attempts) 0.
Definition successCount (s : option Srs) : Z := orDefault (s ≫= successes) 0.
Definition repetitionCount (s : option Srs) : Z := orDefault (s ≫= reps) 0.

(** The number of reviews of a history graded above Again. *)
Definition nonFailing (history : list (Z * Z)) : Z :=
  Z.of_nat (length (filter (fun e => e.2 > 0) history)).

(** ** Vocabulary of the further properties *)

(** *** Draws and sleeps *)

(** The number [j / n] as a draw of [Math.random()], for [j < n] (one half
    when [j] is not below [n]). *)
Definition draw_of (j n : nat) : Unit01 :=
  let q := (Z.of_nat j # Pos.of_nat n)%Q in
  match Qle_bool 0 q && negb (Qle_bool 1 q) as b
        return (Qle_bool 0 q && negb (Qle_bool 1 q) = b -> Unit01) with
  | true => fun H => mkUnit01 q H
  | false => fun _ => halfJitter
  end eq_refl.

(** The environment [env] with the draws of [script] from the [first]-th
    draw on. *)
Definition drawing (script : list Unit01) (first : nat) (env : Env) : Env :=
  mkEnv (net env) (fun n => nth (n - first) script halfJitter) (cancelRequested env).

(** The time the sleeps of a list of events take in total. *)
Definition totalSleep (evs : list Event) : Z :=
  fold_right (fun ev acc => match ev with EvSleep ms => ms + acc | EvFetch _ => acc end) 0 evs.

(** From [io] to [io']: at most [maxFetches] more fetches were made, the
    trace grew, and what was added sleeps for [slept] ms in total. *)
Definition spends (io io' : Io) (maxFetches : nat) (slept : Z) : Prop :=
  (fetches io <= fetches io' <= fetches io + maxFetches)%nat /\
  exists evs, trace io' = trace io ++ evs /\ totalSleep evs = slept.

(** The longest the six backoffs of one call can take together when no
    response names a delay: every exponential step, capped, with the
    largest jitter. *)
Definition LONGEST_BACKOFF : Z :=
  1000 + 2000 + 4000 + 8000 + 16000 + 16000 + 6 * (JITTER_MS - 1).

(** The longest the last [n] backoffs of such a call can take. *)
Fixpoint backoffBudget (n : nat) : Z :=
  match n with
  | O => 0
  | S n' =>
      Z.min (1000 * 2 ^ (MAX_RETRIES - Z.of_nat n)) 16000 + (JITTER_MS - 1) + backoffBudget n'
  end.

(** *** Pages of the list service *)

(** The request [getAniListAnime] sends for a page. *)
Definition pageRequest (userId page : Z) : Request :=
  mkRequest ANILIST_GQL (Some (VarsPage userId page 50)).

(** The events of reading [n] pages from [page] on: one fetch per page,
    and 400 ms between two pages. *)
Fixpoint pagingEvents (userId page : Z) (n : nat) : list Event :=
  match n with
  | O => []
  | S O => [EvFetch (pageRequest userId page)]
  | S n' => EvFetch (pageRequest userId page) :: EvSleep 400 :: pagingEvents userId (page + 1) n'
  end.

(** The response is a success whose body is a page holding [ms]. *)
Definition servesPage (r : Response) (ms : list Media) (hasNextPage : bool) : Prop :=
  ok r = true /\ json r = inl (JPage ms hasNextPage).

(** *** Themes *)

(** The theme counts as an opening: its type, upper-cased, is "OP". *)
Definition isOpening (t : Theme) : Prop :=
  Trainer.toUpperCase (orDefault (type t) "") = "OP".

(** The url the first video of an entry offers: its link, else its audio,
    else nothing. *)
Definition entryUrl (e : ThemeEntry) : string :=
  match orDefault (videos e) [] with
  | [] => ""
  | v :: _ => strOr (link v) (strOr (audio v) "")
  end.

(** *** The import run *)

(** The cache a turn of the loop leaves: the one it found, or the one the
    closure saw with one entry more. *)
Definition cacheStep (cl : Trainer.Closure) (before after : gmap string (list Trainer.Opening))
    : Prop :=
  after = before \/
  exists k results,
    Trainer.seen_cache cl !! k = None /\ after = <[k := results]> (Trainer.seen_cache cl).

(** The state is in step: the id set holds the ids of the cards, and no
    two cards share an id. *)
Definition inStep (w : Trainer.World) : Prop :=
  Trainer.idsRef w = idSet (Trainer.cards w) /\ NoDup (map Trainer.id (Trainer.cards w)).

(** By how much the count of added openings and the number of cards grew
    from [w] to [w']. *)
Definition newOps (w w' : Trainer.World) : Z :=
  Trainer.totalOps (Trainer.progress w') - Trainer.totalOps (Trainer.progress w).

Definition newCardCount (w w' : Trainer.World) : Z :=
  Z.of_nat (length (Trainer.cards w')) - Z.of_nat (length (Trainer.cards w)).

(** *** Schedules and decks *)

(** A schedule object whose next interval is at least ten minutes: a card
    never graded, a card in its first two steps, or one whose interval is
    ten minutes or more. *)
Definition settled (card : option Srs) : Prop :=
  match card with
  | None => True
  | Some s =>
      orDefault (reps s) 0 = 0 \/ orDefault (reps s) 0 = 1 \/
      Trainer.TEN_MINUTES <= orDefault (interval s) 0
  end.

(** The ease factor [sm2Schedule] reads from the card is within its
    bounds. *)
Definition easeWithin (card : option Srs) : Prop :=
  (13 # 10 <= orDefault (ef (orDefault card emptySrs)) (5 # 2) <= 28 # 10)%Q.

(** [c.srs.due || 0] of a deck card. *)
Definition dueTime (c : Trainer.DeckCard) : Z := orDefault (due (Trainer.card_srs c)) 0.

(** *** Cards of the episode import *)

(** The blob [saveCards] leaves when [setItem] throws: gone when it was
    over the size limit, else as it was. *)
Definition purged (storage : App.LocalStorage) (blob : list App.Card) : list App.Card :=
  if decide (App.blobBytes storage blob > App.MAX_STORAGE_SIZE_MB * (1024 * 1024)) then []
  else blob.

(** A card as the episode import builds it: an opening number between 1
    and [MAX_CARDS_PER_SERIES], the song title "Opening n", no artist, a
    schedule that holds nothing but a due time one day ahead, and the
    opening number 1 when it has no video. *)
Definition builtCard (now : Z) (c : App.Card) : Prop :=
  1 <= App.opNumber c <= Z.of_nat App.MAX_CARDS_PER_SERIES /\
  App.songTitle c = "Opening " +:+ pretty (App.opNumber c) /\
  App.artists c = [] /\
  App.srs c = Some (mkSrs None None None None None (Some (now + App.ONE_DAY))) /\
  (App.videoUrl c = None -> App.opNumber c = 1).

(** ** More sample environments and states *)

(** The first [k] fetches are answered by [r]; after that the connection
    is gone and [fetch] rejects. *)
Definition offlineAfter (k : nat) (r : Response) : Env :=
  mkEnv (fun n _ => if (n <? k)%nat then Responded r else Rejected "Failed to fetch")
        (fun _ => halfJitter) (fun _ => false).

Definition media8 : Media :=
  mkMedia 8 (Some (mkTitle (Some "Attack on Titan") None None)) None None None.

(** A list service with two pages, the show 3 on the first and the show 7
    on the second. *)
Definition twoPages : Env :=
  mkEnv (fun _ req =>
           match body req with
           | Some (VarsPage _ page _) =>
               if decide (page = 1) then Responded (r200 (JPage [media3] true))
               else Responded (r200 (JPage [media7] false))
           | _ => Responded r404
           end)
        (fun _ => halfJitter) (fun _ => false).

(** A list service every page of which announces a next page. *)
Definition endlessPages : Env :=
  mkEnv (fun _ _ => Responded (r200 (JPage [media7] true))) (fun _ => halfJitter)
        (fun _ => false).

(** The steady remote with the shows 7 and 8 on the one page of the user;
    the theme index knows both. *)
Definition twoShowsEnv : Env :=
  mkEnv (fun _ req =>
           match body req with
           | Some (VarsPage _ _ _) => Responded (r200 (JPage [media7; media8] false))
           | _ => steadyF req
           end)
        (fun _ => halfJitter) (fun _ => false).

(** A show with two streaming episodes. *)
Definition mediaWithEpisodes : Media :=
  mkMedia 9 (Some (mkTitle (Some "Mushishi") None None)) None None
    (Some [mkEpisode (Some "Episode 1") (Some "https://www.crunchyroll.com/mushishi/1");
           mkEpisode (Some "Episode 2") (Some "https://www.crunchyroll.com/mushishi/2")]).

(** A schedule after two good reviews, with an interval of two days. *)
Definition twoDaySrs : Srs :=
  mkSrs (Some (5 # 2)%Q) (Some (2 * 24 * 60 * 60 * 1000)) (Some 2) None None (Some 0).

Definition sampleDeckCard : Trainer.DeckCard := Trainer.mkDeckCard sampleCard Trainer.NEW_SRS.

Definition sampleStudy : Trainer.Study := Trainer.mkStudy ∅ true.

(** A card of the episode import, and the handlers and state of a review
    session that shows it. *)
Definition sampleAppCard : App.Card :=
  App.mkCard "7::OP1::1" (Some "Shingeki no Kyojin") 1 None [] "Opening 1" None.

Definition sampleSeen (hideVideo : bool) : App.Seen :=
  App.mkSeen ∅ (Some sampleAppCard) None (App.deck 0 [sampleAppCard] ∅ "") 48 false hideVideo.

Definition sampleAppStudy : App.Study :=
  App.mkStudy Io0 ∅ None "" true (Some sampleAppCard) [].

(** * Properties of the schedulers *)

Section Scheduler.

Lemma App_sm2Schedule_attempts now card quality easyDelayHours diffAgain :
  attempts (App.sm2Schedule now card quality easyDelayHours diffAgain)
  = Some (attemptCount (card ≫= App.srs) + 1).
Proof.
  unfold App.sm2Schedule, attemptCount.
  destruct card as [c|]; simpl; [destruct (App.srs c); simpl|];
    repeat case_decide; reflexivity.
Qed.

Lemma App_sm2Schedule_successes now card quality easyDelayHours diffAgain :
  successes (App.sm2Schedule now card quality easyDelayHours diffAgain)
  = Some (successCount (card ≫= App.srs) + (if decide (quality > 0) then 1 else 0)).
Proof.
  unfold App.sm2Schedule, successCount.
  destruct card as [c|]; simpl; [destruct (App.srs c); simpl|];
    destruct (decide (quality > 0)); repeat case_decide; simpl;
    first [reflexivity | f_equal; lia].
Qed.

Lemma App_sm2Schedule_reps now card quality easyDelayHours diffAgain :
  reps (App.sm2Schedule now card quality easyDelayHours diffAgain)
  = Some (repetitionCount (card ≫= App.srs) + 1).
Proof.
  unfold App.sm2Schedule, repetitionCount.
  destruct card as [c|]; simpl; [destruct (App.srs c); simpl|];
    repeat case_decide; reflexivity.
Qed.

Lemma nonFailing_cons e history :
  nonFailing (e :: history) = (if decide (e.2 > 0) then 1 else 0) + nonFailing history.
Proof.
  unfold nonFailing. rewrite filter_cons.
  destruct (decide (e.2 > 0)); simpl length; lia.
Qed.

Lemma nonFailing_bounds history :
  0 <= nonFailing history <= Z.of_nat (length history).
Proof.
  unfold nonFailing. split; [lia|].
  apply inj_le, length_filter.
Qed.

Lemma App_gradeAll_counters easyDelayHours diffAgain history : forall c,
  attemptCount (App.srs (App.gradeAll easyDelayHours diffAgain c history))
  = attemptCount (App.srs c) + Z.of_nat (length history) /\
  successCount (App.srs (App.gradeAll easyDelayHours diffAgain c history))
  = successCount (App.srs c) + nonFailing history.
Proof.
  induction history as [|e history IH]; intros c.
  - unfold nonFailing. simpl. split; lia.
  - unfold App.gradeAll in *. simpl fold_left.
    destruct (IH (App.withSrs c
      (Some (App.sm2Schedule e.1 (Some c) e.2 easyDelayHours diffAgain)))) as [Ha Hs].
    rewrite Ha, Hs, nonFailing_cons. clear IH Ha Hs.
    unfold attemptCount at 1, successCount at 1. simpl.
    rewrite App_sm2Schedule_attempts, App_sm2Schedule_successes. simpl.
    split; [|lia]. rewrite Nat2Z.inj_succ. lia.
Qed.

End Scheduler.

Section SchedulerClaims.

Lemma Trainer_sm2Schedule_reps now card quality :
  quality <> Trainer.Again ->
  reps (Trainer.sm2Schedule now card quality) = Some (repetitionCount card + 1).
Proof.
  intros Hq. unfold Trainer.sm2Schedule, repetitionCount.
  destruct quality; try congruence; destruct card as [s|]; reflexivity.
Qed.

Lemma Trainer_gradeAll_reps history : forall card,
  Forall (fun e : Z * Trainer.Quality => e.2 <> Trainer.Again) history ->
  repetitionCount (Trainer.gradeAll card history)
  = repetitionCount card + Z.of_nat (length history).
Proof.
  induction history as [|e history IH]; intros card Hall.
  - simpl. lia.
  - inversion Hall as [|? ? He Hrest]; subst.
    unfold Trainer.gradeAll in *. simpl fold_left.
    rewrite (IH _ Hrest). unfold repetitionCount at 1. simpl.
    rewrite (Trainer_sm2Schedule_reps _ _ _ He). simpl.
    rewrite Nat2Z.inj_succ. lia.
Qed.

(** C7 (as amended).  Under the three-grade policy every call adds exactly
    one to the attempt counter and adds one to the success counter exactly
    when the grade is above Again; along any review history the counters
    grow by the length of the history and by the number of non-failing
    grades, and from the empty schedule object the attempt count is the
    length of the history with 0 <= successes <= attempts.  The four-grade
    policy returns objects that carry no attempt or success counter. *)
Theorem three_grade_counters :
  (forall now card quality easyDelayHours diffAgain,
     attempts (App.sm2Schedule now card quality easyDelayHours diffAgain)
     = Some (attemptCount (card ≫= App.srs) + 1) /\
     successes (App.sm2Schedule now card quality easyDelayHours diffAgain)
     = Some (successCount (card ≫= App.srs) + (if decide (quality > 0) then 1 else 0))) /\
  (forall easyDelayHours diffAgain c history,
     attemptCount (App.srs (App.gradeAll easyDelayHours diffAgain c history))
     = attemptCount (App.srs c) + Z.of_nat (length history) /\
     successCount (App.srs (App.gradeAll easyDelayHours diffAgain c history))
     = successCount (App.srs c) + nonFailing history) /\
  (forall easyDelayHours diffAgain c history,
     let c' := App.gradeAll easyDelayHours diffAgain (App.withSrs c (Some emptySrs)) history in
     attemptCount (App.srs c') = Z.of_nat (length history) /\
     0 <= successCount (App.srs c') <= attemptCount (App.srs c')) /\
  (forall now card quality,
     attempts (Trainer.sm2Schedule now card quality) = None /\
     successes (Trainer.sm2Schedule now card quality) = None).
Proof.
  split; [|split; [|split]].
  - intros. split.
    + apply App_sm2Schedule_attempts.
    + apply App_sm2Schedule_successes.
  - intros. apply App_gradeAll_counters.
  - intros edh da c history c'.
    destruct (App_gradeAll_counters edh da history (App.withSrs c (Some emptySrs)))
      as [Ha Hs].
    subst c'. rewrite Ha, Hs. unfold attemptCount, successCount. simpl.
    pose proof (nonFailing_bounds history). lia.
  - intros now card quality. destruct quality; split; reflexivity.
Qed.

(** C7 as stated fails for the four-grade policy: after one review from
    the state of a card never graded, the schedule object has no attempt
    count, where the claim asks for the length of the history, 1. *)
Lemma four_grade_keeps_no_attempt_count :
  Trainer.gradeAll None [(0, Trainer.Good)] ≫= attempts
  <> Some (Z.of_nat (length [(0, Trainer.Good)])).
Proof. vm_compute. discriminate. Qed.

(** C8 (as amended).  Under the four-grade policy Again gives repetition
    count 0 and a due time exactly ten minutes after the call, and each
    grade other than Again adds one to the repetition count, so a run of
    such grades adds its length.  Under the three-grade policy Again is due
    ten minutes after the call when [diffAgain] is set and at the call time
    otherwise, and Hard and Easy each add one to the repetition count. *)
Theorem again_and_repetitions :
  forall now card (history : list (Z * Trainer.Quality)) c easyDelayHours diffAgain,
    Forall (fun e => e.2 <> Trainer.Again) history ->
    (reps (Trainer.sm2Schedule now card Trainer.Again) = Some 0 /\
     interval (Trainer.sm2Schedule now card Trainer.Again) = Some (10 * 60 * 1000) /\
     due (Trainer.sm2Schedule now card Trainer.Again) = Some (now + 10 * 60 * 1000)) /\
    repetitionCount (Trainer.gradeAll card history)
    = repetitionCount card + Z.of_nat (length history) /\
    (due (App.sm2Schedule now c 0 easyDelayHours diffAgain)
     = Some (now + (if diffAgain then 10 * 60 * 1000 else 0)) /\
     now <= orDefault (due (App.sm2Schedule now c 0 easyDelayHours diffAgain)) 0
         <= now + 10 * 60 * 1000) /\
    reps (App.sm2Schedule now c 1 easyDelayHours diffAgain)
    = Some (repetitionCount (c ≫= App.srs) + 1) /\
    reps (App.sm2Schedule now c 2 easyDelayHours diffAgain)
    = Some (repetitionCount (c ≫= App.srs) + 1).
Proof.
  intros now card history c edh da Hall.
  split; [|split; [|split; [|split]]].
  - destruct card; repeat split; reflexivity.
  - apply Trainer_gradeAll_reps, Hall.
  - unfold App.sm2Schedule. simpl. destruct da; simpl; split; try reflexivity;
      unfold App.TEN_MINUTES; lia.
  - apply App_sm2Schedule_reps.
  - apply App_sm2Schedule_reps.
Qed.

Lemma again_and_repetitions_witness :
  Forall (fun e : Z * Trainer.Quality => e.2 <> Trainer.Again)
    [(0, Trainer.Good); (5, Trainer.Easy)] /\
  repetitionCount (Trainer.gradeAll None [(0, Trainer.Good); (5, Trainer.Easy)]) = 2.
Proof.
  assert (H : Forall (fun e : Z * Trainer.Quality => e.2 <> Trainer.Again)
                [(0, Trainer.Good); (5, Trainer.Easy)]).
  { repeat constructor; simpl; discriminate. }
  split; [exact H|].
  exact (proj1 (proj2 (again_and_repetitions 0 None _ None 48 true H))).
Defined.

(** C8 as stated fails for the three-grade policy: grading Again on a card
    with three repetitions gives repetition count 4, not 0. *)
Lemma three_grade_again_keeps_counting :
  reps (App.sm2Schedule 1000
          (Some (App.mkCard "7::OP1::1" None 1 None [] "Opening 1"
                   (Some (mkSrs None (Some 0) (Some 3) (Some 3) (Some 3) (Some 1000)))))
          0 48 true)
  <> Some 0.
Proof. vm_compute. discriminate. Qed.

End SchedulerClaims.


(** * Properties of the HTTP client *)

Section ClientFacts.
Variable env : Env.

Lemma jitter_range (x : Unit01) :
  0 <= Math_floor (u_val x * inject_Z JITTER_MS) < JITTER_MS.
Proof.
  destruct x as [v Hv]. cbn [u_val].
  apply andb_true_iff in Hv as [H0 H1].
  apply Qle_bool_iff in H0.
  apply negb_true_iff in H1.
  assert (Hlt : (v < 1)%Q).
  { apply Qnot_le_lt. intros Hle. apply Qle_bool_iff in Hle. congruence. }
  unfold Math_floor, JITTER_MS. split.
  - rewrite <- (Qfloor_Z 0). apply Qfloor_resp_le.
    apply Qmult_le_0_compat; [exact H0|]. discriminate.
  - assert (Hq : (v * inject_Z 120 < inject_Z 120)%Q).
    { rewrite <- (Qmult_1_l (inject_Z 120)) at 2.
      apply Qmult_lt_compat_r; [reflexivity|exact Hlt]. }
    pose proof (Qfloor_le (v * inject_Z 120)) as Hf.
    rewrite Zlt_Qlt.
    eapply Qle_lt_trans; eauto.
Qed.


Lemma transient_not_ok r : transient r = true -> ok r = false.
Proof.
  unfold transient, ok. intros H.
  apply andb_false_iff.
  apply orb_true_iff in H as [H|H].
  - apply Z.eqb_eq in H. rewrite H. right. reflexivity.
  - apply andb_true_iff in H as [H _]. apply Z.leb_le in H.
    right. apply Z.leb_gt. lia.
Qed.

Lemma loop_rejected fuel req attempt io e :
  net env (fetches io) req = Rejected e ->
  fetchJSON_loop env (S fuel) req attempt io = (Throw e, afterFetch req io).
Proof.
  intros Hnet. simpl. unfold bind, fetch. rewrite Hnet. reflexivity.
Qed.

Lemma loop_stop fuel req attempt io r :
  net env (fetches io) req = Responded r ->
  transient r = false \/ MAX_RETRIES <= attempt ->
  fetchJSON_loop env (S fuel) req attempt io = (settle r, afterFetch req io).
Proof.
  intros Hnet Hstop. simpl. unfold bind at 1, fetch. rewrite Hnet.
  unfold settle. destruct (ok r) eqn:Hok.
  - unfold r_json. destruct (json r); reflexivity.
  - fold (transient r). destruct (transient r) eqn:Ht.
    + destruct Hstop as [?|Hcap]; [discriminate|].
      apply Z.leb_le in Hcap. rewrite Hcap. reflexivity.
    + reflexivity.
Qed.

Lemma loop_retry req attempt io r :
  net env (fetches io) req = Responded r ->
  transient r = true -> 0 <= attempt < MAX_RETRIES ->
  exists ms d,
    backoffOk attempt r ms /\ 1000 <= ms /\
    forall fuel,
      fetchJSON_loop env (S fuel) req attempt io
      = fetchJSON_loop env fuel req (attempt + 1)
          (mkIo (S (fetches io)) d (trace io ++ [EvFetch req; EvSleep ms])).
Proof.
  intros Hnet Ht Ha.
  assert (Hexp : 1000 <= Z.min (1000 * 2 ^ attempt) 16000).
  { assert (1 <= 2 ^ attempt) by (apply Z.lt_pred_le, Z.pow_pos_nonneg; lia). lia. }
  assert (Hstep : forall fuel,
    fetchJSON_loop env (S fuel) req attempt io
    = bind (bind
        match Number_header (retryAfterHeader r) with
        | Num v =>
            if v =? 0 then
              bind (Math_random env) (fun x =>
                ret (Z.min (1000 * 2 ^ attempt) 16000 + Math_floor (x * inject_Z JITTER_MS)))
            else ret (Z.max 1000 (v * 1000))
        | NaN =>
            bind (Math_random env) (fun x =>
              ret (Z.min (1000 * 2 ^ attempt) 16000 + Math_floor (x * inject_Z JITTER_MS)))
        end
        (fun backoff => bind (sleep backoff) (fun _ => ret tt)))
        (fun _ => fetchJSON_loop env fuel req (attempt + 1)) (afterFetch req io)).
  { intros fuel. simpl. unfold bind at 1, fetch. rewrite Hnet.
    rewrite (transient_not_ok _ Ht). fold (transient r). rewrite Ht.
    replace (MAX_RETRIES <=? attempt) with false by (symmetry; apply Z.leb_gt; lia).
    unfold afterFetch.
    destruct (Number_header (retryAfterHeader r)) as [|v]; [|destruct (v =? 0)];
      unfold bind, Math_random, sleep, ret; reflexivity. }
  unfold backoffOk.
  pose proof (jitter_range (random env (draws io))) as Hj.
  destruct (retryAfterHeader r) as [[[|p]|date]|]; simpl Number_header in Hstep;
    [ exists (Z.min (1000 * 2 ^ attempt) 16000
              + Math_floor (u_val (random env (draws io)) * inject_Z JITTER_MS)), (S (draws io))
    | exists (Z.max 1000 (Z.pos p * 1000)), (draws io)
    | exists (Z.min (1000 * 2 ^ attempt) 16000
              + Math_floor (u_val (random env (draws io)) * inject_Z JITTER_MS)), (S (draws io))
    | exists (Z.min (1000 * 2 ^ attempt) 16000
              + Math_floor (u_val (random env (draws io)) * inject_Z JITTER_MS)), (S (draws io)) ];
    (split; [eauto|]); (split; [lia|]);
    intros fuel; rewrite Hstep; unfold bind, Math_random, sleep, ret, afterFetch; simpl;
    rewrite <- app_assoc; reflexivity.
Qed.

Lemma settle_not_Diverge r : settle r <> Diverge.
Proof. unfold settle. destruct (ok r); [destruct (json r)|]; discriminate. Qed.

Lemma loop_policy req rs : forall fuel attempt io last,
  0 <= attempt -> attempt + Z.of_nat (length rs) <= MAX_RETRIES ->
  (length rs < fuel)%nat ->
  (forall i r, rs !! i = Some r -> net env (fetches io + i) req = Responded r) ->
  net env (fetches io + length rs) req = Responded last ->
  Forall (fun r => transient r = true) rs ->
  attempt + Z.of_nat (length rs) = MAX_RETRIES \/ transient last = false ->
  exists waits io',
    fetchJSON_loop env fuel req attempt io = (settle last, io') /\
    backoffsOk attempt rs waits /\
    trace io' = trace io ++ retryEvents req waits /\
    fetches io' = (fetches io + S (length rs))%nat.
Proof.
  induction rs as [|r rs IH]; intros fuel attempt io last Ha Hcap Hfuel Hrs Hlast Hall Hend.
  - destruct fuel as [|fuel]; [simpl in Hfuel; lia|].
    simpl in Hlast. rewrite Nat.add_0_r in Hlast.
    exists [], (afterFetch req io). split; [|split; [exact I|split]].
    + apply loop_stop; [exact Hlast|]. simpl in Hend. destruct Hend; [right; lia|left; done].
    + reflexivity.
    + simpl. lia.
  - destruct fuel as [|fuel]; [simpl in Hfuel; lia|].
    inversion Hall as [|? ? Hr Hall']; subst.
    simpl length in *.
    assert (Hnet : net env (fetches io) req = Responded r).
    { specialize (Hrs 0%nat r eq_refl). rewrite Nat.add_0_r in Hrs. exact Hrs. }
    destruct (loop_retry req attempt io r Hnet Hr) as (ms & d & Hok & Hms & Hstep); [lia|].
    assert (Hrs' : forall i r',
      rs !! i = Some r' ->
      net env (fetches (mkIo (S (fetches io)) d (trace io ++ [EvFetch req; EvSleep ms])) + i) req
      = Responded r').
    { intros i r' Hi. simpl. specialize (Hrs (S i) r' Hi).
      rewrite <- Nat.add_succ_comm in Hrs. exact Hrs. }
    assert (Hlast' :
      net env (fetches (mkIo (S (fetches io)) d (trace io ++ [EvFetch req; EvSleep ms]))
               + length rs) req = Responded last).
    { simpl. rewrite <- Nat.add_succ_comm in Hlast. exact Hlast. }
    destruct (IH fuel (attempt + 1) _ last ltac:(lia) ltac:(lia) ltac:(lia) Hrs' Hlast' Hall'
                ltac:(destruct Hend; [left; lia|right; assumption]))
      as (waits & io' & Hrun & Hwaits & Htrace & Hfetches).
    exists (ms :: waits), io'. split; [|split; [|split]].
    + rewrite Hstep. exact Hrun.
    + simpl. split; assumption.
    + rewrite Htrace. simpl. unfold retryEvents. simpl. rewrite <- app_assoc. reflexivity.
    + rewrite Hfetches. simpl. lia.
Qed.

Lemma loop_terminates req (n : nat) : forall attempt io,
  0 <= attempt -> attempt = MAX_RETRIES - Z.of_nat n ->
  exists r io' evs,
    (forall fuel, (n < fuel)%nat -> fetchJSON_loop env fuel req attempt io = (r, io')) /\
    r <> Diverge /\
    trace io' = trace io ++ evs /\
    retryTrace req evs /\
    (length evs <= 2 * n + 1)%nat /\
    (fetches io < fetches io' <= fetches io + S n)%nat.
Proof.
  induction n as [|n IH]; intros attempt io Ha Hn.
  - destruct (net env (fetches io) req) as [e|r] eqn:Hnet.
    + exists (Throw e), (afterFetch req io), [EvFetch req].
      split; [|repeat split; simpl; try lia; try discriminate; constructor].
      intros [|fuel] Hfuel; [lia|]. apply loop_rejected, Hnet.
    + exists (settle r), (afterFetch req io), [EvFetch req].
      split; [|repeat split; simpl; try lia; try apply settle_not_Diverge; constructor].
      intros [|fuel] Hfuel; [lia|]. apply loop_stop; [exact Hnet|right; lia].
  - destruct (net env (fetches io) req) as [e|r] eqn:Hnet.
    + exists (Throw e), (afterFetch req io), [EvFetch req].
      split; [|repeat split; simpl; try lia; try discriminate; constructor].
      intros [|fuel] Hfuel; [lia|]. apply loop_rejected, Hnet.
    + destruct (transient r) eqn:Ht.
      * destruct (loop_retry req attempt io r Hnet Ht) as (ms & d & Hok & Hms & Hstep); [lia|].
        destruct (IH (attempt + 1)
                    (mkIo (S (fetches io)) d (trace io ++ [EvFetch req; EvSleep ms])))
          as (res & io' & evs & Hrun & Hres & Htrace & Hshape & Hlen & Hfetches); try lia.
        exists res, io', (EvFetch req :: EvSleep ms :: evs).
        split; [|split; [exact Hres|split; [|split; [|split]]]].
        -- intros [|fuel] Hfuel; [lia|]. rewrite Hstep. apply Hrun. lia.
        -- rewrite Htrace. simpl. rewrite <- app_assoc. reflexivity.
        -- constructor; assumption.
        -- simpl. lia.
        -- simpl in Hfetches. lia.
      * exists (settle r), (afterFetch req io), [EvFetch req].
        split; [|repeat split; simpl; try lia; try apply settle_not_Diverge; constructor].
        intros [|fuel] Hfuel; [lia|]. apply loop_stop; [exact Hnet|left; exact Ht].
Qed.



(** C5 (as amended).  A call whose first responses [rs] all carry a
    status 429 or 5xx, at most [MAX_RETRIES] of them, and which then meets
    [last], either after [MAX_RETRIES] retries or with any other status,
    fetches once per response and sleeps once between two fetches; the wait
    after each retried response is max(1000, seconds * 1000) when its
    Retry-After header holds a number of seconds other than zero, and
    min(1000 * 2^attempt, 16000) plus a jitter in [0, 120) when the header
    is missing, zero or a date; the call ends with what [last] settles to:
    its parsed body on success, an error with its status and body text
    otherwise. *)
Theorem fetchJSON_retry_policy req io rs last :
  (length rs <= Z.to_nat MAX_RETRIES)%nat ->
  (forall i r, rs !! i = Some r -> net env (fetches io + i) req = Responded r) ->
  net env (fetches io + length rs) req = Responded last ->
  Forall (fun r => transient r = true) rs ->
  length rs = Z.to_nat MAX_RETRIES \/ transient last = false ->
  exists waits io',
    fetchJSON env req io = (settle last, io') /\
    backoffsOk 0 rs waits /\
    trace io' = trace io ++ retryEvents req waits /\
    fetches io' = (fetches io + S (length rs))%nat.
Proof.
  intros Hlen Hrs Hlast Hall Hend.
  unfold fetchJSON. apply loop_policy; try assumption.
  - lia.
  - unfold MAX_RETRIES in *. simpl in Hlen. lia.
  - lia.
  - unfold MAX_RETRIES in *. simpl in Hend. destruct Hend; [left; lia|right; assumption].
Qed.

(** C6.  Whatever the answers are, the loop of [fetchJSON] leaves within
    [MAX_RETRIES + 1] turns: with any larger allowance it gives the result
    of [fetchJSON], which is a returned body or a thrown error; it makes at
    most [MAX_RETRIES + 1] fetches, and between any two fetches it sleeps
    for at least a second. *)
Theorem fetchJSON_terminates req io fuel :
  (Z.to_nat MAX_RETRIES < fuel)%nat ->
  exists r io' evs,
    fetchJSON_loop env fuel req 0 io = (r, io') /\
    fetchJSON env req io = (r, io') /\
    r <> Diverge /\
    trace io' = trace io ++ evs /\
    retryTrace req evs /\
    (length evs <= 2 * Z.to_nat MAX_RETRIES + 1)%nat /\
    (fetches io < fetches io' <= fetches io + S (Z.to_nat MAX_RETRIES))%nat.
Proof.
  intros Hfuel.
  destruct (loop_terminates req (Z.to_nat MAX_RETRIES) 0 io)
    as (r & io' & evs & Hrun & Hr & Htrace & Hshape & Hlen & Hfetches);
    [lia|reflexivity|].
  exists r, io', evs. repeat split; try assumption; try lia.
  - apply Hrun, Hfuel.
  - unfold fetchJSON. apply Hrun. lia.
Qed.

Lemma fetchJSON_returns_or_throws req io :
  (fetchJSON env req io).1 <> Diverge.
Proof.
  destruct (loop_terminates req (Z.to_nat MAX_RETRIES) 0 io)
    as (r & io' & evs & Hrun & Hr & _); [lia|reflexivity|].
  unfold fetchJSON. rewrite Hrun by lia. exact Hr.
Qed.

End ClientFacts.

Lemma fetchJSON_retry_policy_witness :
  exists waits io',
    fetchJSON (scripted [r429; r503_after3] (r200 (JUser (Some 5)))) sampleRequest Io0
    = (Ok (JUser (Some 5)), io') /\
    backoffsOk 0 [r429; r503_after3] waits /\
    trace io' = retryEvents sampleRequest waits /\
    fetches io' = 3%nat.
Proof.
  apply (fetchJSON_retry_policy (scripted [r429; r503_after3] (r200 (JUser (Some 5))))
           sampleRequest Io0 [r429; r503_after3] (r200 (JUser (Some 5)))).
  - vm_compute. lia.
  - intros [|[|i]] r Hr; simpl in Hr; inversion Hr; reflexivity.
  - reflexivity.
  - repeat constructor.
  - right. reflexivity.
Defined.

(** C5 as stated fails when the Retry-After header is present and holds
    zero seconds: the claim asks for waits of max(1000, 0 * 1000) = 1000 ms,
    the client waits 1000 * 2^attempt plus the jitter. *)
Lemma retry_after_zero_backs_off :
  retryAfterHeader r429_zero = Some (DelaySeconds 0) /\
  trace (fetchJSON (scripted [r429_zero; r429_zero] (r200 JOther)) sampleRequest Io0).2
  = [EvFetch sampleRequest; EvSleep 1060; EvFetch sampleRequest; EvSleep 2060;
     EvFetch sampleRequest] /\
  1060 <> Z.max 1000 (Z.of_N 0 * 1000) /\
  2060 <> Z.max 1000 (Z.of_N 0 * 1000).
Proof. vm_compute. repeat split; discriminate. Qed.

Lemma fetchJSON_terminates_witness :
  exists r io' evs,
    fetchJSON_loop (scripted [] r500) 100 sampleRequest 0 Io0 = (r, io') /\
    fetchJSON (scripted [] r500) sampleRequest Io0 = (r, io') /\
    r <> Diverge /\
    trace io' = trace Io0 ++ evs /\
    retryTrace sampleRequest evs /\
    (length evs <= 2 * Z.to_nat MAX_RETRIES + 1)%nat /\
    (fetches Io0 < fetches io' <= fetches Io0 + S (Z.to_nat MAX_RETRIES))%nat.
Proof.
  apply (fetchJSON_terminates (scripted [] r500) sampleRequest Io0 100).
  vm_compute. lia.
Defined.

(** * Properties of the theme resolver *)

Section ResolverFacts.
Variable env : Env.

Lemma getOpenings_hit cache anilistId tR tE tN cached w :
  cache !! pretty anilistId = Some cached ->
  Trainer.getOpeningsForAniListId env cache anilistId tR tE tN w = (Ok cached, w).
Proof. intros H. unfold Trainer.getOpeningsForAniListId. rewrite H. reflexivity. Qed.

Lemma getOpenings_refines cache anilistId tR tE tN w :
  Trainer.getOpeningsForAniListId env cache anilistId tR tE tN w
  = resolve env cache anilistId [tR; tE; tN] w.
Proof.
  unfold Trainer.getOpeningsForAniListId, resolve.
  destruct (cache !! pretty anilistId) as [cached|]; [reflexivity|].
  rewrite !filter_cons, filter_nil.
  destruct (decide (tR = "")) as [HR|HR], (decide (tE = "")) as [HE|HE],
    (decide (tN = "")) as [HN|HN];
    rewrite ?(bool_decide_eq_true_2 _ HE), ?(bool_decide_eq_true_2 _ HN),
            ?(bool_decide_eq_false_2 _ HE), ?(bool_decide_eq_false_2 _ HN);
    repeat case_decide; try contradiction;
    simpl; unfold bind, ret, modify; simpl;
    repeat match goal with
    | |- context [Trainer.fetchByUrl env ?u ?w] =>
        destruct (Trainer.fetchByUrl env u w) as [[[|? ?]| |] ?]; simpl
    end; reflexivity.
Qed.

Lemma inIo_run {A} (m : M Io A) w :
  Trainer.inIo m w = ((m (Trainer.io w)).1, Trainer.setIo (m (Trainer.io w)).2 w).
Proof. unfold Trainer.inIo, liftIo. destruct (m (Trainer.io w)). reflexivity. Qed.

Lemma fetchByUrl_run url w :
  exists r io',
    Trainer.fetchByUrl env url w = (r, Trainer.setIo io' w) /\ r <> Diverge.
Proof.
  unfold Trainer.fetchByUrl, bind. rewrite inIo_run.
  pose proof (fetchJSON_returns_or_throws env (mkRequest url None) (Trainer.io w)) as Hd.
  destruct (fetchJSON env (mkRequest url None) (Trainer.io w)) as [[j|e|] io']; simpl in *.
  - exists (Ok match match j with JAnime l => l | _ => [] end with
               | [] => []
               | a :: _ => Trainer.openingsOf (orDefault (animethemes a) [])
               end), io'.
    split; [|discriminate].
    destruct j as [| | |[|a l]|]; reflexivity.
  - exists (Throw e), io'. split; [reflexivity|discriminate].
  - contradiction.
Qed.

Lemma firstMatch_run variants : forall w,
  exists r io',
    firstMatch env variants w = (r, Trainer.setIo io' w) /\ r <> Diverge.
Proof.
  induction variants as [|title rest IH]; intros w.
  - exists (Ok []), (Trainer.io w). split; [|discriminate].
    destruct w; reflexivity.
  - simpl. unfold bind.
    destruct (fetchByUrl_run (Trainer.themesUrl title) w) as (r & io1 & Hrun & Hr).
    rewrite Hrun. destruct r as [results|e|]; [|eauto|contradiction].
    destruct results as [|op ops]; simpl.
    + destruct (IH (Trainer.setIo io1 w)) as (r & io2 & Hrun2 & Hr2).
      exists r, io2. rewrite Hrun2. split; [|exact Hr2].
      destruct w; reflexivity.
    + exists (Ok (op :: ops)), io1. split; [reflexivity|discriminate].
Qed.

(** What a call of the resolver leaves of the state: the cells other than
    the cache and the input/output state are untouched; the cache is
    written exactly when the call returns from a miss. *)
Lemma getOpenings_run cache anilistId tR tE tN w :
  exists r io',
    r <> Diverge /\
    Trainer.getOpeningsForAniListId env cache anilistId tR tE tN w
    = (r, match r, cache !! pretty anilistId with
          | Ok results, None =>
              Trainer.setCache (<[pretty anilistId := results]> cache) (Trainer.setIo io' w)
          | _, _ => Trainer.setIo io' w
          end).
Proof.
  rewrite getOpenings_refines. unfold resolve.
  destruct (cache !! pretty anilistId) as [cached|].
  - exists (Ok cached), (Trainer.io w). split; [discriminate|].
    destruct w; reflexivity.
  - unfold bind.
    destruct (firstMatch_run (filter (fun title => title <> "") [tR; tE; tN]) w)
      as (r & io' & Hrun & Hr).
    rewrite Hrun. exists r, io'. split; [exact Hr|].
    destruct r; [reflexivity|reflexivity|contradiction].
Qed.

(** C3.  When the cache the resolver reads has an entry for the catalog id,
    the empty list included, the call returns that entry and leaves the
    whole state as it was: no fetch is made and none is recorded. *)
Theorem cache_hit_makes_no_request cache anilistId tR tE tN cached w :
  cache !! pretty anilistId = Some cached ->
  Trainer.getOpeningsForAniListId env cache anilistId tR tE tN w = (Ok cached, w) /\
  fetches (Trainer.io (Trainer.getOpeningsForAniListId env cache anilistId tR tE tN w).2)
  = fetches (Trainer.io w) /\
  trace (Trainer.io (Trainer.getOpeningsForAniListId env cache anilistId tR tE tN w).2)
  = trace (Trainer.io w).
Proof.
  intros H. rewrite (getOpenings_hit _ _ _ _ _ _ _ H). repeat split; reflexivity.
Qed.

(** C4.  On a cache miss the resolver is the resolver of the specification
    on the variants romaji, english, native: it queries the non-empty
    variants in that order, once each, stops at the first non-empty result
    and gives the empty list when there is none; whenever it returns, the
    cache holds the result under the catalog id.  So a non-empty romaji
    result ends the call; when romaji yields nothing and english yields one
    opening, that opening is returned and cached; and when every variant
    yields nothing the empty list is returned and cached. *)
Theorem cache_miss_resolution cache anilistId tR tE tN w :
  cache !! pretty anilistId = None ->
  Trainer.getOpeningsForAniListId env cache anilistId tR tE tN w
  = resolve env cache anilistId [tR; tE; tN] w /\
  (forall results w',
     Trainer.getOpeningsForAniListId env cache anilistId tR tE tN w = (Ok results, w') ->
     Trainer.cache w' = <[pretty anilistId := results]> cache) /\
  (forall op ops w1,
     tR <> "" ->
     Trainer.fetchByUrl env (Trainer.themesUrl tR) w = (Ok (op :: ops), w1) ->
     Trainer.getOpeningsForAniListId env cache anilistId tR tE tN w
     = (Ok (op :: ops), Trainer.setCache (<[pretty anilistId := op :: ops]> cache) w1)) /\
  (forall op w1 w2,
     tR <> "" -> tE <> "" ->
     Trainer.fetchByUrl env (Trainer.themesUrl tR) w = (Ok [], w1) ->
     Trainer.fetchByUrl env (Trainer.themesUrl tE) w1 = (Ok [op], w2) ->
     Trainer.getOpeningsForAniListId env cache anilistId tR tE tN w
     = (Ok [op], Trainer.setCache (<[pretty anilistId := [op]]> cache) w2)) /\
  (forall w1 w2 w3,
     tR <> "" -> tE <> "" -> tN <> "" ->
     Trainer.fetchByUrl env (Trainer.themesUrl tR) w = (Ok [], w1) ->
     Trainer.fetchByUrl env (Trainer.themesUrl tE) w1 = (Ok [], w2) ->
     Trainer.fetchByUrl env (Trainer.themesUrl tN) w2 = (Ok [], w3) ->
     Trainer.getOpeningsForAniListId env cache anilistId tR tE tN w
     = (Ok [], Trainer.setCache (<[pretty anilistId := []]> cache) w3)).
Proof.
  intros Hmiss. split; [apply getOpenings_refines|].
  split; [|split; [|split]].
  - intros results w' Hrun.
    destruct (getOpenings_run cache anilistId tR tE tN w) as (r & io' & _ & Hrun').
    rewrite Hrun in Hrun'. inversion Hrun'; subst. rewrite Hmiss. reflexivity.
  - intros op ops w1 HR H1. unfold Trainer.getOpeningsForAniListId.
    rewrite Hmiss. destruct (decide (tR = "")); [contradiction|].
    unfold bind. rewrite H1. reflexivity.
  - intros op w1 w2 HR HE H1 H2. unfold Trainer.getOpeningsForAniListId.
    rewrite Hmiss. destruct (decide (tR = "")); [contradiction|].
    unfold bind. rewrite H1. simpl.
    rewrite (bool_decide_eq_false_2 _ HE). simpl. rewrite H2. reflexivity.
  - intros w1 w2 w3 HR HE HN H1 H2 H3. unfold Trainer.getOpeningsForAniListId.
    rewrite Hmiss. destruct (decide (tR = "")); [contradiction|].
    unfold bind. rewrite H1. simpl.
    rewrite (bool_decide_eq_false_2 _ HE). simpl. rewrite H2. simpl.
    rewrite (bool_decide_eq_false_2 _ HN). simpl. rewrite H3. reflexivity.
Qed.

Lemma openingsOf_none themes :
  Forall (fun t => Trainer.toUpperCase (orDefault (type t) "") <> "OP") themes ->
  Trainer.openingsOf themes = [].
Proof.
  induction 1 as [|t themes Ht _ IH]; [reflexivity|]. simpl.
  destruct (decide (Trainer.toUpperCase (orDefault (type t) "") = "OP")); [contradiction|].
  exact IH.
Qed.

(** C10.  When the response to a query holds several anime records, the
    openings returned are those of the first record alone, whatever the
    other records hold; so when no theme of the first record has the type
    OP the result is empty. *)
Theorem fetchByUrl_reads_first_record url w w' a rest :
  Trainer.inIo (fetchJSON env (mkRequest url None)) w = (Ok (JAnime (a :: rest)), w') ->
  Trainer.fetchByUrl env url w
  = (Ok (Trainer.openingsOf (orDefault (animethemes a) [])), w') /\
  (Forall (fun t => Trainer.toUpperCase (orDefault (type t) "") <> "OP")
     (orDefault (animethemes a) []) ->
   Trainer.fetchByUrl env url w = (Ok [], w')).
Proof.
  intros Hfetch.
  assert (Hrun : Trainer.fetchByUrl env url w
                 = (Ok (Trainer.openingsOf (orDefault (animethemes a) [])), w')).
  { unfold Trainer.fetchByUrl, bind. rewrite Hfetch. reflexivity. }
  split; [exact Hrun|].
  intros Hnone. rewrite Hrun, (openingsOf_none _ Hnone). reflexivity.
Qed.

End ResolverFacts.


Lemma cache_hit_makes_no_request_witness :
  Trainer.getOpeningsForAniListId steadyEnv {["7" := []]} 7
    "Shingeki no Kyojin" "Attack on Titan" "" sampleWorld
  = (Ok [], sampleWorld).
Proof.
  exact (proj1 (cache_hit_makes_no_request steadyEnv {["7" := []]} 7
                  "Shingeki no Kyojin" "Attack on Titan" "" [] sampleWorld eq_refl)).
Defined.

Lemma cache_miss_resolution_witness :
  (Trainer.getOpeningsForAniListId steadyEnv ∅ 7
     "Shingeki no Kyojin" "Attack on Titan" "" sampleWorld).1 = Ok [sampleOpening] /\
  Trainer.cache (Trainer.getOpeningsForAniListId steadyEnv ∅ 7
     "Shingeki no Kyojin" "Attack on Titan" "" sampleWorld).2 !! "7" = Some [sampleOpening].
Proof.
  destruct (cache_miss_resolution steadyEnv ∅ 7
              "Shingeki no Kyojin" "Attack on Titan" "" sampleWorld (lookup_empty _))
    as (_ & _ & _ & Hscenario & _).
  erewrite Hscenario.
  - split; reflexivity.
  - discriminate.
  - discriminate.
  - vm_compute. reflexivity.
  - vm_compute. reflexivity.
Defined.

Lemma fetchByUrl_reads_first_record_witness :
  Trainer.fetchByUrl steadyEnv (Trainer.themesUrl "Shingeki no Kyojin") sampleWorld
  = (Ok [],
     Trainer.setIo
       (afterFetch (mkRequest (Trainer.themesUrl "Shingeki no Kyojin") None) Io0)
       sampleWorld).
Proof.
  refine (proj2 (fetchByUrl_reads_first_record steadyEnv
                   (Trainer.themesUrl "Shingeki no Kyojin") sampleWorld _
                   (mkAnime (Some [sampleTheme "ED" (Some 1)]))
                   [mkAnime (Some [sampleTheme "OP" (Some 1)])] _) _).
  - vm_compute. reflexivity.
  - repeat constructor. vm_compute. discriminate.
Defined.

(** * Properties of [dedupeById] *)

Section Dedupe.
Context {V : Type} (key : V -> string).

Lemma map_set_keys (m : list (string * V)) k v :
  (map_set m k v).*1 = if decide (k ∈ m.*1) then m.*1 else m.*1 ++ [k].
Proof.
  induction m as [|[k' v'] m IH].
  - destruct (decide (k ∈ ([] : list (string * V)).*1)) as [Hin|Hin]; [|reflexivity].
    apply elem_of_nil in Hin. contradiction.
  - cbn [map_set]. destruct (decide (k = k')) as [->|Hne].
    + destruct (decide (k' ∈ ((k', v') :: m).*1)) as [Hin|Hin]; [reflexivity|].
      exfalso. apply Hin. apply list_elem_of_here.
    + rewrite fmap_cons, IH. cbn [fst].
      destruct (decide (k ∈ m.*1)) as [Hin|Hin];
        destruct (decide (k ∈ ((k', v') :: m).*1)) as [Hin'|Hin']; try reflexivity.
      * exfalso. apply Hin'. apply list_elem_of_further, Hin.
      * rewrite fmap_cons in Hin'. apply elem_of_cons in Hin' as [?|?]; contradiction.
Qed.

Lemma map_set_fresh (m : list (string * V)) k v :
  k ∉ m.*1 -> map_set m k v = m ++ [(k, v)].
Proof.
  induction m as [|[k' v'] m IH]; intros Hk; simpl; [reflexivity|].
  simpl in Hk. apply not_elem_of_cons in Hk as [Hne Hk].
  destruct (decide (k = k')); [contradiction|]. rewrite IH by exact Hk. reflexivity.
Qed.


Lemma map_set_values (m : list (string * V)) k v x :
  x ∈ (map_set m k v).*2 -> x = v \/ x ∈ m.*2.
Proof.
  induction m as [|[k' v'] m IH]; simpl.
  - intros H. apply list_elem_of_singleton in H. left. exact H.
  - destruct (decide (k = k')); simpl; intros H; apply elem_of_cons in H as [H|H].
    + left. exact H.
    + right. apply list_elem_of_further, H.
    + right. rewrite H. apply list_elem_of_here.
    + destruct (IH H) as [?|?]; [left; assumption|right; apply list_elem_of_further; assumption].
Qed.

Lemma map_set_keyed (m : list (string * V)) k v :
  Forall (fun kv => key kv.2 = kv.1) m -> key v = k ->
  Forall (fun kv => key kv.2 = kv.1) (map_set m k v).
Proof.
  intros Hm Hv. induction Hm as [|[k' v'] m Hkv Hm IH]; simpl.
  - constructor; [exact Hv|constructor].
  - destruct (decide (k = k')); constructor; try assumption. 
Qed.

Lemma setAll_keyed arr : forall m,
  Forall (fun kv => key kv.2 = kv.1) m ->
  Forall (fun kv => key kv.2 = kv.1) (setAll key m arr).
Proof.
  induction arr as [|c arr IH]; intros m Hm; simpl; [exact Hm|].
  apply IH, map_set_keyed; [exact Hm|reflexivity].
Qed.

Lemma keyed_keys (m : list (string * V)) :
  Forall (fun kv => key kv.2 = kv.1) m -> map key m.*2 = m.*1.
Proof.
  induction 1 as [|[k v] m Hkv _ IH]; simpl; [reflexivity|].
  simpl in Hkv. rewrite Hkv. f_equal. exact IH.
Qed.

Lemma setAll_NoDup arr : forall m, NoDup m.*1 -> NoDup (setAll key m arr).*1.
Proof.
  induction arr as [|c arr IH]; intros m Hm; simpl; [exact Hm|].
  apply IH. rewrite map_set_keys. destruct (decide (key c ∈ m.*1)) as [Hin|Hin]; [exact Hm|].
  apply NoDup_app. split; [exact Hm|]. split.
  - intros x Hx Hx'. apply list_elem_of_singleton in Hx'. subst. contradiction.
  - apply NoDup_singleton.
Qed.

Lemma setAll_key_set arr : forall m,
  (list_to_set (setAll key m arr).*1 : gset string)
  = list_to_set m.*1 ∪ list_to_set (map key arr).
Proof.
  induction arr as [|c arr IH]; intros m; simpl.
  - set_solver.
  - rewrite IH, map_set_keys. destruct (decide (key c ∈ m.*1)) as [Hin|Hin].
    + set_solver.
    + rewrite list_to_set_app_L. set_solver.
Qed.


Lemma setAll_known arr : forall m,
  Forall (fun c => key c ∈ m.*1) arr -> (setAll key m arr).*1 = m.*1.
Proof.
  induction arr as [|c arr IH]; intros m Hall; simpl; [reflexivity|].
  inversion Hall as [|? ? Hc Harr]; subst.
  assert (Hkeys : (map_set m (key c) c).*1 = m.*1).
  { rewrite map_set_keys, decide_True by exact Hc. reflexivity. }
  rewrite IH; [exact Hkeys|]. rewrite Hkeys. exact Harr.
Qed.

Lemma setAll_fresh arr : forall m,
  NoDup (m.*1 ++ map key arr) ->
  setAll key m arr = m ++ map (fun c => (key c, c)) arr.
Proof.
  induction arr as [|c arr IH]; intros m Hnd; simpl.
  - rewrite app_nil_r. reflexivity.
  - simpl in Hnd. apply NoDup_app in Hnd as (Hm & Hdisj & Harr).
    apply NoDup_cons in Harr as [Hc Harr].
    rewrite map_set_fresh.
    + rewrite IH.
      * rewrite <- app_assoc. reflexivity.
      * rewrite fmap_app. simpl. rewrite <- app_assoc. simpl.
        apply NoDup_app. split; [exact Hm|]. split.
        -- exact Hdisj.
        -- apply NoDup_cons. split; assumption.
    + intros Hin. apply (Hdisj _ Hin). apply list_elem_of_here.
Qed.

Lemma setAll_values arr : forall m x,
  x ∈ (setAll key m arr).*2 -> x ∈ m.*2 \/ x ∈ arr.
Proof.
  induction arr as [|c arr IH]; intros m x Hx; simpl in *; [left; exact Hx|].
  destruct (IH _ _ Hx) as [H|H].
  - destruct (map_set_values _ _ _ _ H) as [->|H'].
    + right. apply list_elem_of_here.
    + left. exact H'.
  - right. apply list_elem_of_further, H.
Qed.

Lemma dedupeBy_keys arr :
  map key (dedupeBy key arr) = (setAll key [] arr).*1.
Proof. apply keyed_keys, setAll_keyed. constructor. Qed.

Lemma dedupeBy_NoDup arr : NoDup (map key (dedupeBy key arr)).
Proof. rewrite dedupeBy_keys. apply setAll_NoDup. constructor. Qed.

Lemma dedupeBy_key_set arr :
  (list_to_set (map key (dedupeBy key arr)) : gset string) = list_to_set (map key arr).
Proof. rewrite dedupeBy_keys, setAll_key_set. simpl. set_solver. Qed.

Lemma dedupeBy_id arr : NoDup (map key arr) -> dedupeBy key arr = arr.
Proof.
  intros Hnd. unfold dedupeBy. fold (setAll key [] arr).
  rewrite setAll_fresh by exact Hnd. simpl.
  rewrite <- list_fmap_compose. apply list_fmap_id.
Qed.

Lemma dedupeBy_idem arr : dedupeBy key (dedupeBy key arr) = dedupeBy key arr.
Proof. apply dedupeBy_id, dedupeBy_NoDup. Qed.

Lemma dedupeBy_elem arr x : x ∈ dedupeBy key arr -> x ∈ arr.
Proof.
  intros Hx. destruct (setAll_values arr [] x Hx) as [H|H]; [|exact H].
  simpl in H. apply elem_of_nil in H. contradiction.
Qed.

(** Adding cards whose ids are all known leaves the number of cards as it
    is; adding any cards never lowers it. *)
Lemma dedupeBy_app_known arr extra :
  NoDup (map key arr) ->
  Forall (fun c => key c ∈ map key arr) extra ->
  length (dedupeBy key (arr ++ extra)) = length arr.
Proof.
  intros Hnd Hknown.
  rewrite <- (length_fmap key (dedupeBy key (arr ++ extra))), dedupeBy_keys.
  unfold setAll. rewrite fold_left_app. fold (setAll key [] arr).
  fold (setAll key (setAll key [] arr) extra).
  rewrite setAll_known.
  - rewrite <- dedupeBy_keys, dedupeBy_id by exact Hnd. apply length_fmap.
  - rewrite <- dedupeBy_keys, dedupeBy_id by exact Hnd. exact Hknown.
Qed.


End Dedupe.

(** * Properties of the import run *)

Section ImportFacts.
Variable env : Env.

Lemma importShow_run cl m w :
  Trainer.importShow env cl m w
  = match Trainer.getOpeningsForAniListId env (Trainer.seen_cache cl) (Trainer.anilistId m)
            (Trainer.titleRomaji m) (Trainer.titleEnglish m) (Trainer.titleNative m) w with
    | (Ok ops, w1) => (Ok tt, Trainer.stageShow m ops w1)
    | (Throw e, w1) => (Throw e, w1)
    | (Diverge, w1) => (Diverge, w1)
    end.
Proof. reflexivity. Qed.

Lemma stageShow_error m ops w : Trainer.error (Trainer.stageShow m ops w) = Trainer.error w.
Proof.
  unfold Trainer.stageShow.
  destruct (Trainer.stage m ops (Trainer.idsRef w)) as [[ids' newCards] added].
  destruct (length newCards =? 0)%nat; reflexivity.
Qed.

Lemma pause_run cl w :
  exists io', Trainer.pause env cl w = (Ok tt, Trainer.setIo io' w).
Proof.
  unfold Trainer.pause, bind, Trainer.inIo, liftIo, Math_random, sleep. simpl.
  eexists. reflexivity.
Qed.

(** One turn of the loop body's [try]/[catch] always returns. *)
Lemma turn_returns cl m w :
  exists w',
    tryCatch (Trainer.importShow env cl m) (fun _ => modify Trainer.countFailure) w
    = (Ok tt, w') /\
    Trainer.error w' = Trainer.error w.
Proof.
  unfold tryCatch. rewrite importShow_run.
  destruct (getOpenings_run env (Trainer.seen_cache cl) (Trainer.anilistId m)
              (Trainer.titleRomaji m) (Trainer.titleEnglish m) (Trainer.titleNative m) w)
    as (r & io' & Hr & Hrun).
  rewrite Hrun. destruct r as [ops|e|]; [| |contradiction].
  - eexists. split; [reflexivity|]. rewrite stageShow_error.
    destruct (Trainer.seen_cache cl !! pretty (Trainer.anilistId m)); reflexivity.
  - eexists. split; [reflexivity|]. reflexivity.
Qed.

Lemma importLoop_returns cl list : forall i w,
  exists w',
    Trainer.importLoop env cl i list w = (Ok tt, w') /\
    Trainer.error w' = Trainer.error w.
Proof.
  induction list as [|m rest IH]; intros i w.
  - exists w. split; reflexivity.
  - simpl. destruct (cancelRequested env i); [exists w; split; reflexivity|].
    unfold bind at 1.
    destruct (turn_returns cl m w) as (w1 & Hturn & Herr1). rewrite Hturn.
    unfold bind at 1.
    destruct (pause_run cl w1) as (io2 & Hpause). rewrite Hpause.
    destruct (IH (S i) (Trainer.setIo io2 w1)) as (w' & Hloop & Herr').
    exists w'. split; [exact Hloop|]. rewrite Herr'. simpl. exact Herr1.
Qed.

(** C9.  When the resolver throws for the show [m] (and no cancel was
    requested), the turn catches it: the cards, the id set and the error
    message are as before the turn, the processed-shows counter is one more
    and the total of openings is the same; the loop goes on, after the
    pause, with the next show; and the loop as a whole returns, so the
    failure never reaches the [catch] of the run. *)
Theorem resolution_failure_is_contained cl i m rest w e w1 :
  cancelRequested env i = false ->
  Trainer.getOpeningsForAniListId env (Trainer.seen_cache cl) (Trainer.anilistId m)
    (Trainer.titleRomaji m) (Trainer.titleEnglish m) (Trainer.titleNative m) w
  = (Throw e, w1) ->
  let w2 := Trainer.countFailure w1 in
  Trainer.cards w2 = Trainer.cards w /\
  Trainer.idsRef w2 = Trainer.idsRef w /\
  Trainer.error w2 = Trainer.error w /\
  Trainer.processedShows (Trainer.progress w2)
  = Trainer.processedShows (Trainer.progress w) + 1 /\
  Trainer.totalOps (Trainer.progress w2) = Trainer.totalOps (Trainer.progress w) /\
  Trainer.importLoop env cl i (m :: rest) w
  = (Trainer.pause env cl ;; Trainer.importLoop env cl (S i) rest)%monad w2 /\
  exists w',
    Trainer.importLoop env cl i (m :: rest) w = (Ok tt, w') /\
    Trainer.error w' = Trainer.error w.
Proof.
  intros Hcancel Hthrow w2.
  destruct (getOpenings_run env (Trainer.seen_cache cl) (Trainer.anilistId m)
              (Trainer.titleRomaji m) (Trainer.titleEnglish m) (Trainer.titleNative m) w)
    as (r & io' & Hr & Hrun).
  rewrite Hthrow in Hrun. inversion Hrun; subst r w1. subst w2.
  repeat split; try reflexivity.
  - simpl. rewrite Hcancel. unfold bind at 1, tryCatch.
    rewrite importShow_run, Hthrow. reflexivity.
  - apply importLoop_returns.
Qed.

End ImportFacts.

(** * Two runs on a remote that does not change *)

Section Stable.
Variable F : Request -> Fetched.










(** ** Staging the openings of one show *)

Lemma stage_fold m ops : forall acc ids0,
  acc.1.1 = ids0 ∪ idSet acc.1.2 ->
  let res := fold_left (Trainer.stageOp m) ops acc in
  res.1.1 = ids0 ∪ idSet res.1.2 /\
  res.1.1 = acc.1.1 ∪ list_to_set (map (opId m) ops) /\
  (Forall derivedId acc.1.2 -> Forall derivedId res.1.2).
Proof.
  induction ops as [|op ops IH]; intros [[ids newCards] added] ids0 Hacc; simpl in *.
  - repeat split; [exact Hacc|set_solver|tauto].
  - fold (opId m op).
    destruct (decide (opId m op ∈ ids)) as [Hin|Hin].
    + destruct (IH (ids, newCards, added) ids0 Hacc) as (H1 & H2 & H3).
      repeat split; [exact H1| |exact H3].
      rewrite H2. simpl. set_solver.
    + match goal with
      | |- context [fold_left _ ops ?a] => destruct (IH a ids0) as (H1 & H2 & H3)
      end.
      { simpl. unfold idSet. rewrite map_app, list_to_set_app_L. simpl.
        rewrite Hacc. unfold idSet. set_solver. }
      repeat split; [exact H1| |].
      * rewrite H2. simpl. set_solver.
      * intros Hd. apply H3. simpl. apply Forall_app. split; [exact Hd|].
        constructor; [reflexivity|constructor].
Qed.


Lemma idSet_dedupe cards : idSet (Trainer.dedupeById cards) = idSet cards.
Proof. apply dedupeBy_key_set. Qed.

Lemma idSet_app cards extra : idSet (cards ++ extra) = idSet cards ∪ idSet extra.
Proof. unfold idSet. rewrite map_app. apply list_to_set_app_L. Qed.

(** The state after staging: the id set and the cards stay in step, every
    opening of the show has its id among the cards, and no id is lost. *)
Lemma stageShow_covers m ops w :
  Trainer.idsRef w = idSet (Trainer.cards w) ->
  let w' := Trainer.stageShow m ops w in
  Trainer.idsRef w' = idSet (Trainer.cards w') /\
  idSet (Trainer.cards w') = idSet (Trainer.cards w) ∪ list_to_set (map (opId m) ops) /\
  Trainer.cache w' = Trainer.cache w /\
  (forall c, c ∈ Trainer.cards w' -> c ∈ Trainer.cards w \/ derivedId c).
Proof.
  intros Hsync. unfold Trainer.stageShow, Trainer.stage.
  destruct (stage_fold m ops (Trainer.idsRef w, [], 0) (Trainer.idsRef w))
    as (H1 & H2 & H3); [simpl; unfold idSet; simpl; set_solver|].
  destruct (fold_left (Trainer.stageOp m) ops (Trainer.idsRef w, [], 0))
    as [[ids' newCards] added]. simpl in *.
  destruct newCards as [|c newCards]; simpl.
  - repeat split; try (left; assumption).
    + rewrite H1, Hsync. unfold idSet. simpl. set_solver.
    + rewrite <- Hsync, <- H2, H1. unfold idSet. simpl. set_solver.
  - repeat split.
    + rewrite idSet_dedupe, idSet_app, H1, Hsync. reflexivity.
    + rewrite idSet_dedupe, idSet_app, <- Hsync, <- H2, H1. reflexivity.
    + intros c' Hc'. apply dedupeBy_elem, elem_of_app in Hc' as [Hc'|Hc'];
        [left; exact Hc'|right].
      specialize (H3 (Forall_nil_2 _)). rewrite Forall_forall in H3. apply H3, Hc'.
Qed.



(** ** The loop of a first run *)



(** ** The loop of a second run *)





(** ** The lookups before the loop *)





End Stable.

(** ** The run as a whole *)

Lemma buildDeck_outcome env fuel cl name w :
  Trainer.buildDeckFromAniList env fuel cl name w
  = match Trainer.buildDeck_try env fuel cl name (Trainer.buildDeck_begin cl w) with
    | (Ok _, wt) => (Ok tt, Trainer.setLoading false wt)
    | (Throw e, wt) =>
        (Ok tt, Trainer.setLoading false
                  (Trainer.setCards [] (Trainer.setError (errorText e) wt)))
    | (Diverge, wt) => (Diverge, wt)
    end.
Proof.
  unfold Trainer.buildDeckFromAniList, bind, modify, tryFinally, tryCatch. simpl.
  destruct (Trainer.buildDeck_try env fuel cl name (Trainer.buildDeck_begin cl w))
    as [[[]|e|] wt]; reflexivity.
Qed.

Lemma importEntries_outcome env cl anime w :
  Trainer.importEntries env cl anime w
  = let shows := take (Z.to_nat (Z.max 10 (Trainer.maxShows cl))) anime in
    if (length shows =? 0)%nat then (Throw Trainer.NO_ANIME, w)
    else
      match Trainer.importLoop env cl 0 shows
              (Trainer.setProgress (Trainer.mkProgress (Z.of_nat (length shows)) 0 0) w) with
      | (Ok _, wf) => (Ok tt, Trainer.finalDedupe wf)
      | (Throw e, wf) => (Throw e, wf)
      | (Diverge, wf) => (Diverge, wf)
      end.
Proof.
  unfold Trainer.importEntries. simpl.
  destruct (length (take (Z.to_nat (Z.max 10 (Trainer.maxShows cl))) anime) =? 0)%nat;
    [reflexivity|].
  unfold bind, modify. simpl.
  match goal with |- context [Trainer.importLoop env cl 0 ?l ?w0] =>
    destruct (Trainer.importLoop env cl 0 l w0) as [[[]|e|] wf] end; reflexivity.
Qed.

Lemma finalDedupe_cards w :
  Trainer.cards (Trainer.finalDedupe w) = Trainer.dedupeById (Trainer.cards w) /\
  Trainer.cache (Trainer.finalDedupe w) = Trainer.cache w.
Proof.
  unfold Trainer.finalDedupe.
  destruct (length (Trainer.dedupeById (Trainer.cards w)) =? 0)%nat; split; reflexivity.
Qed.





(** ** The ids of the cards a run adds *)

Section RunIds.
Variable env : Env.




Lemma getAniListAnime_loop_run fuel : forall userId page perPage out w,
  exists r io',
    Trainer.getAniListAnime_loop env fuel userId page perPage out w
    = (r, Trainer.setIo io' w).
Proof.
  induction fuel as [|fuel IH]; intros userId page perPage out w.
  - exists Diverge, (Trainer.io w). destruct w; reflexivity.
  - simpl. unfold bind at 1. rewrite inIo_run.
    destruct (postJSON env ANILIST_GQL (VarsPage userId page perPage) (Trainer.io w))
      as [[j|e|] io']; simpl; eauto.
    destruct (negb match j with JPage _ h => h | _ => false end); [eauto|].
    unfold bind at 1. rewrite inIo_run. simpl.
    match goal with |- context [Trainer.getAniListAnime_loop env fuel ?a ?b ?c ?d ?w1] =>
      destruct (IH a b c d w1) as (r & io2 & Hrun) end.
    rewrite Hrun. eauto.
Qed.


End RunIds.

(** * Properties of the streaming-episode import *)

Section AppFacts.






Lemma App_inIo_run {A} (m : M Io A) w :
  App.inIo m w = ((m (App.io w)).1, App.setIo (m (App.io w)).2 w).
Proof. unfold App.inIo, liftIo. destruct (m (App.io w)). reflexivity. Qed.





End AppFacts.


(** * The import run: failures and second runs *)

Lemma resolution_failure_is_contained_witness :
  exists w',
    Trainer.importLoop steadyEnv (Trainer.render sampleWorld 250 500) 0
      [unknownShow; knownShow] sampleWorld = (Ok tt, w') /\
    Trainer.error w' = Trainer.error sampleWorld.
Proof.
  eassert (Hthrow :
    Trainer.getOpeningsForAniListId steadyEnv
      (Trainer.seen_cache (Trainer.render sampleWorld 250 500))
      (Trainer.anilistId unknownShow) (Trainer.titleRomaji unknownShow)
      (Trainer.titleEnglish unknownShow) (Trainer.titleNative unknownShow) sampleWorld
    = (Throw _, _)) by (vm_compute; reflexivity).
  exact (proj2 (proj2 (proj2 (proj2 (proj2 (proj2
    (resolution_failure_is_contained steadyEnv (Trainer.render sampleWorld 250 500) 0%nat
       unknownShow [knownShow] sampleWorld _ _ eq_refl Hthrow))))))).
Defined.

(** What the [catch] of the run does: the message is the cause, and the
    cards are set to the empty list. *)
Lemma fatal_error_outcome env fuel cl name w e wt :
  Trainer.buildDeck_try env fuel cl name (Trainer.buildDeck_begin cl w) = (Throw e, wt) ->
  exists w',
    Trainer.buildDeckFromAniList env fuel cl name w = (Ok tt, w') /\
    Trainer.cards w' = [] /\
    Trainer.error w' = errorText e /\
    Trainer.loading w' = false.
Proof.
  intros Htry. rewrite buildDeck_outcome, Htry. eexists. repeat split.
Qed.

(** C1 (what the code does).  The deck holds a card of an earlier import;
    an import for a user the list service does not know ends in the
    [catch] of the run, which reports the cause and sets the cards to the
    empty list: the card committed before the failure is gone. *)
Theorem failed_lookup_empties_the_deck :
  let w := Trainer.setCards [sampleCard] sampleWorld in
  let run :=
    Trainer.buildDeckFromAniList (scripted [] r404) 3 (Trainer.render w 250 500) "nobody" w in
  Trainer.cards w = [sampleCard] /\
  run.1 = Ok tt /\
  Trainer.cards run.2 = [] /\
  Trainer.error run.2 = "404 Not Found — no such user".
Proof. vm_compute. repeat split. Qed.

(** C2 (what the code does).  [importAnilist] is run twice for one user
    on a list service that does not change, the second time from the
    render that follows the first run, with a [localStorage] that has
    room.  The ids carry the run's counter after the show and the opening
    number, and [saveCards] is handed the cards of the render and the new
    cards before any deduplication: the cards in memory stay two, the
    stored blob goes from two cards to four, each id twice. *)
Theorem second_import_doubles_the_stored_cards :
  let env := collectionEnv [[media3; media7]] in
  let run1 := App.importAnilist env roomyStorage 0 [] "melfisk" sampleAppWorld in
  let run2 := App.importAnilist env roomyStorage 0 (App.cards run1.2) "melfisk" run1.2 in
  run1.1 = Ok tt /\ App.error run1.2 = "" /\
  run2.1 = Ok tt /\ App.error run2.2 = "" /\
  map App.id (App.cards run1.2) = ["3::OP1::1"; "7::OP1::2"] /\
  map App.id (App.stored run1.2) = ["3::OP1::1"; "7::OP1::2"] /\
  map App.id (App.cards run2.2) = ["3::OP1::1"; "7::OP1::2"] /\
  map App.id (App.stored run2.2)
  = ["3::OP1::1"; "7::OP1::2"; "3::OP1::1"; "7::OP1::2"].
Proof. vm_compute. repeat split. Qed.

(** The ids of [importAnilist] depend on the place of the show in the
    collection: the card of the show 7 and its opening 1 gets the id
    "7::OP1::2" when the show comes second and "7::OP1::1" when it comes
    first, and neither is catalogId + "::OP" + sequenceNumber. *)
Lemma episode_import_ids_carry_the_counter :
  map App.id (App.cards
    (App.importAnilist (collectionEnv [[media3; media7]]) roomyStorage 0 [] "melfisk"
       sampleAppWorld).2)
  = ["3::OP1::1"; "7::OP1::2"] /\
  map App.id (App.cards
    (App.importAnilist (collectionEnv [[media7]]) roomyStorage 0 [] "melfisk"
       sampleAppWorld).2)
  = ["7::OP1::1"] /\
  "7::OP1::2" <> pretty 7 +:+ "::OP" +:+ pretty 1 /\
  "7::OP1::1" <> pretty 7 +:+ "::OP" +:+ pretty 1.
Proof. vm_compute. repeat split; discriminate. Qed.




(** * Further properties: arrays and [shuffle] *)

Lemma random_index_range (x : Unit01) (n : Z) :
  0 < n -> 0 <= Math_floor (u_val x * inject_Z n) < n.
Proof.
  intros Hn. destruct x as [v Hv]. cbn [u_val].
  apply andb_true_iff in Hv as [H0 H1].
  apply Qle_bool_iff in H0.
  apply negb_true_iff in H1.
  assert (Hlt : (v < 1)%Q).
  { apply Qnot_le_lt. intros Hle. apply Qle_bool_iff in Hle. congruence. }
  assert (Hpos : (inject_Z 0 < inject_Z n)%Q) by (rewrite <- Zlt_Qlt; exact Hn).
  change (inject_Z 0) with 0%Q in Hpos.
  unfold Math_floor. split.
  - rewrite <- (Qfloor_Z 0). apply Qfloor_resp_le.
    apply Qmult_le_0_compat; [exact H0|]. apply Qlt_le_weak, Hpos.
  - assert (Hq : (v * inject_Z n < inject_Z n)%Q).
    { rewrite <- (Qmult_1_l (inject_Z n)) at 2.
      apply Qmult_lt_compat_r; [exact Hpos|exact Hlt]. }
    pose proof (Qfloor_le (v * inject_Z n)) as Hf.
    rewrite Zlt_Qlt.
    eapply Qle_lt_trans; eauto.
Qed.

Section ArrFacts.
Context {A : Type}.

Lemma arr_get_Some (l : list A) (i : nat) x :
  l !! i = Some x -> arr_get (Some <$> l) (Z.of_nat i) = Some x.
Proof.
  intros H. unfold arr_get.
  destruct (Z.of_nat i <? 0) eqn:Hneg; [apply Z.ltb_lt in Hneg; lia|].
  rewrite Nat2Z.id, list_lookup_fmap, H. reflexivity.
Qed.

Lemma arr_set_Some (l : list A) (i : nat) x :
  (i < length l)%nat ->
  arr_set (Some <$> l) (Z.of_nat i) (Some x) = Some <$> <[i := x]> l.
Proof.
  intros H. unfold arr_set.
  destruct (Z.of_nat i <? 0) eqn:Hneg; [apply Z.ltb_lt in Hneg; lia|].
  rewrite Nat2Z.id, length_fmap.
  destruct (i <? length l)%nat eqn:Hlt; [|apply Nat.ltb_ge in Hlt; lia].
  rewrite list_fmap_insert. reflexivity.
Qed.

Lemma delete_insert_same (l : list A) (i : nat) x :
  delete i (<[i := x]> l) = delete i l.
Proof.
  revert i. induction l as [|a l IH]; intros [|i]; simpl; try reflexivity.
  f_equal. apply IH.
Qed.

(** Exchanging two elements of a list gives a permutation of it. *)
Lemma swap_Permutation (l : list A) (i j : nat) x y :
  l !! i = Some x -> l !! j = Some y ->
  <[j := x]> (<[i := y]> l) ≡ₚ l.
Proof.
  revert l j. induction i as [|i IH]; intros [|a l] [|j] Hi Hj; simpl in *;
    try discriminate.
  - inversion Hi; inversion Hj; subst. reflexivity.
  - inversion Hi; subst.
    rewrite (delete_Permutation l j y Hj) at 2.
    rewrite (delete_Permutation (<[j:=x]> l) j x).
    + rewrite delete_insert_same. apply perm_swap.
    + apply list_lookup_insert_eq. eapply lookup_lt_Some; eauto.
  - inversion Hj; subst.
    rewrite (delete_Permutation l i x Hi) at 2.
    rewrite (delete_Permutation (<[i:=y]> l) i y).
    + rewrite delete_insert_same. apply perm_swap.
    + apply list_lookup_insert_eq. eapply lookup_lt_Some; eauto.
  - constructor. apply IH; assumption.
Qed.

End ArrFacts.

Section ShuffleFacts.
Variable env : Env.
Context {A : Type}.

Lemma shuffle_loop_permutes : forall (i : nat) (l : list A) io,
  (i < length l)%nat ->
  exists perm,
    shuffle_loop env i (Some <$> l) io
    = (Ok (Some <$> perm), mkIo (fetches io) (draws io + i) (trace io)) /\
    perm ≡ₚ l.
Proof.
  induction i as [|i IH]; intros l io Hi.
  - exists l. split; [|reflexivity]. cbn [shuffle_loop]. unfold ret.
    rewrite Nat.add_0_r. destruct io; reflexivity.
  - cbn [shuffle_loop]. unfold bind, Math_random.
    set (j := Math_floor (u_val (random env (draws io)) * inject_Z (Z.of_nat (S i) + 1))).
    assert (Hj : 0 <= j < Z.of_nat (S i) + 1) by (apply random_index_range; lia).
    clearbody j.
    assert (Hjn : (Z.to_nat j < length l)%nat) by lia.
    destruct (lookup_lt_is_Some_2 l (S i) Hi) as [x Hx].
    destruct (lookup_lt_is_Some_2 l (Z.to_nat j) Hjn) as [y Hy].
    replace j with (Z.of_nat (Z.to_nat j)) by lia.
    rewrite (arr_get_Some l _ _ Hy), (arr_get_Some l _ _ Hx).
    rewrite arr_set_Some by exact Hi.
    rewrite arr_set_Some by (rewrite length_insert; lia).
    destruct (IH (<[Z.to_nat j := x]> (<[S i := y]> l))
                (mkIo (fetches io) (S (draws io)) (trace io))) as (perm & Hrun & Hperm).
    { rewrite !length_insert. lia. }
    exists perm. split.
    + rewrite Hrun. cbn [fetches draws trace].
      replace (draws io + S i)%nat with (S (draws io) + i)%nat by lia. reflexivity.
    + rewrite Hperm. apply swap_Permutation; assumption.
Qed.

Lemma shuffle_run (array : list A) io :
  exists perm,
    shuffle env array io
    = (Ok (Some <$> perm),
       mkIo (fetches io) (draws io + (length array - 1)) (trace io)) /\
    perm ≡ₚ array.
Proof.
  unfold shuffle. rewrite length_fmap.
  destruct array as [|a array].
  - exists []. split; [|reflexivity]. cbn. unfold ret. rewrite Nat.add_0_r.
    destruct io; reflexivity.
  - apply shuffle_loop_permutes. simpl. lia.
Qed.

(** X1.  [shuffle] returns a permutation of its argument, with no
    [undefined] element in it; it never throws, draws one random number
    per element but the first, and makes no request and no sleep. *)
Theorem shuffle_permutes (array : list A) io :
  exists perm,
    shuffle env array io
    = (Ok (Some <$> perm),
       mkIo (fetches io) (draws io + (length array - 1)) (trace io)) /\
    perm ≡ₚ array.
Proof. apply shuffle_run. Qed.

End ShuffleFacts.

Lemma draw_of_val (j n : nat) :
  (j < n)%nat -> u_val (draw_of j n) = (Z.of_nat j # Pos.of_nat n)%Q.
Proof.
  intros Hj. unfold draw_of.
  set (q := (Z.of_nat j # Pos.of_nat n)%Q).
  assert (Hq : Qle_bool 0 q && negb (Qle_bool 1 q) = true).
  { apply andb_true_iff. split.
    - apply Qle_bool_iff. unfold Qle, q. simpl. lia.
    - apply negb_true_iff. destruct (Qle_bool 1 q) eqn:H; [|reflexivity].
      apply Qle_bool_iff in H. unfold Qle, q in H. simpl in H.
      rewrite Z.mul_1_r in H. 
      assert (Z.pos (Pos.of_nat n) = Z.of_nat n).
      { destruct n; [lia|]. rewrite <- Pos.of_nat_succ. lia. }
      lia. }
  generalize (eq_refl (Qle_bool 0 q && negb (Qle_bool 1 q))).
  generalize (Qle_bool 0 q && negb (Qle_bool 1 q)) at 2 3.
  intros b Hb. destruct b; [reflexivity|congruence].
Qed.

Lemma draw_of_index (j n : nat) :
  (j < n)%nat -> Math_floor (u_val (draw_of j n) * inject_Z (Z.of_nat n)) = Z.of_nat j.
Proof.
  intros Hj. rewrite (draw_of_val j n Hj). unfold Math_floor.
  assert (Hn : Z.pos (Pos.of_nat n) = Z.of_nat n).
  { destruct n; [lia|]. rewrite <- Pos.of_nat_succ. lia. }
  assert (Heq : ((Z.of_nat j # Pos.of_nat n) * inject_Z (Z.of_nat n) == inject_Z (Z.of_nat j))%Q).
  { unfold Qeq, Qmult, inject_Z. cbn [Qnum Qden]. rewrite Pos.mul_1_r, Hn. lia. }
  rewrite Heq. apply Qfloor_Z.
Qed.

Section ShuffleReach.
Context {A : Type}.

Lemma shuffle_loop_reaches : forall (i : nat) (l target : list A),
  (i < length l)%nat -> target ≡ₚ l -> drop (S i) target = drop (S i) l ->
  exists script,
    length script = i /\
    forall env io,
      (forall k, (k < i)%nat -> random env (draws io + k) = nth k script halfJitter) ->
      shuffle_loop env i (Some <$> l) io
      = (Ok (Some <$> target), mkIo (fetches io) (draws io + i) (trace io)).
Proof.
  induction i as [|i IH]; intros l target Hi Hperm Hdrop.
  - exists []. split; [reflexivity|]. intros env io _. cbn [shuffle_loop]. unfold ret.
    rewrite Nat.add_0_r.
    assert (Heq : target = l).
    { destruct l as [|a l]; [simpl in Hi; lia|].
      destruct target as [|b target]; [apply Permutation_nil_l in Hperm; discriminate|].
      simpl in Hdrop. rewrite !drop_0 in Hdrop. subst target.
      rewrite (Permutation_cons_append l a), (Permutation_cons_append l b) in Hperm.
      apply Permutation_app_inv_l, Permutation_singleton_inj in Hperm. congruence. }
    rewrite Heq. destruct io; reflexivity.
  - assert (Hlen : length target = length l) by (apply Permutation_length, Hperm).
    destruct (lookup_lt_is_Some_2 target (S i) ltac:(lia)) as [t Ht].
    destruct (lookup_lt_is_Some_2 l (S i) Hi) as [x Hx].
    assert (Htake : take (S (S i)) target ≡ₚ take (S (S i)) l).
    { apply (Permutation_app_inv_r (drop (S (S i)) l)).
      rewrite <- Hdrop at 1. rewrite !take_drop. exact Hperm. }
    assert (Hin : t ∈ take (S (S i)) l).
    { rewrite <- Htake. apply list_elem_of_lookup. exists (S i).
      rewrite lookup_take_lt by lia. exact Ht. }
    apply list_elem_of_lookup in Hin as [j Hj].
    apply lookup_take_Some in Hj as [Hj Hjlt].
    destruct (IH (<[j := x]> (<[S i := t]> l)) target) as (script & Hslen & Hrun).
    + rewrite !length_insert. lia.
    + rewrite Hperm. symmetry. apply swap_Permutation; assumption.
    + rewrite (drop_S target t (S i) Ht).
      assert (Hl' : <[j := x]> (<[S i := t]> l) !! S i = Some t).
      { destruct (decide (j = S i)) as [->|Hne].
        - rewrite list_lookup_insert_eq by (rewrite length_insert; lia). congruence.
        - rewrite list_lookup_insert_ne by exact Hne.
          apply list_lookup_insert_eq. lia. }
      rewrite (drop_S _ t (S i) Hl'). f_equal.
      rewrite !drop_insert_lt by lia. exact Hdrop.
    + exists (draw_of j (S (S i)) :: script). split; [simpl; lia|].
      intros env io Henv. cbn [shuffle_loop]. unfold bind, Math_random.
      pose proof (Henv 0%nat ltac:(lia)) as H0. rewrite Nat.add_0_r in H0.
      rewrite H0. cbn [nth].
      replace (Z.of_nat (S i) + 1) with (Z.of_nat (S (S i))) by lia.
      rewrite draw_of_index by lia.
      rewrite (arr_get_Some l _ _ Hj), (arr_get_Some l _ _ Hx).
      rewrite arr_set_Some by exact Hi.
      rewrite arr_set_Some by (rewrite length_insert; lia).
      rewrite Hrun.
      * cbn [fetches draws trace].
        replace (draws io + S i)%nat with (S (draws io) + i)%nat by lia. reflexivity.
      * intros k Hk. cbn [draws].
        replace (S (draws io) + k)%nat with (draws io + S k)%nat by lia.
        rewrite Henv by lia. reflexivity.
Qed.

(** X2.  Every ordering of the argument can come out of [shuffle]: for each
    permutation of the argument there are draws of [Math.random()] under
    which [shuffle] returns it. *)
Theorem shuffle_reaches_every_order (env : Env) (array perm : list A) io :
  perm ≡ₚ array ->
  exists script,
    shuffle (drawing script (draws io) env) array io
    = (Ok (Some <$> perm), mkIo (fetches io) (draws io + (length array - 1)) (trace io)).
Proof.
  intros Hperm. unfold shuffle. rewrite length_fmap.
  destruct array as [|a array].
  - apply Permutation_nil_r in Hperm. subst perm. exists []. cbn. unfold ret.
    rewrite Nat.add_0_r. destruct io; reflexivity.
  - destruct (shuffle_loop_reaches (length (a :: array) - 1) (a :: array) perm)
      as (script & _ & Hrun).
    + simpl. lia.
    + exact Hperm.
    + rewrite !drop_ge; [reflexivity|simpl; lia|].
      apply Permutation_length in Hperm. rewrite Hperm. simpl. lia.
    + exists script. apply Hrun. intros k Hk. unfold drawing. cbn [random].
      replace (draws io + k - draws io)%nat with k by lia. reflexivity.
Qed.

End ShuffleReach.

Lemma shuffle_reaches_every_order_witness :
  exists script,
    shuffle (drawing script 0 steadyEnv) [1; 2; 3] Io0
    = (Ok (Some <$> [3; 1; 2]), mkIo 0 2 []).
Proof.
  apply (shuffle_reaches_every_order steadyEnv [1; 2; 3] [3; 1; 2] Io0).
  exact (perm_trans (perm_swap 1 3 [2]) (perm_skip 1 (perm_swap 2 3 []))).
Defined.

(** * Further properties of [dedupeById] *)

Section DedupeMore.
Context {V : Type} (key : V -> string).

Lemma dedupeBy_snoc_keys arr c :
  map key (dedupeBy key (arr ++ [c]))
  = if decide (key c ∈ map key arr) then map key (dedupeBy key arr)
    else map key (dedupeBy key arr) ++ [key c].
Proof.
  rewrite !dedupeBy_keys. unfold setAll. rewrite fold_left_app. simpl.
  rewrite map_set_keys. fold (setAll key [] arr).
  assert (Hiff : key c ∈ (setAll key [] arr).*1 <-> key c ∈ map key arr).
  { rewrite <- dedupeBy_keys.
    rewrite <- (elem_of_list_to_set (C := gset string)), dedupeBy_key_set,
      elem_of_list_to_set. reflexivity. }
  destruct (decide (key c ∈ (setAll key [] arr).*1)) as [Hin|Hin],
           (decide (key c ∈ map key arr)) as [Hin'|Hin']; try reflexivity; tauto.
Qed.

Lemma map_set_pairs (m : list (string * V)) k v k' x :
  NoDup m.*1 ->
  (k', x) ∈ map_set m k v -> (k' = k /\ x = v) \/ (k' <> k /\ (k', x) ∈ m).
Proof.
  induction m as [|[k0 v0] m IH]; simpl; intros Hnd.
  - intros H. apply list_elem_of_singleton in H. inversion H; subst. left. split; reflexivity.
  - apply NoDup_cons in Hnd as [Hk0 Hnd].
    destruct (decide (k = k0)) as [->|Hne]; intros H; apply elem_of_cons in H as [H|H].
    + inversion H; subst. left. split; reflexivity.
    + right. split; [|apply list_elem_of_further, H].
      intros ->. apply Hk0. apply list_elem_of_fmap. exists (k0, x). split; [reflexivity|exact H].
    + inversion H; subst. right. split; [congruence|apply list_elem_of_here].
    + destruct (IH Hnd H) as [?|[? ?]]; [left; assumption|right].
      split; [assumption|apply list_elem_of_further; assumption].
Qed.

Lemma dedupeBy_snoc_elem arr c x :
  x ∈ dedupeBy key (arr ++ [c]) -> x = c \/ (key x <> key c /\ x ∈ dedupeBy key arr).
Proof.
  unfold dedupeBy. rewrite fold_left_app. simpl. fold (setAll key [] arr).
  intros Hx. apply list_elem_of_fmap in Hx as ([k' x'] & -> & Hx). simpl.
  apply map_set_pairs in Hx as [[_ ->]|[Hne Hx]].
  - left. reflexivity.
  - right.
    assert (Hkeyed : Forall (fun kv => key kv.2 = kv.1) (setAll key [] arr))
      by (apply setAll_keyed; constructor).
    rewrite Forall_forall in Hkeyed. specialize (Hkeyed _ Hx). simpl in Hkeyed.
    split; [congruence|]. apply list_elem_of_fmap. exists (k', x'). split; [reflexivity|exact Hx].
  - apply setAll_NoDup. constructor.
Qed.

(** Each card of the result is the last card of the input with its id. *)
Lemma dedupeBy_last arr : forall x,
  x ∈ dedupeBy key arr ->
  exists pre post, arr = pre ++ x :: post /\ key x ∉ map key post.
Proof.
  induction arr as [|c arr IH] using rev_ind; intros x Hx.
  - cbn in Hx. apply elem_of_nil in Hx. contradiction.
  - apply dedupeBy_snoc_elem in Hx as [->|[Hne Hx]].
    + exists arr, []. split; [reflexivity|]. simpl. apply not_elem_of_nil.
    + destruct (IH x Hx) as (pre & post & -> & Hpost).
      exists pre, (post ++ [c]). split; [rewrite <- app_assoc; reflexivity|].
      rewrite map_app. simpl. intros Hin. apply elem_of_app in Hin as [Hin|Hin];
        [contradiction|]. apply list_elem_of_singleton in Hin. contradiction.
Qed.

(** The ids of the result, in order: each id of the input at the place of
    its first occurrence. *)
Lemma dedupeBy_order arr :
  map key (dedupeBy key arr) = reverse (remove_dups (reverse (map key arr))).
Proof.
  induction arr as [|c arr IH] using rev_ind; [reflexivity|].
  rewrite dedupeBy_snoc_keys, map_app, reverse_app. simpl.
  rewrite IH. cbn [remove_dups].
  destruct (decide (key c ∈ map key arr)) as [Hin|Hin],
           (decide_rel elem_of (key c) (reverse (map key arr))) as [Hin'|Hin'];
    rewrite ?reverse_cons; try reflexivity; rewrite elem_of_reverse in Hin'; contradiction.
Qed.

(** X3.  The result of [dedupeById] has pairwise distinct ids, holds
    exactly the ids of the argument and only cards of the argument, and is
    not longer than the argument.  (Both components call [dedupeBy] with
    their [id]; the statements of this section hold for any key.) *)
Theorem dedupeById_distinct_ids arr :
  NoDup (map key (dedupeBy key arr)) /\
  (forall k, k ∈ map key (dedupeBy key arr) <-> k ∈ map key arr) /\
  (forall x, x ∈ dedupeBy key arr -> x ∈ arr) /\
  (length (dedupeBy key arr) <= length arr)%nat.
Proof.
  split; [apply dedupeBy_NoDup|]. split; [|split; [apply dedupeBy_elem|]].
  - intros k. rewrite <- !(elem_of_list_to_set (C := gset string)), dedupeBy_key_set.
    reflexivity.
  - rewrite <- (length_map key (dedupeBy key arr)), <- (length_map key arr).
    apply submseteq_length, NoDup_submseteq; [apply dedupeBy_NoDup|].
    intros k. rewrite <- !(elem_of_list_to_set (C := gset string)), dedupeBy_key_set.
    tauto.
Qed.

(** X4.  Each card [dedupeById] keeps is the last card of the argument
    with its id, and the ids of the result stand in the order of their
    first occurrences in the argument. *)
Theorem dedupeById_keeps_last_in_first_place arr :
  (forall x, x ∈ dedupeBy key arr ->
     exists pre post, arr = pre ++ x :: post /\ key x ∉ map key post) /\
  map key (dedupeBy key arr) = reverse (remove_dups (reverse (map key arr))).
Proof. split; [apply dedupeBy_last|apply dedupeBy_order]. Qed.

(** X5.  [dedupeById] is idempotent and leaves a list with pairwise
    distinct ids as it is; appending cards whose ids are all known to such
    a list does not change the number of cards. *)
Theorem dedupeById_fixes_deduped arr extra :
  dedupeBy key (dedupeBy key arr) = dedupeBy key arr /\
  (NoDup (map key arr) -> dedupeBy key arr = arr) /\
  (NoDup (map key arr) -> Forall (fun c => key c ∈ map key arr) extra ->
   length (dedupeBy key (arr ++ extra)) = length arr).
Proof.
  split; [apply dedupeBy_idem|]. split; [apply dedupeBy_id|apply dedupeBy_app_known].
Qed.

End DedupeMore.

(** * Further properties of the HTTP client *)

Section ClientMore.
Variable env : Env.

Lemma loop_rejects req rs : forall fuel attempt io e,
  0 <= attempt -> attempt + Z.of_nat (length rs) <= MAX_RETRIES ->
  (length rs < fuel)%nat ->
  (forall i r, rs !! i = Some r -> net env (fetches io + i) req = Responded r) ->
  net env (fetches io + length rs) req = Rejected e ->
  Forall (fun r => transient r = true) rs ->
  exists waits io',
    fetchJSON_loop env fuel req attempt io = (Throw e, io') /\
    backoffsOk attempt rs waits /\
    trace io' = trace io ++ retryEvents req waits /\
    fetches io' = (fetches io + S (length rs))%nat.
Proof.
  induction rs as [|r rs IH]; intros fuel attempt io e Ha Hcap Hfuel Hrs Hlast Hall.
  - destruct fuel as [|fuel]; [simpl in Hfuel; lia|].
    simpl in Hlast. rewrite Nat.add_0_r in Hlast.
    exists [], (afterFetch req io). split; [|split; [exact I|split]].
    + apply loop_rejected, Hlast.
    + reflexivity.
    + simpl. lia.
  - destruct fuel as [|fuel]; [simpl in Hfuel; lia|].
    inversion Hall as [|? ? Hr Hall']; subst.
    simpl length in *.
    assert (Hnet : net env (fetches io) req = Responded r).
    { specialize (Hrs 0%nat r eq_refl). rewrite Nat.add_0_r in Hrs. exact Hrs. }
    destruct (loop_retry env req attempt io r Hnet Hr) as (ms & d & Hok & Hms & Hstep); [lia|].
    destruct (IH fuel (attempt + 1)
                (mkIo (S (fetches io)) d (trace io ++ [EvFetch req; EvSleep ms])) e)
      as (waits & io' & Hrun & Hwaits & Htrace & Hfetches); try lia; try assumption.
    { intros i r' Hi. simpl. specialize (Hrs (S i) r' Hi).
      rewrite <- Nat.add_succ_comm in Hrs. exact Hrs. }
    { simpl. rewrite <- Nat.add_succ_comm in Hlast. exact Hlast. }
    exists (ms :: waits), io'. split; [|split; [|split]].
    + rewrite Hstep. exact Hrun.
    + simpl. split; assumption.
    + rewrite Htrace. simpl. unfold retryEvents. simpl. rewrite <- app_assoc. reflexivity.
    + rewrite Hfetches. simpl. lia.
Qed.

(** X6.  A rejection of [fetch] (no connection) is never retried: when
    the first responses [rs], at most [MAX_RETRIES] of them, carry 429 or
    5xx and the next [fetch] rejects, [fetchJSON] throws that rejection,
    after one fetch per response and one more and one sleep after each
    response. *)
Theorem rejected_fetch_is_not_retried req io rs e :
  (length rs <= Z.to_nat MAX_RETRIES)%nat ->
  (forall i r, rs !! i = Some r -> net env (fetches io + i) req = Responded r) ->
  Forall (fun r => transient r = true) rs ->
  net env (fetches io + length rs) req = Rejected e ->
  exists waits io',
    fetchJSON env req io = (Throw e, io') /\
    trace io' = trace io ++ retryEvents req waits /\
    length waits = length rs /\
    fetches io' = (fetches io + S (length rs))%nat.
Proof.
  intros Hlen Hrs Hall Hlast.
  destruct (loop_rejects req rs (S (Z.to_nat MAX_RETRIES)) 0 io e)
    as (waits & io' & Hrun & Hwaits & Htrace & Hfetches); try assumption; try lia.
  { unfold MAX_RETRIES in *. simpl in Hlen. lia. }
  exists waits, io'. repeat split; try assumption.
  clear -Hwaits. revert waits Hwaits. generalize 0.
  induction rs as [|r rs IH]; intros a [|w waits] H; simpl in *; try contradiction;
    [reflexivity|]. f_equal. eapply IH. apply H.
Qed.

End ClientMore.

Lemma rejected_fetch_is_not_retried_witness :
  exists waits io',
    fetchJSON (offlineAfter 1 r429) sampleRequest Io0 = (Throw "Failed to fetch", io') /\
    trace io' = retryEvents sampleRequest waits /\
    length waits = 1%nat /\
    fetches io' = 2%nat.
Proof.
  apply (rejected_fetch_is_not_retried (offlineAfter 1 r429) sampleRequest Io0 [r429]
           "Failed to fetch").
  - vm_compute. lia.
  - intros [|i] r Hr; simpl in Hr; inversion Hr; reflexivity.
  - repeat constructor.
  - reflexivity.
Defined.

Section ClientBudget.
Variable env : Env.

Lemma totalSleep_cons2 req ms evs :
  totalSleep (EvFetch req :: EvSleep ms :: evs) = ms + totalSleep evs.
Proof. reflexivity. Qed.

Lemma loop_sleeps req (n : nat) : forall attempt io,
  (forall k r, net env k req = Responded r ->
     Number_header (retryAfterHeader r) = NaN \/ Number_header (retryAfterHeader r) = Num 0) ->
  0 <= attempt -> attempt = MAX_RETRIES - Z.of_nat n ->
  exists r io' evs,
    (forall fuel, (n < fuel)%nat -> fetchJSON_loop env fuel req attempt io = (r, io')) /\
    trace io' = trace io ++ evs /\
    0 <= totalSleep evs <= backoffBudget n.
Proof.
  induction n as [|n IH]; intros attempt io Hhdr Ha Hn.
  - destruct (net env (fetches io) req) as [e|r] eqn:Hnet.
    + exists (Throw e), (afterFetch req io), [EvFetch req].
      split; [|split; [reflexivity|simpl; lia]].
      intros [|fuel] Hfuel; [lia|]. apply loop_rejected, Hnet.
    + exists (settle r), (afterFetch req io), [EvFetch req].
      split; [|split; [reflexivity|simpl; lia]].
      intros [|fuel] Hfuel; [lia|]. apply loop_stop; [exact Hnet|right; lia].
  - assert (Hb : 0 <= backoffBudget n).
    { clear. induction n as [|n IH]; [simpl; lia|].
      cbn [backoffBudget]. unfold JITTER_MS.
      assert (0 <= 2 ^ (MAX_RETRIES - Z.of_nat (S n))) by (apply Z.pow_nonneg; lia). lia. }
    destruct (net env (fetches io) req) as [e|r] eqn:Hnet.
    + exists (Throw e), (afterFetch req io), [EvFetch req].
      split; [|split; [reflexivity|]].
      * intros [|fuel] Hfuel; [lia|]. apply loop_rejected, Hnet.
      * cbn [backoffBudget totalSleep fold_right]. unfold JITTER_MS.
        assert (0 <= 2 ^ (MAX_RETRIES - Z.of_nat (S n))) by (apply Z.pow_nonneg; lia). lia.
    + destruct (transient r) eqn:Ht.
      * destruct (loop_retry env req attempt io r Hnet Ht) as (ms & d & Hok & Hms & Hstep); [lia|].
        destruct (IH (attempt + 1)
                    (mkIo (S (fetches io)) d (trace io ++ [EvFetch req; EvSleep ms])) Hhdr)
          as (res & io' & evs & Hrun & Htrace & Hsum); try lia.
        exists res, io', (EvFetch req :: EvSleep ms :: evs).
        split; [|split].
        -- intros [|fuel] Hfuel; [lia|]. rewrite Hstep. apply Hrun. lia.
        -- rewrite Htrace. simpl. rewrite <- app_assoc. reflexivity.
        -- rewrite totalSleep_cons2. cbn [backoffBudget].
           assert (Hms' : ms <= Z.min (1000 * 2 ^ attempt) 16000 + (JITTER_MS - 1)).
           { unfold backoffOk in Hok.
             destruct (Hhdr _ _ Hnet) as [Hh|Hh];
               destruct (retryAfterHeader r) as [[[|p]|date]|]; simpl in Hh;
               try discriminate;
               destruct Hok as (jitter & Hj & ->); lia. }
           rewrite <- Hn. lia.
      * exists (settle r), (afterFetch req io), [EvFetch req].
        split; [|split; [reflexivity|]].
        -- intros [|fuel] Hfuel; [lia|]. apply loop_stop; [exact Hnet|left; exact Ht].
        -- cbn [backoffBudget totalSleep fold_right]. unfold JITTER_MS.
           assert (0 <= 2 ^ (MAX_RETRIES - Z.of_nat (S n))) by (apply Z.pow_nonneg; lia). lia.
Qed.

(** X7.  When no response names a delay (the Retry-After header is
    missing, zero or a date), a call of [fetchJSON] returns or throws
    after sleeping at most 47 714 ms in total: the six capped exponential
    steps, each with a jitter of at most 119 ms. *)
Theorem backoff_without_retry_after_is_bounded req io :
  (forall k r, net env k req = Responded r ->
     Number_header (retryAfterHeader r) = NaN \/ Number_header (retryAfterHeader r) = Num 0) ->
  exists r evs,
    (fetchJSON env req io).1 = r /\ r <> Diverge /\
    trace (fetchJSON env req io).2 = trace io ++ evs /\
    0 <= totalSleep evs <= LONGEST_BACKOFF.
Proof.
  intros Hhdr.
  destruct (loop_sleeps req (Z.to_nat MAX_RETRIES) 0 io Hhdr) as (r & io' & evs & Hrun & Htrace & Hsum);
    [lia|reflexivity|].
  exists r, evs. unfold fetchJSON. rewrite Hrun by lia. simpl.
  split; [reflexivity|]. split.
  - pose proof (fetchJSON_returns_or_throws env req io) as Hd.
    unfold fetchJSON in Hd. rewrite Hrun in Hd by lia. exact Hd.
  - split; [exact Htrace|]. exact Hsum.
Qed.

End ClientBudget.

Lemma backoff_without_retry_after_is_bounded_witness :
  exists r evs,
    (fetchJSON (scripted [] r500) sampleRequest Io0).1 = r /\ r <> Diverge /\
    trace (fetchJSON (scripted [] r500) sampleRequest Io0).2 = evs /\
    0 <= totalSleep evs <= 47714.
Proof.
  apply (backoff_without_retry_after_is_bounded (scripted [] r500) sampleRequest Io0).
  intros k r Hr. right. destruct k; simpl in Hr; inversion Hr; reflexivity.
Defined.

(** * Properties of the list fetcher *)

Section Paging.
Variable env : Env.

Lemma fetchJSON_ok req io r :
  net env (fetches io) req = Responded r -> ok r = true ->
  fetchJSON env req io = (settle r, afterFetch req io).
Proof.
  intros Hnet Hok. unfold fetchJSON. apply loop_stop; [exact Hnet|left].
  unfold transient. unfold ok in Hok. apply andb_true_iff in Hok as [H1 H2].
  apply Z.leb_le in H1, H2. apply orb_false_iff. split.
  - apply Z.eqb_neq. lia.
  - apply andb_false_iff. left. apply Z.leb_gt. lia.
Qed.

Lemma postJSON_page userId page w r ms h :
  net env (fetches (Trainer.io w)) (pageRequest userId page) = Responded r ->
  servesPage r ms h ->
  Trainer.inIo (postJSON env ANILIST_GQL (VarsPage userId page 50)) w
  = (Ok (JPage ms h), Trainer.setIo (afterFetch (pageRequest userId page) (Trainer.io w)) w).
Proof.
  intros Hnet [Hok Hjson]. rewrite inIo_run. unfold postJSON.
  fold (pageRequest userId page). rewrite (fetchJSON_ok _ _ r Hnet Hok).
  unfold settle. rewrite Hok, Hjson. reflexivity.
Qed.

Lemma getAniListAnime_loop_pages userId : forall (pages : list (list Media)) fuel page out w,
  pages <> [] -> (length pages <= fuel)%nat ->
  (forall i ms, pages !! i = Some ms ->
     exists r, net env (fetches (Trainer.io w) + i) (pageRequest userId (page + Z.of_nat i))
               = Responded r /\
               servesPage r ms (bool_decide (S i < length pages)%nat)) ->
  exists io',
    Trainer.getAniListAnime_loop env fuel userId page 50 out w
    = (Ok (out ++ map Trainer.entryOf (concat pages)), Trainer.setIo io' w) /\
    fetches io' = (fetches (Trainer.io w) + length pages)%nat /\
    draws io' = draws (Trainer.io w) /\
    trace io' = trace (Trainer.io w) ++ pagingEvents userId page (length pages).
Proof.
  induction pages as [|ms pages IH]; intros fuel page out w Hne Hfuel Hnet; [contradiction|].
  destruct fuel as [|fuel]; [simpl in Hfuel; lia|].
  destruct (Hnet 0%nat ms eq_refl) as (r & Hr & Hserves).
  rewrite Nat.add_0_r, Z.add_0_r in Hr.
  cbn [Trainer.getAniListAnime_loop]. unfold bind at 1.
  rewrite (postJSON_page userId page w r ms _ Hr Hserves).
  destruct pages as [|ms' pages].
  - simpl bool_decide. rewrite bool_decide_eq_false_2 by (simpl; lia).
    cbn [negb]. unfold ret. eexists. split; [|split; [|split]].
    + simpl concat. rewrite app_nil_r. reflexivity.
    + simpl. lia.
    + reflexivity.
    + reflexivity.
  - rewrite bool_decide_eq_true_2 by (simpl; lia). cbn [negb].
    unfold bind at 1. rewrite inIo_run. unfold sleep at 1. cbn [fst snd].
    match goal with
    | |- context [Trainer.getAniListAnime_loop env fuel userId (page + 1) 50 ?o ?w1] =>
        destruct (IH fuel (page + 1) o w1) as (io' & Hrun & Hf & Hd & Ht)
    end.
    + discriminate.
    + simpl in *. lia.
    + intros i ms2 Hi. destruct (Hnet (S i) ms2 Hi) as (r2 & Hr2 & Hs2).
      exists r2. split.
      * cbn. replace (page + 1 + Z.of_nat i) with (page + Z.of_nat (S i)) by lia.
        rewrite <- Hr2. f_equal. lia.
      * replace (bool_decide (S i < length (ms' :: pages))%nat)
          with (bool_decide (S (S i) < length (ms :: ms' :: pages))%nat); [exact Hs2|].
        apply bool_decide_ext. simpl. lia.
    + rewrite Hrun. exists io'. split; [|split; [|split]].
      * simpl concat. rewrite !map_app, <- !app_assoc. reflexivity.
      * rewrite Hf. cbn. lia.
      * rewrite Hd. reflexivity.
      * rewrite Ht. cbn [Trainer.io Trainer.setIo trace afterFetch sleep snd].
        rewrite <- ?app_assoc. reflexivity.
Qed.

(** X8.  [getAniListAnime] asks for the pages 1, 2, ... of 50 entries;
    when the service answers with the pages [pages], all but the last
    announcing a next page, it returns the media of all pages in page
    order, each mapped by [entryOf], after one fetch per page and a sleep
    of 400 ms between two pages. *)
Theorem getAniListAnime_reads_every_page userId (pages : list (list Media)) fuel w :
  pages <> [] -> (length pages <= fuel)%nat ->
  (forall i ms, pages !! i = Some ms ->
     exists r, net env (fetches (Trainer.io w) + i) (pageRequest userId (1 + Z.of_nat i))
               = Responded r /\
               servesPage r ms (bool_decide (S i < length pages)%nat)) ->
  exists io',
    Trainer.getAniListAnime env fuel userId w
    = (Ok (map Trainer.entryOf (concat pages)), Trainer.setIo io' w) /\
    fetches io' = (fetches (Trainer.io w) + length pages)%nat /\
    trace io' = trace (Trainer.io w) ++ pagingEvents userId 1 (length pages).
Proof.
  intros Hne Hfuel Hnet.
  destruct (getAniListAnime_loop_pages userId pages fuel 1 [] w Hne Hfuel Hnet)
    as (io' & Hrun & Hf & _ & Ht).
  exists io'. split; [exact Hrun|]. split; assumption.
Qed.

Lemma getAniListAnime_loop_endless userId : forall fuel page out w,
  (forall n req, exists r ms, net env n req = Responded r /\ servesPage r ms true) ->
  exists io',
    Trainer.getAniListAnime_loop env fuel userId page 50 out w
    = (Diverge, Trainer.setIo io' w) /\
    fetches io' = (fetches (Trainer.io w) + fuel)%nat.
Proof.
  induction fuel as [|fuel IH]; intros page out w Hnet.
  - exists (Trainer.io w). split; [destruct w; reflexivity|lia].
  - destruct (Hnet (fetches (Trainer.io w)) (pageRequest userId page)) as (r & ms & Hr & Hs).
    cbn [Trainer.getAniListAnime_loop]. unfold bind at 1.
    rewrite (postJSON_page userId page w r ms _ Hr Hs). cbn [negb].
    unfold bind at 1. rewrite inIo_run. unfold sleep at 1. cbn [fst snd].
    match goal with
    | |- context [Trainer.getAniListAnime_loop env fuel userId (page + 1) 50 ?o ?w1] =>
        destruct (IH (page + 1) o w1 Hnet) as (io' & Hrun & Hf)
    end.
    rewrite Hrun. exists io'. split; [reflexivity|].
    rewrite Hf. cbn. lia.
Qed.

(** X9.  [getAniListAnime] has no page limit: on a list service every
    page of which announces a next page, the loop has not returned within
    any number of turns, and it has sent one request per turn. *)
Theorem getAniListAnime_has_no_page_limit userId fuel w :
  (forall n req, exists r ms, net env n req = Responded r /\ servesPage r ms true) ->
  exists io',
    Trainer.getAniListAnime env fuel userId w = (Diverge, Trainer.setIo io' w) /\
    fetches io' = (fetches (Trainer.io w) + fuel)%nat.
Proof. intros Hnet. apply getAniListAnime_loop_endless, Hnet. Qed.

End Paging.

Lemma getAniListAnime_reads_every_page_witness :
  exists io',
    Trainer.getAniListAnime twoPages 2 5 sampleWorld
    = (Ok (map Trainer.entryOf [media3; media7]), Trainer.setIo io' sampleWorld) /\
    fetches io' = 2%nat /\
    trace io' = pagingEvents 5 1 2.
Proof.
  apply (getAniListAnime_reads_every_page twoPages 5 [[media3]; [media7]] 2 sampleWorld).
  - discriminate.
  - simpl. lia.
  - intros [|[|i]] ms Hms; simpl in Hms; inversion Hms; eexists;
      (split; [reflexivity|split; reflexivity]).
Defined.

Lemma getAniListAnime_has_no_page_limit_witness :
  exists io',
    Trainer.getAniListAnime endlessPages 4 5 sampleWorld
    = (Diverge, Trainer.setIo io' sampleWorld) /\
    fetches io' = 4%nat.
Proof.
  apply (getAniListAnime_has_no_page_limit endlessPages 5 4 sampleWorld).
  intros n req. exists (r200 (JPage [media7] true)), [media7].
  split; [reflexivity|split; reflexivity].
Defined.

(** * Further properties of the theme resolver *)

Section ThemeFacts.

Lemma firstVideoUrl_first entries :
  Trainer.firstVideoUrl entries ""
  = hd "" (filter (fun u => u <> "") (map entryUrl entries)).
Proof.
  induction entries as [|e entries IH]; [reflexivity|].
  cbn [Trainer.firstVideoUrl map].
  pose proof (eq_refl (entryUrl e)) as Hurl. unfold entryUrl at 2 in Hurl.
  destruct (orDefault (videos e) []) as [|v vs].
  - rewrite filter_cons_False by (rewrite Hurl; intros H; apply H; reflexivity). exact IH.
  - destruct (decide (strOr (link v) (strOr (audio v) "") = "")) as [He|He].
    + rewrite filter_cons_False by (rewrite Hurl, He; intros H; apply H; reflexivity).
      rewrite He. exact IH.
    + rewrite filter_cons_True by (rewrite Hurl; exact He). rewrite Hurl. reflexivity.
Qed.

(** X10.  The video url [fetchByUrl] gives an opening is the first
    non-empty one among the urls the first videos of the theme's entries
    offer (the link, else the audio), and the empty string when there is
    none; the videos after the first of an entry are never looked at. *)
Theorem firstVideoUrl_is_first_usable entries :
  Trainer.firstVideoUrl entries ""
  = hd "" (filter (fun u => u <> "") (map entryUrl entries)).
Proof. apply firstVideoUrl_first. Qed.

(** X11.  The loop of [fetchByUrl] over the themes keeps the themes whose
    type is OP in any letter case, in their order, each with its sequence
    number, its song title (the empty string when missing) and its video
    url; every opening it returns has the type "OP" and no artists. *)
Theorem openingsOf_keeps_the_openings themes :
  map Trainer.number (Trainer.openingsOf themes) = map sequence (filter isOpening themes) /\
  map Trainer.op_songTitle (Trainer.openingsOf themes)
  = map (fun t => orDefault (song_title t) "") (filter isOpening themes) /\
  map Trainer.op_videoUrl (Trainer.openingsOf themes)
  = map (fun t => hd "" (filter (fun u => u <> "")
                           (map entryUrl (orDefault (animethemeentries t) []))))
        (filter isOpening themes) /\
  Forall (fun op => Trainer.op_type op = "OP" /\ Trainer.op_artists op = "")
         (Trainer.openingsOf themes).
Proof.
  induction themes as [|t themes (IH1 & IH2 & IH3 & IH4)].
  - repeat split; constructor.
  - cbn [Trainer.openingsOf].
    destruct (decide (Trainer.toUpperCase (orDefault (type t) "") = "OP")) as [Hop|Hop].
    + rewrite (filter_cons_True isOpening) by exact Hop. cbn [map].
      cbn [Trainer.number Trainer.op_songTitle Trainer.op_videoUrl].
      rewrite IH1, IH2, IH3, firstVideoUrl_first.
      repeat split; try reflexivity. constructor; [split; reflexivity|exact IH4].
    + rewrite (filter_cons_False isOpening) by exact Hop.
      repeat split; assumption.
Qed.

End ThemeFacts.

Section ResolverBudget.
Variable env : Env.

Lemma totalSleep_app evs evs' : totalSleep (evs ++ evs') = totalSleep evs + totalSleep evs'.
Proof.
  induction evs as [|[req|ms] evs IH]; simpl; [reflexivity|exact IH|].
  unfold totalSleep in *. simpl. rewrite IH. lia.
Qed.

Lemma spends_refl io : spends io io 0 0.
Proof. split; [lia|]. exists []. split; [rewrite app_nil_r; reflexivity|reflexivity]. Qed.

Lemma spends_trans io1 io2 io3 m n s t :
  spends io1 io2 m s -> spends io2 io3 n t -> spends io1 io3 (m + n) (s + t).
Proof.
  intros [Hf1 (evs1 & Ht1 & Hs1)] [Hf2 (evs2 & Ht2 & Hs2)]. split; [lia|].
  exists (evs1 ++ evs2). split.
  - rewrite Ht2, Ht1, app_assoc. reflexivity.
  - rewrite totalSleep_app. lia.
Qed.

Lemma spends_weaken io io' m n s : spends io io' m s -> (m <= n)%nat -> spends io io' n s.
Proof. intros [Hf He] Hmn. split; [lia|exact He]. Qed.

Lemma retryTrace_sleeps req evs : retryTrace req evs -> 0 <= totalSleep evs.
Proof.
  induction 1 as [|ms evs Hms _ IH]; [simpl; lia|].
  change (0 <= ms + totalSleep evs). lia.
Qed.

Lemma fetchJSON_budget req io :
  exists r io' s,
    fetchJSON env req io = (r, io') /\ r <> Diverge /\ 0 <= s /\ spends io io' 7 s.
Proof.
  destruct (loop_terminates env req (Z.to_nat MAX_RETRIES) 0 io)
    as (r & io' & evs & Hrun & Hr & Ht & Hshape & _ & Hf); [lia|reflexivity|].
  exists r, io', (totalSleep evs). unfold fetchJSON. rewrite Hrun by lia.
  split; [reflexivity|]. split; [exact Hr|]. split; [eapply retryTrace_sleeps, Hshape|].
  split; [change (S (Z.to_nat MAX_RETRIES)) with 7%nat in Hf; lia|]. exists evs. split; [exact Ht|reflexivity].
Qed.

Lemma fetchByUrl_budget url w :
  exists r io' s,
    Trainer.fetchByUrl env url w = (r, Trainer.setIo io' w) /\ r <> Diverge /\
    0 <= s /\ spends (Trainer.io w) io' 7 s.
Proof.
  unfold Trainer.fetchByUrl, bind. rewrite inIo_run.
  destruct (fetchJSON_budget (mkRequest url None) (Trainer.io w))
    as (r & io' & s & Hrun & Hr & Hs & Hf).
  rewrite Hrun. simpl. destruct r as [j|e|]; [| |contradiction].
  - exists (Ok match match j with JAnime l => l | _ => [] end with
               | [] => []
               | a :: _ => Trainer.openingsOf (orDefault (animethemes a) [])
               end), io', s.
    split; [|split; [discriminate|split; assumption]].
    destruct j as [| | |[|a l]|]; reflexivity.
  - exists (Throw e), io', s. split; [reflexivity|]. split; [discriminate|split; assumption].
Qed.

Lemma firstMatch_budget variants : forall w,
  exists r io' s,
    firstMatch env variants w = (r, Trainer.setIo io' w) /\ r <> Diverge /\
    0 <= s /\ spends (Trainer.io w) io' (7 * length variants) s.
Proof.
  induction variants as [|title rest IH]; intros w.
  - exists (Ok []), (Trainer.io w), 0. split; [destruct w; reflexivity|].
    split; [discriminate|]. split; [lia|apply spends_refl].
  - simpl firstMatch. unfold bind.
    destruct (fetchByUrl_budget (Trainer.themesUrl title) w)
      as (r & io1 & s1 & Hrun & Hr & Hs1 & Hf).
    rewrite Hrun. destruct r as [results|e|]; [| |contradiction].
    + destruct (length results =? 0)%nat.
      * destruct (IH (Trainer.setIo io1 w)) as (r2 & io2 & s2 & Hrun2 & Hr2 & Hs2 & Hf2).
        exists r2, io2, (s1 + s2). rewrite Hrun2. split; [reflexivity|]. split; [exact Hr2|].
        split; [lia|].
        eapply spends_weaken; [eapply spends_trans; [exact Hf|exact Hf2]|simpl; lia].
      * exists (Ok results), io1, s1. split; [reflexivity|]. split; [discriminate|].
        split; [exact Hs1|]. eapply spends_weaken; [exact Hf|simpl; lia].
    + exists (Throw e), io1, s1. split; [reflexivity|]. split; [discriminate|].
      split; [exact Hs1|]. eapply spends_weaken; [exact Hf|simpl; lia].
Qed.

Lemma getOpenings_budget cache anilistId tR tE tN w :
  exists r io' s,
    r <> Diverge /\
    Trainer.getOpeningsForAniListId env cache anilistId tR tE tN w
    = (r, match r, cache !! pretty anilistId with
          | Ok results, None =>
              Trainer.setCache (<[pretty anilistId := results]> cache) (Trainer.setIo io' w)
          | _, _ => Trainer.setIo io' w
          end) /\
    0 <= s /\ spends (Trainer.io w) io' 21 s.
Proof.
  rewrite getOpenings_refines. unfold resolve.
  destruct (cache !! pretty anilistId) as [cached|].
  - exists (Ok cached), (Trainer.io w), 0. split; [discriminate|].
    split; [destruct w; reflexivity|]. split; [lia|].
    eapply spends_weaken; [apply spends_refl|lia].
  - unfold bind.
    destruct (firstMatch_budget (filter (fun title => title <> "") [tR; tE; tN]) w)
      as (r & io' & s & Hrun & Hr & Hs & Hf).
    rewrite Hrun. exists r, io', s. split; [exact Hr|]. split.
    + destruct r; [reflexivity|reflexivity|contradiction].
    + split; [exact Hs|]. eapply spends_weaken; [exact Hf|].
      pose proof (length_filter (fun title => title <> "") [tR; tE; tN]) as Hlen.
      simpl length in Hlen at 2. lia.
Qed.

(** X12.  A call of the resolver returns or throws after at most
    3 * (MAX_RETRIES + 1) = 21 fetches: at most three title variants, each
    fetched at most seven times. *)
Theorem resolver_request_budget cache anilistId tR tE tN w :
  exists r w',
    Trainer.getOpeningsForAniListId env cache anilistId tR tE tN w = (r, w') /\
    r <> Diverge /\
    (fetches (Trainer.io w) <= fetches (Trainer.io w')
     <= fetches (Trainer.io w) + 3 * S (Z.to_nat MAX_RETRIES))%nat.
Proof.
  destruct (getOpenings_budget cache anilistId tR tE tN w)
    as (r & io' & s & Hr & Hrun & _ & Hf & _).
  eexists r, _. split; [exact Hrun|]. split; [exact Hr|].
  change (3 * S (Z.to_nat MAX_RETRIES))%nat with 21%nat.
  destruct r as [results|e|]; [destruct (cache !! pretty anilistId)| |]; exact Hf.
Qed.

(** X13.  A resolver call that throws was a cache miss, and it leaves
    the cache, the cards, the id set, the error message and the progress
    as they were: a failed resolution is not cached, so a later run asks
    again. *)
Theorem failed_resolution_writes_nothing cache anilistId tR tE tN w e w' :
  Trainer.getOpeningsForAniListId env cache anilistId tR tE tN w = (Throw e, w') ->
  cache !! pretty anilistId = None /\
  Trainer.cache w' = Trainer.cache w /\
  Trainer.cards w' = Trainer.cards w /\
  Trainer.idsRef w' = Trainer.idsRef w /\
  Trainer.error w' = Trainer.error w /\
  Trainer.progress w' = Trainer.progress w.
Proof.
  intros Hrun.
  destruct (getOpenings_budget cache anilistId tR tE tN w)
    as (r & io' & s & Hr & Hrun' & _).
  rewrite Hrun in Hrun'. inversion Hrun'; subst r w'. clear Hrun'.
  split; [|repeat split].
  destruct (cache !! pretty anilistId) as [cached|] eqn:Hhit; [|reflexivity].
  rewrite (getOpenings_hit env _ _ _ _ _ _ _ Hhit) in Hrun. discriminate.
Qed.

(** The pause sleeps once, for the delay of the closure and a jitter. *)
Lemma pause_budget cl w :
  exists io' s,
    Trainer.pause env cl w = (Ok tt, Trainer.setIo io' w) /\
    Trainer.delayMs cl <= s /\ spends (Trainer.io w) io' 0 s.
Proof.
  unfold Trainer.pause, bind, Trainer.inIo, liftIo, Math_random, sleep. simpl.
  pose proof (jitter_range (random env (draws (Trainer.io w)))) as Hj.
  eexists _, _. split; [reflexivity|]. split; [|split].
  - instantiate (1 := Trainer.delayMs cl
        + Math_floor (u_val (random env (draws (Trainer.io w))) * inject_Z JITTER_MS)).
    lia.
  - simpl. lia.
  - eexists. split; [reflexivity|]. simpl. lia.
Qed.

Lemma turn_budget cl m w :
  exists w' s,
    tryCatch (Trainer.importShow env cl m) (fun _ => modify Trainer.countFailure) w
    = (Ok tt, w') /\
    0 <= s /\ spends (Trainer.io w) (Trainer.io w') 21 s.
Proof.
  unfold tryCatch. rewrite importShow_run.
  destruct (getOpenings_budget (Trainer.seen_cache cl) (Trainer.anilistId m)
              (Trainer.titleRomaji m) (Trainer.titleEnglish m) (Trainer.titleNative m) w)
    as (r & io' & s & Hr & Hrun & Hs & Hf).
  rewrite Hrun. clear Hrun. destruct r as [ops|e|]; [| |contradiction].
  - eexists _, s. split; [reflexivity|]. split; [exact Hs|].
    assert (Hio : forall w0, Trainer.io (Trainer.stageShow m ops w0) = Trainer.io w0).
    { intros w0. unfold Trainer.stageShow.
      destruct (Trainer.stage m ops (Trainer.idsRef w0)) as [[ids' newCards] added].
      destruct (length newCards =? 0)%nat; reflexivity. }
    rewrite Hio. destruct (Trainer.seen_cache cl !! pretty (Trainer.anilistId m)); exact Hf.
  - eexists _, s. split; [reflexivity|]. split; [exact Hs|exact Hf].
Qed.

Lemma importLoop_budget cl shows : forall i w,
  (forall j, cancelRequested env j = false) ->
  exists w' s,
    Trainer.importLoop env cl i shows w = (Ok tt, w') /\
    Z.of_nat (length shows) * Trainer.delayMs cl <= s /\
    spends (Trainer.io w) (Trainer.io w') (21 * length shows) s.
Proof.
  induction shows as [|m rest IH]; intros i w Hgo.
  - exists w, 0. split; [reflexivity|]. split; [simpl; lia|apply spends_refl].
  - simpl Trainer.importLoop. rewrite Hgo. unfold bind at 1.
    destruct (turn_budget cl m w) as (w1 & s1 & Hturn & Hs1 & Hf1). rewrite Hturn.
    unfold bind at 1.
    destruct (pause_budget cl w1) as (io2 & s2 & Hpause & Hs2 & Hf2). rewrite Hpause.
    destruct (IH (S i) (Trainer.setIo io2 w1) Hgo) as (w' & s3 & Hloop & Hs3 & Hf3).
    exists w', (s1 + s2 + s3). split; [exact Hloop|]. split.
    + simpl length. lia.
    + eapply spends_weaken.
      * eapply spends_trans; [eapply spends_trans; [exact Hf1|exact Hf2]|exact Hf3].
      * simpl. lia.
Qed.

(** X14.  An import loop over [n] shows that is not cancelled returns
    after sleeping at least n * delayMs in total and after at most 21 * n
    fetches. *)
Theorem import_loop_is_polite cl shows w :
  (forall j, cancelRequested env j = false) ->
  exists w' evs,
    Trainer.importLoop env cl 0 shows w = (Ok tt, w') /\
    trace (Trainer.io w') = trace (Trainer.io w) ++ evs /\
    Z.of_nat (length shows) * Trainer.delayMs cl <= totalSleep evs /\
    (fetches (Trainer.io w') <= fetches (Trainer.io w)
       + length shows * (3 * S (Z.to_nat MAX_RETRIES)))%nat.
Proof.
  intros Hgo.
  destruct (importLoop_budget cl shows 0%nat w Hgo) as (w' & s & Hloop & Hs & Hf & evs & Ht & He).
  exists w', evs. split; [exact Hloop|]. split; [exact Ht|]. split; [lia|].
  change (3 * S (Z.to_nat MAX_RETRIES))%nat with 21%nat. lia.
Qed.

End ResolverBudget.

Lemma failed_resolution_writes_nothing_witness :
  exists e w',
    Trainer.getOpeningsForAniListId steadyEnv ∅ 99 "Unknown Show" "" "" sampleWorld
    = (Throw e, w') /\
    (∅ : gmap string (list Trainer.Opening)) !! pretty 99 = None /\
    Trainer.cache w' = Trainer.cache sampleWorld /\
    Trainer.cards w' = Trainer.cards sampleWorld /\
    Trainer.idsRef w' = Trainer.idsRef sampleWorld /\
    Trainer.error w' = Trainer.error sampleWorld /\
    Trainer.progress w' = Trainer.progress sampleWorld.
Proof.
  eassert (Hthrow :
    Trainer.getOpeningsForAniListId steadyEnv ∅ 99 "Unknown Show" "" "" sampleWorld
    = (Throw _, _)) by (vm_compute; reflexivity).
  eexists _, _. split; [exact Hthrow|].
  exact (failed_resolution_writes_nothing steadyEnv ∅ 99 "Unknown Show" "" "" sampleWorld
           _ _ Hthrow).
Defined.

Lemma import_loop_is_polite_witness :
  exists w' evs,
    Trainer.importLoop steadyEnv (Trainer.render sampleWorld 250 500) 0
      [unknownShow; knownShow] sampleWorld = (Ok tt, w') /\
    trace (Trainer.io w') = evs /\
    2 * 500 <= totalSleep evs /\
    (fetches (Trainer.io w') <= 42)%nat.
Proof.
  exact (import_loop_is_polite steadyEnv (Trainer.render sampleWorld 250 500)
           [unknownShow; knownShow] sampleWorld (fun j => eq_refl)).
Defined.

(** * Further properties of the import run *)

Section RunFacts.
Variable env : Env.

Lemma postJSON_returns url vars w :
  exists r io',
    Trainer.inIo (postJSON env url vars) w = (r, Trainer.setIo io' w) /\ r <> Diverge.
Proof.
  rewrite inIo_run. unfold postJSON.
  pose proof (fetchJSON_returns_or_throws env (mkRequest url (Some vars)) (Trainer.io w)) as Hd.
  destruct (fetchJSON env (mkRequest url (Some vars)) (Trainer.io w)) as [r io'].
  exists r, io'. split; [reflexivity|exact Hd].
Qed.

Lemma getAniListUserId_returns name w :
  exists r io',
    Trainer.getAniListUserId env name w = (r, Trainer.setIo io' w) /\ r <> Diverge.
Proof.
  unfold Trainer.getAniListUserId, bind.
  destruct (postJSON_returns ANILIST_GQL (VarsName name) w) as (r & io' & Hrun & Hr).
  rewrite Hrun. destruct r as [j|e|]; [| |contradiction].
  - destruct j as [[u|]| | | |]; eexists _, io'; (split; [reflexivity|discriminate]).
  - exists (Throw e), io'. split; [reflexivity|discriminate].
Qed.

Lemma turn_cache cl m w :
  exists w',
    tryCatch (Trainer.importShow env cl m) (fun _ => modify Trainer.countFailure) w
    = (Ok tt, w') /\
    cacheStep cl (Trainer.cache w) (Trainer.cache w').
Proof.
  unfold tryCatch. rewrite importShow_run.
  destruct (getOpenings_run env (Trainer.seen_cache cl) (Trainer.anilistId m)
              (Trainer.titleRomaji m) (Trainer.titleEnglish m) (Trainer.titleNative m) w)
    as (r & io' & Hr & Hrun).
  rewrite Hrun. destruct r as [ops|e|]; [| |contradiction].
  - eexists. split; [reflexivity|].
    assert (Hc : forall w0, Trainer.cache (Trainer.stageShow m ops w0) = Trainer.cache w0).
    { intros w0. unfold Trainer.stageShow.
      destruct (Trainer.stage m ops (Trainer.idsRef w0)) as [[ids' newCards] added].
      destruct (length newCards =? 0)%nat; reflexivity. }
    rewrite Hc.
    destruct (Trainer.seen_cache cl !! pretty (Trainer.anilistId m)) eqn:Hlook.
    + left. reflexivity.
    + right. eexists _, _. split; [exact Hlook|reflexivity].
  - eexists. split; [reflexivity|]. left. reflexivity.
Qed.

Lemma cacheStep_trans cl a b c :
  cacheStep cl a b -> cacheStep cl b c -> cacheStep cl a c.
Proof.
  intros [->|H1] [->|H2]; [left; reflexivity|right; exact H2|right; exact H1|right; exact H2].
Qed.

Lemma importLoop_cache cl shows : forall i w,
  exists w',
    Trainer.importLoop env cl i shows w = (Ok tt, w') /\
    cacheStep cl (Trainer.cache w) (Trainer.cache w').
Proof.
  induction shows as [|m rest IH]; intros i w.
  - exists w. split; [reflexivity|left; reflexivity].
  - simpl. destruct (cancelRequested env i); [exists w; split; [reflexivity|left; reflexivity]|].
    unfold bind at 1.
    destruct (turn_cache cl m w) as (w1 & Hturn & Hc1). rewrite Hturn.
    unfold bind at 1.
    destruct (pause_run env cl w1) as (io2 & Hpause). rewrite Hpause.
    destruct (IH (S i) (Trainer.setIo io2 w1)) as (w' & Hloop & Hc').
    exists w'. split; [exact Hloop|]. eapply cacheStep_trans; eassumption.
Qed.

Lemma try_outcome fuel cl name w :
  exists r w1,
    Trainer.buildDeck_try env fuel cl name w = (r, w1) /\
    match r with
    | Ok _ => exists wf, w1 = Trainer.finalDedupe wf /\
                         cacheStep cl (Trainer.cache w) (Trainer.cache wf)
    | Throw _ => cacheStep cl (Trainer.cache w) (Trainer.cache w1)
    | Diverge => exists uid w0, Trainer.getAniListAnime env fuel uid w0 = (Diverge, w1)
    end.
Proof.
  unfold Trainer.buildDeck_try, bind at 1.
  destruct (getAniListUserId_returns (Trainer.trim name) w) as (r1 & io1 & Hrun1 & Hr1).
  rewrite Hrun1. destruct r1 as [uid|e|]; [| |contradiction].
  - unfold bind at 1.
    destruct (getAniListAnime_loop_run env fuel uid 1 50 [] (Trainer.setIo io1 w))
      as (r2 & io2 & Hrun2).
    unfold Trainer.getAniListAnime at 1. rewrite Hrun2.
    destruct r2 as [anime|e|].
    + rewrite importEntries_outcome. cbv zeta.
      destruct (length (take (Z.to_nat (Z.max 10 (Trainer.maxShows cl))) anime) =? 0)%nat.
      * eexists _, _. split; [reflexivity|left; reflexivity].
      * match goal with |- context [Trainer.importLoop env cl 0 ?l ?w1] =>
          destruct (importLoop_cache cl l 0%nat w1) as (wf & Hloop & Hc) end.
        rewrite Hloop. eexists _, _. split; [reflexivity|].
        exists wf. split; [reflexivity|exact Hc].
    + eexists _, _. split; [reflexivity|left; reflexivity].
    + eexists _, _. split; [reflexivity|].
      exists uid, (Trainer.setIo io1 w). unfold Trainer.getAniListAnime. exact Hrun2.
  - eexists _, _. split; [reflexivity|left; reflexivity].
Qed.

(** X15.  [buildDeckFromAniList] never throws.  Either it returns, with
    [loading] false and no two cards sharing an id; or the page loop of
    [getAniListAnime] has not ended within the turns granted. *)
Theorem import_run_settles fuel cl name w :
  (exists w',
     Trainer.buildDeckFromAniList env fuel cl name w = (Ok tt, w') /\
     Trainer.loading w' = false /\
     NoDup (map Trainer.id (Trainer.cards w'))) \/
  (exists uid w0 w',
     Trainer.buildDeckFromAniList env fuel cl name w = (Diverge, w') /\
     Trainer.getAniListAnime env fuel uid w0 = (Diverge, w')).
Proof.
  rewrite buildDeck_outcome.
  destruct (try_outcome fuel cl name (Trainer.buildDeck_begin cl w))
    as (r & w1 & Htry & Hr); rewrite Htry.
  destruct r as [[]|e|].
  - destruct Hr as (wf & -> & _).
    left. eexists. split; [reflexivity|]. split; [reflexivity|].
    destruct (finalDedupe_cards wf) as [Hcards _].
    remember (Trainer.finalDedupe wf) as wd. cbn. rewrite Hcards.
    apply dedupeBy_NoDup.
  - left. eexists. split; [reflexivity|]. split; [reflexivity|]. constructor.
  - destruct Hr as (uid & w0 & Hdiv).
    right. exists uid, w0, w1. split; [reflexivity|exact Hdiv].
Qed.

(** X16.  A run adds at most one entry to the cache.  Every call of the
    resolver in a run reads the cache of the render that started the run
    and writes that cache plus its own entry, so the cache a run leaves is
    the one it found, or the one its closure saw with a single entry
    more. *)
Theorem one_cache_entry_per_run fuel cl name w w' :
  Trainer.buildDeckFromAniList env fuel cl name w = (Ok tt, w') ->
  Trainer.cache w' = Trainer.cache w \/
  exists k results,
    Trainer.seen_cache cl !! k = None /\
    Trainer.cache w' = <[k := results]> (Trainer.seen_cache cl).
Proof.
  rewrite buildDeck_outcome.
  destruct (try_outcome fuel cl name (Trainer.buildDeck_begin cl w))
    as (r & w1 & Htry & Hr); rewrite Htry.
  destruct r as [[]|e|]; intros Heq; inversion Heq; subst w'; clear Heq.
  - destruct Hr as (wf & -> & Hc).
    destruct (finalDedupe_cards wf) as [_ Hcache].
    remember (Trainer.finalDedupe wf) as wd. cbn. rewrite Hcache. exact Hc.
  - exact Hr.
Qed.

End RunFacts.

Lemma one_cache_entry_per_run_witness :
  let cl := Trainer.render sampleWorld 250 500 in
  let w' := (Trainer.buildDeckFromAniList steadyEnv 3 cl "melfisk" sampleWorld).2 in
  Trainer.cache w' = Trainer.cache sampleWorld \/
  exists k results,
    Trainer.seen_cache cl !! k = None /\
    Trainer.cache w' = <[k := results]> (Trainer.seen_cache cl).
Proof.
  intros cl w'.
  apply (one_cache_entry_per_run steadyEnv 3 cl "melfisk" sampleWorld w').
  vm_compute. reflexivity.
Defined.

(** ** The progress counters *)

Section ProgressFacts.
Variable env : Env.

Lemma stage_counts m ops (ids0 : gset string) : forall acc,
  acc.2 = Z.of_nat (length acc.1.2) ->
  NoDup (map Trainer.id acc.1.2) ->
  acc.1.1 = ids0 ∪ idSet acc.1.2 ->
  (forall c, c ∈ acc.1.2 -> Trainer.id c ∉ ids0) ->
  let res := fold_left (Trainer.stageOp m) ops acc in
  res.2 = Z.of_nat (length res.1.2) /\
  NoDup (map Trainer.id res.1.2) /\
  (forall c, c ∈ res.1.2 -> Trainer.id c ∉ ids0).
Proof.
  induction ops as [|op ops IH]; intros [[ids newCards] added] Hn Hnd Hids Hfresh; simpl in *.
  - repeat split; assumption.
  - fold (opId m op). destruct (decide (opId m op ∈ ids)) as [Hin|Hin].
    + apply IH; assumption.
    + apply IH; simpl.
      * rewrite length_app. simpl. lia.
      * rewrite map_app. simpl. apply NoDup_app. split; [exact Hnd|]. split.
        -- intros k Hk Hk'. apply list_elem_of_singleton in Hk'. subst k.
           apply Hin. rewrite Hids. apply elem_of_union_r.
           unfold idSet. apply elem_of_list_to_set. exact Hk.
        -- apply NoDup_singleton.
      * rewrite idSet_app, Hids. unfold idSet at 3. simpl. set_solver.
      * intros c Hc. apply elem_of_app in Hc as [Hc|Hc]; [apply Hfresh, Hc|].
        apply list_elem_of_singleton in Hc. subst c. simpl.
        intros Hin0. apply Hin. rewrite Hids. apply elem_of_union_l, Hin0.
Qed.

Lemma stageShow_counts m ops w :
  inStep w ->
  let w' := Trainer.stageShow m ops w in
  inStep w' /\
  Trainer.processedShows (Trainer.progress w') = Trainer.processedShows (Trainer.progress w) + 1 /\
  Trainer.totalShows (Trainer.progress w') = Trainer.totalShows (Trainer.progress w) /\
  newOps w w' = newCardCount w w'.
Proof.
  intros [Hsync Hnd].
  destruct (stageShow_covers m ops w Hsync) as (Hsync' & _ & _ & _).
  unfold Trainer.stageShow, Trainer.stage in *.
  pose proof (stage_counts m ops (Trainer.idsRef w) (Trainer.idsRef w, [], 0)) as Hst.
  simpl in Hst. destruct Hst as (Hn & Hndn & Hfresh).
  { reflexivity. }
  { constructor. }
  { unfold idSet. simpl. set_solver. }
  { intros c Hc. apply elem_of_nil in Hc. contradiction. }
  destruct (fold_left (Trainer.stageOp m) ops (Trainer.idsRef w, [], 0))
    as [[ids' newCards] added]. simpl in *.
  unfold newOps, newCardCount.
  destruct newCards as [|c newCards]; simpl in *.
  - split; [split; assumption|]. repeat split; lia.
  - assert (Hall : NoDup (map Trainer.id (Trainer.cards w ++ c :: newCards))).
    { rewrite map_app. apply NoDup_app. split; [exact Hnd|]. split; [|exact Hndn].
      intros k Hk Hk'. apply list_elem_of_fmap in Hk' as (c' & -> & Hc').
      apply (Hfresh c' Hc'). rewrite Hsync. unfold idSet. apply elem_of_list_to_set. exact Hk. }
    unfold Trainer.dedupeById in *. rewrite dedupeBy_id in * by exact Hall.
    split; [split; [exact Hsync'|exact Hall]|].
    repeat split; try lia. rewrite length_app. simpl length. lia.
Qed.

Lemma turn_counts cl m w :
  inStep w ->
  exists w',
    tryCatch (Trainer.importShow env cl m) (fun _ => modify Trainer.countFailure) w
    = (Ok tt, w') /\
    inStep w' /\
    Trainer.processedShows (Trainer.progress w')
    = Trainer.processedShows (Trainer.progress w) + 1 /\
    Trainer.totalShows (Trainer.progress w') = Trainer.totalShows (Trainer.progress w) /\
    newOps w w' = newCardCount w w'.
Proof.
  intros Hstep. unfold tryCatch. rewrite importShow_run.
  destruct (getOpenings_run env (Trainer.seen_cache cl) (Trainer.anilistId m)
              (Trainer.titleRomaji m) (Trainer.titleEnglish m) (Trainer.titleNative m) w)
    as (r & io' & Hr & Hrun).
  rewrite Hrun. clear Hrun. destruct r as [ops|e|]; [| |contradiction].
  - eexists. split; [reflexivity|].
    match goal with |- context [Trainer.stageShow m ops ?wa] =>
      assert (Hwa : inStep wa /\ Trainer.progress wa = Trainer.progress w /\
                    Trainer.cards wa = Trainer.cards w)
        by (destruct (Trainer.seen_cache cl !! pretty (Trainer.anilistId m));
            (split; [exact Hstep|split; reflexivity]));
      destruct Hwa as (Hwa & Hp & Hc);
      destruct (stageShow_counts m ops wa Hwa) as (H1 & H2 & H3 & H4)
    end.
    unfold newOps, newCardCount in *. rewrite Hp, Hc in *.
    repeat split; try assumption; apply H1.
  - eexists. split; [reflexivity|]. unfold newOps, newCardCount. simpl.
    repeat split; try apply Hstep; lia.
Qed.

Lemma importLoop_counts cl shows : forall i w,
  inStep w ->
  exists w' (k : nat),
    Trainer.importLoop env cl i shows w = (Ok tt, w') /\
    inStep w' /\
    (k <= length shows)%nat /\
    (forall j, (j < k)%nat -> cancelRequested env (i + j) = false) /\
    ((k < length shows)%nat -> cancelRequested env (i + k) = true) /\
    Trainer.processedShows (Trainer.progress w')
    = Trainer.processedShows (Trainer.progress w) + Z.of_nat k /\
    Trainer.totalShows (Trainer.progress w') = Trainer.totalShows (Trainer.progress w) /\
    newOps w w' = newCardCount w w'.
Proof.
  induction shows as [|m rest IH]; intros i w Hstep.
  - exists w, 0%nat. unfold newOps, newCardCount. simpl.
    repeat split; try apply Hstep; try lia.
  - simpl Trainer.importLoop. destruct (cancelRequested env i) eqn:Hcancel.
    { exists w, 0%nat. unfold newOps, newCardCount. simpl.
      repeat split; try apply Hstep; try lia.
      intros _. rewrite Nat.add_0_r. exact Hcancel. }
    unfold bind at 1.
    destruct (turn_counts cl m w Hstep) as (w1 & Hturn & Hs1 & Hp1 & Ht1 & Ho1).
    rewrite Hturn. unfold bind at 1.
    destruct (pause_run env cl w1) as (io2 & Hpause). rewrite Hpause.
    destruct (IH (S i) (Trainer.setIo io2 w1) Hs1)
      as (w' & k & Hloop & Hs' & Hk & Hgo & Hstop & Hp' & Ht' & Ho').
    exists w', (S k). split; [exact Hloop|]. split; [exact Hs'|].
    unfold newOps, newCardCount in *. simpl in *.
    split; [lia|]. split; [|split; [|split; [|split]]].
    + intros [|j] Hj; [rewrite Nat.add_0_r; exact Hcancel|].
      rewrite <- Nat.add_succ_comm. apply Hgo. lia.
    + intros Hlt. rewrite <- Nat.add_succ_comm. apply Hstop. lia.
    + rewrite Hp', Hp1. lia.
    + congruence.
    + lia.
Qed.

(** X17.  The progress counters are exact.  When the id set and the cards
    are in step at the start, a run of the capped import that returns
    leaves [totalShows] at the number of shows taken, which is at most
    max(10, maxShows); [processedShows] at the number of turns made, which
    is [totalShows] unless a cancel was requested; and [totalOps] at the
    number of cards the run added. *)
Theorem progress_counts_are_exact cl anime w w' :
  Trainer.idsRef w = idSet (Trainer.cards w) ->
  NoDup (map Trainer.id (Trainer.cards w)) ->
  Trainer.importEntries env cl anime w = (Ok tt, w') ->
  exists k : nat,
    let n := length (take (Z.to_nat (Z.max 10 (Trainer.maxShows cl))) anime) in
    Trainer.progress w'
    = Trainer.mkProgress (Z.of_nat n) (Z.of_nat k)
        (Z.of_nat (length (Trainer.cards w')) - Z.of_nat (length (Trainer.cards w))) /\
    (k <= n)%nat /\ Z.of_nat n <= Z.max 10 (Trainer.maxShows cl) /\
    (forall j, (j < k)%nat -> cancelRequested env j = false) /\
    ((k < n)%nat -> cancelRequested env k = true).
Proof.
  intros Hsync Hnd. rewrite importEntries_outcome. cbv zeta.
  set (shows := take (Z.to_nat (Z.max 10 (Trainer.maxShows cl))) anime).
  destruct (length shows =? 0)%nat; [discriminate|].
  match goal with |- context [Trainer.importLoop env cl 0 shows ?w0] =>
    destruct (importLoop_counts cl shows 0%nat w0)
      as (wf & k & Hloop & [Hs' Hnd'] & Hk & Hgo & Hstop & Hp & Ht & Ho)
  end.
  { split; [exact Hsync|exact Hnd]. }
  rewrite Hloop. intros Heq. inversion Heq; subst w'. clear Heq.
  exists k.
  destruct (finalDedupe_cards wf) as [Hcards _].
  assert (Hprog : Trainer.progress (Trainer.finalDedupe wf) = Trainer.progress wf).
  { unfold Trainer.finalDedupe.
    destruct (length (Trainer.dedupeById (Trainer.cards wf)) =? 0)%nat; reflexivity. }
  rewrite Hprog, Hcards. unfold Trainer.dedupeById. rewrite dedupeBy_id by exact Hnd'.
  unfold newOps, newCardCount in Ho. simpl in *.
  split; [|split; [exact Hk|split; [|split; assumption]]].
  - destruct (Trainer.progress wf) as [ts ps to]. simpl in *. f_equal; lia.
  - unfold shows. rewrite length_take. lia.
Qed.

End ProgressFacts.

Lemma progress_counts_are_exact_witness :
  let cl := Trainer.render sampleWorld 250 500 in
  let w' := (Trainer.importEntries steadyEnv cl [knownShow; unknownShow] sampleWorld).2 in
  exists k : nat,
    Trainer.progress w'
    = Trainer.mkProgress 2 (Z.of_nat k) (Z.of_nat (length (Trainer.cards w')) - 0) /\
    (k <= 2)%nat /\ 2 <= 250 /\
    (forall j, (j < k)%nat -> cancelRequested steadyEnv j = false) /\
    ((k < 2)%nat -> cancelRequested steadyEnv k = true).
Proof.
  intros cl w'.
  refine (progress_counts_are_exact steadyEnv cl [knownShow; unknownShow] sampleWorld w' _ _ _).
  - vm_compute. reflexivity.
  - constructor.
  - vm_compute. reflexivity.
Defined.

(** * Further properties of the four-grade scheduler *)

Section Sm2Facts.

Lemma Math_round_ge (i : Z) (x : Q) :
  0 <= i -> (1 <= x)%Q -> i <= Trainer.Math_round (inject_Z i * x).
Proof.
  intros Hi Hx. unfold Trainer.Math_round.
  rewrite <- (Qfloor_Z i) at 1. apply Qfloor_resp_le.
  assert (0 <= inject_Z i)%Q by (change 0%Q with (inject_Z 0); rewrite <- Zle_Qle; exact Hi).
  nra.
Qed.

Lemma sm2Schedule_step now card quality :
  settled card -> easeWithin card ->
  exists e i r,
    Trainer.sm2Schedule now card quality
    = mkSrs (Some e) (Some i) (Some r) None None (Some (now + i)) /\
    (13 # 10 <= e <= 28 # 10)%Q /\
    Trainer.TEN_MINUTES <= i /\
    (r = 0 \/ r = orDefault (orDefault card emptySrs).(reps) 0 + 1).
Proof.
  intros Hs He. unfold easeWithin in He. unfold Trainer.sm2Schedule.
  set (c := orDefault card emptySrs) in *.
  set (ef0 := orDefault (ef c) (5 # 2)%Q) in *.
  assert (Hi : orDefault (reps c) 0 = 0 \/ orDefault (reps c) 0 = 1 \/
               Trainer.TEN_MINUTES <= orDefault (interval c) 0).
  { destruct card as [s|]; [exact Hs|left; reflexivity]. }
  clearbody c. clear Hs. unfold Trainer.TEN_MINUTES in *.
  destruct quality;
    (eexists _, _, _; split; [reflexivity|]; split; [|split]);
    try (right; reflexivity); try (left; reflexivity);
    try (split; [apply Q.le_max_l|]; apply Q.max_lub; [discriminate|]);
    try apply Q.le_min_l; try lra; try lia;
    repeat case_decide; try lia;
    (etransitivity; [|apply Math_round_ge]; [lia|lia|]);
    (apply Qle_trans with (13 # 10)%Q; [discriminate|apply Q.le_max_l]).
Qed.

Lemma gradeAll_snoc card history e :
  Trainer.gradeAll card (history ++ [e])
  = Some (Trainer.sm2Schedule e.1 (Trainer.gradeAll card history) e.2).
Proof. unfold Trainer.gradeAll. rewrite fold_left_app. reflexivity. Qed.

Lemma gradeAll_settled history :
  settled (Trainer.gradeAll None history) /\ easeWithin (Trainer.gradeAll None history) /\
  0 <= orDefault (orDefault (Trainer.gradeAll None history) emptySrs).(reps) 0
    <= Z.of_nat (length history).
Proof.
  induction history as [|[now quality] history (IHs & IHe & IHr)] using rev_ind.
  - split; [exact I|]. split; [|simpl; lia]. unfold easeWithin. simpl. split; discriminate.
  - rewrite gradeAll_snoc. cbn [fst snd].
    destruct (sm2Schedule_step now (Trainer.gradeAll None history) quality IHs IHe)
      as (e & i & r & -> & He & Hi & Hr).
    split; [right; right; exact Hi|]. split; [exact He|].
    rewrite length_app. simpl. lia.
Qed.

(** X18.  After any review history of a card that had no schedule, the
    schedule holds an ease factor within [1.3, 2.8], an interval of at
    least ten minutes, a due time that is the time of the last review plus
    the interval, and a repetition count between 0 and the number of
    reviews. *)
Theorem schedule_invariant history now quality :
  exists e i r,
    Trainer.gradeAll None (history ++ [(now, quality)])
    = Some (mkSrs (Some e) (Some i) (Some r) None None (Some (now + i))) /\
    (13 # 10 <= e <= 28 # 10)%Q /\
    Trainer.TEN_MINUTES <= i /\
    0 <= r <= Z.of_nat (length history) + 1.
Proof.
  rewrite gradeAll_snoc. cbn [fst snd].
  destruct (gradeAll_settled history) as (Hs & He & Hr).
  destruct (sm2Schedule_step now (Trainer.gradeAll None history) quality Hs He)
    as (e & i & r & -> & He' & Hi & Hr').
  exists e, i, r. split; [reflexivity|]. split; [exact He'|]. split; [exact Hi|lia].
Qed.

(** X19.  From the third repetition on, a grade other than Again makes
    the interval strictly longer, and at most three times as long (for an
    interval of at least 2 ms); the card is due one new interval from
    now. *)
Theorem later_reviews_lengthen_the_interval now s quality r i0 :
  quality <> Trainer.Again ->
  reps s = Some r -> r <> 0 -> r <> 1 ->
  interval s = Some i0 -> 2 <= i0 ->
  exists i1,
    interval (Trainer.sm2Schedule now (Some s) quality) = Some i1 /\
    due (Trainer.sm2Schedule now (Some s) quality) = Some (now + i1) /\
    i0 < i1 <= 3 * i0.
Proof.
  intros Hq Hr H0 H1 Hi Hi0. unfold Trainer.sm2Schedule. cbn [orDefault].
  rewrite Hr, Hi. cbn [orDefault].
  assert (Hround : forall x : Q, (13 # 10 <= x <= 28 # 10)%Q ->
            13 * i0 - 5 < 10 * Trainer.Math_round (inject_Z i0 * x) <= 28 * i0 + 5).
  { intros x [Hlo Hhi]. unfold Trainer.Math_round.
    set (y := (inject_Z i0 * x + (1 # 2))%Q).
    pose proof (Qfloor_le y) as Hfl. pose proof (Qlt_floor y) as Hfu.
    assert (Hpos : (0 <= inject_Z i0)%Q)
      by (change 0%Q with (inject_Z 0); rewrite <- Zle_Qle; lia).
    assert (Hy1 : (inject_Z i0 * (13 # 10) + (1 # 2) <= y)%Q) by (unfold y; nra).
    assert (Hy2 : (y <= inject_Z i0 * (28 # 10) + (1 # 2))%Q) by (unfold y; nra).
    clearbody y.
    rewrite inject_Z_plus in Hfu. change (inject_Z 1) with 1%Q in Hfu.
    assert (Ha : (inject_Z (13 * i0) < inject_Z (10 * Qfloor y + 5))%Q).
    { rewrite !inject_Z_plus, !inject_Z_mult.
      change (inject_Z 13) with 13%Q. change (inject_Z 10) with 10%Q.
      change (inject_Z 5) with 5%Q. lra. }
    assert (Hb : (inject_Z (10 * Qfloor y) <= inject_Z (28 * i0 + 5))%Q).
    { rewrite !inject_Z_plus, !inject_Z_mult.
      change (inject_Z 28) with 28%Q. change (inject_Z 10) with 10%Q.
      change (inject_Z 5) with 5%Q. lra. }
    rewrite <- Zlt_Qlt in Ha. rewrite <- Zle_Qle in Hb. lia. }
  assert (Hclamp : forall x : Q, (13 # 10 <= Qmax (13 # 10) (Qmin (28 # 10) x) <= 28 # 10)%Q).
  { intros x. split; [apply Q.le_max_l|]. apply Q.max_lub; [discriminate|apply Q.le_min_l]. }
  destruct quality; [contradiction| | |];
    cbn [interval due]; rewrite !decide_False by assumption;
    (eexists; split; [reflexivity|]; split; [reflexivity|]);
    match goal with |- context [Trainer.Math_round (inject_Z i0 * ?x)] =>
      pose proof (Hround x (Hclamp _)) end; lia.
Qed.

End Sm2Facts.

Lemma later_reviews_lengthen_the_interval_witness :
  exists i1,
    interval (Trainer.sm2Schedule 1000 (Some twoDaySrs) Trainer.Good) = Some i1 /\
    due (Trainer.sm2Schedule 1000 (Some twoDaySrs) Trainer.Good) = Some (1000 + i1) /\
    172800000 < i1 <= 3 * 172800000.
Proof.
  apply (later_reviews_lengthen_the_interval 1000 twoDaySrs Trainer.Good 2 172800000).
  - discriminate.
  - reflexivity.
  - lia.
  - lia.
  - reflexivity.
  - lia.
Defined.

(** * Properties of the deck of the trainer *)

Section DeckFacts.
Variable env : Env.

Lemma deck_run now cards srs filterQuery io :
  exists dueL laterL io',
    Trainer.deck env now cards srs filterQuery io
    = (Ok (Trainer.mkDeck
             (map (fun c => Trainer.mkDeckCard c (orDefault (srs !! Trainer.id c) Trainer.NEW_SRS))
                (filter (fun c => Trainer.matchesFilter
                                    (toLowerCase (Trainer.trim filterQuery)) c = true) cards))
             (Some <$> dueL) (Some <$> laterL)), io') /\
    dueL ≡ₚ filter (fun c => dueTime c <= now)
              (map (fun c => Trainer.mkDeckCard c (orDefault (srs !! Trainer.id c) Trainer.NEW_SRS))
                 (filter (fun c => Trainer.matchesFilter
                                     (toLowerCase (Trainer.trim filterQuery)) c = true) cards)) /\
    laterL ≡ₚ filter (fun c => dueTime c > now)
              (map (fun c => Trainer.mkDeckCard c (orDefault (srs !! Trainer.id c) Trainer.NEW_SRS))
                 (filter (fun c => Trainer.matchesFilter
                                     (toLowerCase (Trainer.trim filterQuery)) c = true) cards)) /\
    fetches io' = fetches io /\ trace io' = trace io.
Proof.
  unfold Trainer.deck. cbv zeta.
  set (withMeta := map _ (filter _ cards)).
  unfold bind at 1.
  destruct (shuffle_run env
              (filter (fun c => orDefault (due (Trainer.card_srs c)) 0 <= now) withMeta) io)
    as (dueL & Hrun1 & Hp1).
  rewrite Hrun1. unfold bind at 1.
  match goal with |- context [shuffle env ?l ?io1] =>
    destruct (shuffle_run env l io1) as (laterL & Hrun2 & Hp2) end.
  rewrite Hrun2. unfold ret.
  exists dueL, laterL. eexists. split; [reflexivity|].
  split; [exact Hp1|]. split; [exact Hp2|]. split; reflexivity.
Qed.

Lemma deck_parts now cards srs filterQuery io :
  exists d dueL laterL io',
    Trainer.deck env now cards srs filterQuery io = (Ok d, io') /\
    Trainer.deck_due d = Some <$> dueL /\
    Trainer.deck_later d = Some <$> laterL /\
    dueL ++ laterL ≡ₚ Trainer.deck_all d /\
    Forall (fun c => dueTime c <= now) dueL /\
    Forall (fun c => now < dueTime c) laterL /\
    Forall (fun c => Trainer.card_srs c
                     = orDefault (srs !! Trainer.id (Trainer.card c)) Trainer.NEW_SRS)
           (Trainer.deck_all d) /\
    (Trainer.trim filterQuery = "" -> map Trainer.card (Trainer.deck_all d) = cards).
Proof.
  destruct (deck_run now cards srs filterQuery io)
    as (dueL & laterL & io' & Hrun & Hp1 & Hp2 & _).
  eexists _, dueL, laterL, io'. split; [exact Hrun|]. cbn [Trainer.deck_due Trainer.deck_later
    Trainer.deck_all]. split; [reflexivity|]. split; [reflexivity|].
  set (withMeta := map _ (filter _ cards)) in *.
  split; [|split; [|split; [|split]]].
  - rewrite Hp1, Hp2.
    rewrite (list_filter_iff (fun c => dueTime c > now) (fun c => ~ dueTime c <= now))
      by (intros c; lia).
    apply filter_app_complement.
  - rewrite Hp1. apply Forall_forall. intros c Hc.
    apply list_elem_of_filter in Hc as [Hc _]. exact Hc.
  - rewrite Hp2. apply Forall_forall. intros c Hc.
    apply list_elem_of_filter in Hc as [Hc _]. lia.
  - apply Forall_forall. intros c Hc. unfold withMeta in Hc.
    apply list_elem_of_fmap in Hc as (c0 & -> & _). reflexivity.
  - intros Hq. unfold withMeta. rewrite Hq. cbn [toLowerCase].
    rewrite map_map. cbn [Trainer.card].
    rewrite map_id. clear.
    induction cards as [|c cards IH]; [reflexivity|].
    rewrite filter_cons_True by reflexivity. f_equal. exact IH.
Qed.

(** X20.  The deck splits the filtered cards into [due] and [later]:
    together the two shuffled arrays hold each card of [all] once, a card
    is in [due] when its due time is not after [now] and in [later]
    otherwise; each card carries the schedule of the map, or the new-card
    schedule; and a blank filter keeps every card. *)
Theorem deck_splits_due_and_later now cards srs filterQuery io :
  exists d dueL laterL io',
    Trainer.deck env now cards srs filterQuery io = (Ok d, io') /\
    Trainer.deck_due d = Some <$> dueL /\
    Trainer.deck_later d = Some <$> laterL /\
    dueL ++ laterL ≡ₚ Trainer.deck_all d /\
    Forall (fun c => dueTime c <= now) dueL /\
    Forall (fun c => now < dueTime c) laterL /\
    Forall (fun c => Trainer.card_srs c
                     = orDefault (srs !! Trainer.id (Trainer.card c)) Trainer.NEW_SRS)
           (Trainer.deck_all d) /\
    (Trainer.trim filterQuery = "" -> map Trainer.card (Trainer.deck_all d) = cards).
Proof. apply deck_parts. Qed.

Lemma arr_get_head {A} (l : list A) :
  arr_get (Some <$> l) 0 = head l.
Proof. destruct l; reflexivity. Qed.

(** X21.  The card shown is a due card whenever one is due: [current] is
    missing exactly when no card passes the filter, and otherwise it is a
    card of the deck that is due, or no card of the deck is due. *)
Theorem current_is_due_first now cards srs filterQuery io :
  exists d io',
    Trainer.deck env now cards srs filterQuery io = (Ok d, io') /\
    (Trainer.current d = None <-> Trainer.deck_all d = []) /\
    (forall c, Trainer.current d = Some c ->
       c ∈ Trainer.deck_all d /\
       (dueTime c <= now \/ Forall (fun c' => now < dueTime c') (Trainer.deck_all d))).
Proof.
  destruct (deck_parts now cards srs filterQuery io)
    as (d & dueL & laterL & io' & Hrun & Hdue & Hlater & Hperm & Hd & Hl & _).
  exists d, io'. split; [exact Hrun|].
  unfold Trainer.current. rewrite Hdue, Hlater, !arr_get_head.
  destruct dueL as [|c1 dueL]; simpl in *.
  - destruct laterL as [|c2 laterL]; simpl.
    + apply Permutation_nil_l in Hperm. rewrite <- Hperm. split; [tauto|]. discriminate.
    + split.
      * split; [discriminate|]. intros Hall. rewrite Hall in Hperm.
        apply Permutation_nil_r in Hperm. discriminate.
      * intros c Hc. inversion Hc; subst c. split.
        -- rewrite <- Hperm. apply list_elem_of_here.
        -- right. rewrite <- Hperm. exact Hl.
  - split.
    + split; [discriminate|]. intros Hall. rewrite Hall in Hperm.
      apply Permutation_nil_r in Hperm. discriminate.
    + intros c Hc. inversion Hc; subst c. split.
      * rewrite <- Hperm. apply list_elem_of_here.
      * left. inversion Hd; assumption.
Qed.

Lemma sm2Schedule_due now card quality :
  settled card ->
  exists i, due (Trainer.sm2Schedule now card quality) = Some (now + i) /\
            Trainer.TEN_MINUTES <= i.
Proof.
  intros Hs. unfold Trainer.sm2Schedule.
  set (c := orDefault card emptySrs).
  assert (Hi : orDefault (reps c) 0 = 0 \/ orDefault (reps c) 0 = 1 \/
               Trainer.TEN_MINUTES <= orDefault (interval c) 0).
  { destruct card as [s|]; [exact Hs|left; reflexivity]. }
  clearbody c. clear Hs. unfold Trainer.TEN_MINUTES in *.
  destruct quality; (eexists; split; [reflexivity|]); try lia;
    repeat case_decide; try lia;
    (etransitivity; [|apply Math_round_ge]; [lia|lia|]);
    (apply Qle_trans with (13 # 10)%Q; [discriminate|apply Q.le_max_l]).
Qed.

(** X22.  A graded card rests for ten minutes.  After [grade] at the time
    [now], in every deck computed before [now] + 10 min the card is not
    among the due cards, and it is among the later ones when it passes the
    filter (for a card whose schedule the scheduler has left, or none). *)
Theorem graded_card_rests now t quality c seen s cards filterQuery io d io' :
  settled (seen !! Trainer.id (Trainer.card c)) ->
  t < now + Trainer.TEN_MINUTES ->
  Trainer.deck env t cards (Trainer.srs (Trainer.grade now (Some c) seen quality s))
    filterQuery io = (Ok d, io') ->
  (forall x, Some x ∈ Trainer.deck_due d ->
     Trainer.id (Trainer.card x) <> Trainer.id (Trainer.card c)) /\
  (forall x, x ∈ Trainer.deck_all d ->
     Trainer.id (Trainer.card x) = Trainer.id (Trainer.card c) ->
     Some x ∈ Trainer.deck_later d).
Proof.
  intros Hs Ht Hrun.
  destruct (sm2Schedule_due now (seen !! Trainer.id (Trainer.card c)) quality Hs)
    as (i & Hdue & Hi).
  destruct (deck_run t cards (Trainer.srs (Trainer.grade now (Some c) seen quality s))
              filterQuery io) as (dueL & laterL & io2 & Hrun' & Hp1 & Hp2 & _).
  rewrite Hrun in Hrun'. inversion Hrun'; subst d io2. clear Hrun'.
  cbn [Trainer.deck_due Trainer.deck_later Trainer.deck_all].
  set (withMeta := map _ (filter _ cards)) in *.
  assert (Hmeta : forall x, x ∈ withMeta ->
            Trainer.id (Trainer.card x) = Trainer.id (Trainer.card c) ->
            dueTime x = now + i).
  { intros x Hx Hid. unfold withMeta in Hx.
    apply list_elem_of_fmap in Hx as (c0 & -> & _). cbn [Trainer.card] in Hid.
    unfold dueTime. cbn [Trainer.card_srs Trainer.grade Trainer.srs].
    rewrite Hid, lookup_insert_eq. cbn [orDefault]. rewrite Hdue. reflexivity. }
  split.
  - intros x Hx Hid. apply list_elem_of_fmap in Hx as (x' & Heq & Hx). inversion Heq; subst x'.
    rewrite Hp1 in Hx. apply list_elem_of_filter in Hx as [Hle Hx].
    rewrite (Hmeta x Hx Hid) in Hle. lia.
  - intros x Hx Hid. apply list_elem_of_fmap. exists x. split; [reflexivity|].
    rewrite Hp2. apply list_elem_of_filter. split; [|exact Hx].
    rewrite (Hmeta x Hx Hid). lia.
Qed.

End DeckFacts.

Lemma graded_card_rests_witness :
  exists d io',
    Trainer.deck steadyEnv 2000 [sampleCard]
      (Trainer.srs (Trainer.grade 1000 (Some sampleDeckCard) ∅ Trainer.Good sampleStudy))
      "" Io0 = (Ok d, io') /\
    (forall x, Some x ∈ Trainer.deck_due d -> Trainer.id (Trainer.card x) <> "7::OP1") /\
    (forall x, x ∈ Trainer.deck_all d -> Trainer.id (Trainer.card x) = "7::OP1" ->
       Some x ∈ Trainer.deck_later d).
Proof.
  eassert (Hrun :
    Trainer.deck steadyEnv 2000 [sampleCard]
      (Trainer.srs (Trainer.grade 1000 (Some sampleDeckCard) ∅ Trainer.Good sampleStudy))
      "" Io0 = (Ok _, _)) by (vm_compute; reflexivity).
  eexists _, _. split; [exact Hrun|].
  refine (graded_card_rests steadyEnv 1000 2000 Trainer.Good sampleDeckCard ∅ sampleStudy
            [sampleCard] "" Io0 _ _ _ _ Hrun).
  - unfold settled. rewrite lookup_empty. exact I.
  - vm_compute. reflexivity.
Defined.

(** * Further properties of the streaming-episode import *)

Section DedupePrefix.
Context {V : Type} (key : V -> string).

Lemma setAll_prefix arr : forall m, m.*1 `prefix_of` (setAll key m arr).*1.
Proof.
  induction arr as [|c arr IH]; intros m; simpl; [reflexivity|].
  etransitivity; [|apply IH]. rewrite map_set_keys.
  destruct (decide (key c ∈ m.*1)); [reflexivity|]. apply prefix_app_r. reflexivity.
Qed.

(** The ids of a duplicate-free list stay at the front, in order, when
    more cards are appended and the whole is deduplicated. *)
Lemma dedupeBy_app_prefix arr extra :
  NoDup (map key arr) ->
  map key arr `prefix_of` map key (dedupeBy key (arr ++ extra)).
Proof.
  intros Hnd. rewrite dedupeBy_keys. unfold setAll. rewrite fold_left_app.
  fold (setAll key [] arr). fold (setAll key (setAll key [] arr) extra).
  rewrite <- (dedupeBy_id key arr Hnd) at 1. rewrite dedupeBy_keys.
  apply setAll_prefix.
Qed.

End DedupePrefix.

Section AppRun.
Variable env : Env.
Variable storage : App.LocalStorage.

Lemma App_postJSON_returns url vars w :
  exists r io',
    App.inIo (postJSON env url vars) w = (r, App.setIo io' w) /\ r <> Diverge.
Proof.
  rewrite App_inIo_run. unfold postJSON.
  pose proof (fetchJSON_returns_or_throws env (mkRequest url (Some vars)) (App.io w)) as Hd.
  destruct (fetchJSON env (mkRequest url (Some vars)) (App.io w)) as [r io'].
  exists r, io'. split; [reflexivity|exact Hd].
Qed.

Lemma forEachEpisode_returns now media episodes : forall acc,
  App.forEachEpisode now media acc episodes <> Diverge.
Proof.
  induction episodes as [|ie rest IH]; intros acc; simpl; [discriminate|].
  destruct (App.episodeStep now media acc ie) as [acc'| |] eqn:Hstep;
    [apply IH|discriminate|].
  exfalso. destruct acc as [[[gi seen] uo] sc], ie as [index episode].
  unfold App.episodeStep in Hstep.
  destruct (_ && _) in Hstep; [|discriminate].
  unfold App.cardTitle in Hstep. destruct (media_title media); discriminate.
Qed.

Lemma forEachMedia_returns now entries : forall g,
  App.forEachMedia now g entries <> Diverge.
Proof.
  induction entries as [|media rest IH]; intros g; simpl; [discriminate|].
  destruct (App.mediaStep now g media) as [g'| |] eqn:Hstep; [apply IH|discriminate|].
  exfalso. unfold App.mediaStep in Hstep.
  match type of Hstep with context [App.forEachEpisode now media ?a ?es] =>
    pose proof (forEachEpisode_returns now media es a) as Hd;
    destruct (App.forEachEpisode now media a es) as [[[[gi seen] uo] sc]| |]
  end; [|discriminate|contradiction].
  destruct (0 <? length sc)%nat; [discriminate|].
  destruct (bool_decide _); [discriminate|].
  unfold App.cardTitle in Hstep. destruct (media_title media); discriminate.
Qed.

(** What a run of [importAnilist] leaves.  It returns with the spinner
    off, and either it stopped before the commit, with the cards and the
    stored blob as before and a message that says why, or it committed the
    cards [new] it built and went on to [saveCards]: the blob holds the
    cards of the render and the new ones when the write went through, and
    when it was refused the blob is the purged old one and the message is
    the one of the refusal. *)
Lemma importAnilist_outcome now seen username w :
  exists w',
    App.importAnilist env storage now seen username w = (Ok tt, w') /\
    App.loading w' = false /\
    ((App.cards w' = App.cards w /\ App.stored w' = App.stored w /\ App.error w' <> "" /\
      (username = "" ->
         App.error w' = "Veuillez entrer un nom d'utilisateur AniList." /\
         App.io w' = App.io w)) \/
     (exists new,
        username <> "" /\
        App.cards w' = take App.DEFAULT_MAX_SHOWS (App.dedupeById (App.cards w ++ new)) /\
        match App.quotaError storage (take App.DEFAULT_MAX_SHOWS (seen ++ new)) with
        | None =>
            App.stored w' = take App.DEFAULT_MAX_SHOWS (seen ++ new) /\ App.error w' = ""
        | Some e =>
            App.stored w' = purged storage (App.stored w) /\
            App.error w' = "Erreur lors de l'import : " +:+ e
        end)).
Proof.
  unfold App.importAnilist, tryFinally, tryCatch, bind at 1 2, modify. cbn [fst snd].
  destruct (decide (username = "")) as [Hu|Hu].
  - unfold bind, modify. eexists. split; [reflexivity|]. split; [reflexivity|].
    left. repeat split. discriminate.
  - unfold App.importAnilist_try, bind at 1.
    destruct (App_postJSON_returns ANILIST_GQL (VarsUsername username)
                (App.setError "" (App.setLoading true w))) as (r & io' & Hrun & Hr).
    rewrite Hrun. destruct r as [j|e|]; [| |contradiction].
    + destruct j as [| |lists| |];
        try (eexists; split; [reflexivity|]; split; [reflexivity|];
             left; repeat split; try discriminate; contradiction).
      change ([] ++ concat lists) with (concat lists).
      pose proof (forEachMedia_returns now (concat lists) (App.mkGen 0 ∅ [])) as Hd.
      destruct (App.forEachMedia now (App.mkGen 0 ∅ []) (concat lists)) as [g|e|];
        [| |contradiction].
      * unfold bind, modify, App.saveCards. cbn [fst snd]. rewrite take_idemp.
        destruct (App.quotaError storage (take App.DEFAULT_MAX_SHOWS (seen ++ App.newCards g)))
          as [e|] eqn:Hq.
        -- eexists. split; [reflexivity|]. split; [reflexivity|].
           right. exists (App.newCards g). split; [exact Hu|]. rewrite Hq.
           unfold purged.
           cbn [App.stored App.cards App.setCards App.setIo App.setError App.setLoading].
           destruct (decide _); repeat split.
        -- eexists. split; [reflexivity|]. split; [reflexivity|].
           right. exists (App.newCards g). split; [exact Hu|]. rewrite Hq.
           cbn [App.stored App.cards App.setCards App.setIo App.setError App.setLoading].
           destruct (decide _); repeat split.
      * eexists. split; [reflexivity|]. split; [reflexivity|].
        left. repeat split; try discriminate; contradiction.
    + eexists. split; [reflexivity|]. split; [reflexivity|].
      left. repeat split; try discriminate; contradiction.
Qed.

(** X23.  [importAnilist] always returns, with [loading] false.  When it
    leaves an error message, either the cards and the stored blob are as
    before the run, or [setItem] refused the write of [saveCards]: the
    message is the one of the refusal, the new cards are in the cards all
    the same, and the blob is the old one (gone when it was over the size
    limit).  So with a [localStorage] that refuses no write an error
    leaves the cards and the blob as they were.  For an empty username it
    asks for a name and makes no request. *)
Theorem import_error_keeps_cards_unless_write_refused now seen username w :
  exists w',
    App.importAnilist env storage now seen username w = (Ok tt, w') /\
    App.loading w' = false /\
    (App.error w' <> "" ->
       (App.cards w' = App.cards w /\ App.stored w' = App.stored w) \/
       (exists new e,
          App.quotaError storage (take App.DEFAULT_MAX_SHOWS (seen ++ new)) = Some e /\
          App.error w' = "Erreur lors de l'import : " +:+ e /\
          App.cards w' = take App.DEFAULT_MAX_SHOWS (App.dedupeById (App.cards w ++ new)) /\
          App.stored w' = purged storage (App.stored w))) /\
    ((forall cs, App.quotaError storage cs = None) -> App.error w' <> "" ->
       App.cards w' = App.cards w /\ App.stored w' = App.stored w) /\
    (username = "" ->
       App.error w' = "Veuillez entrer un nom d'utilisateur AniList." /\
       App.io w' = App.io w).
Proof.
  destruct (importAnilist_outcome now seen username w)
    as (w' & Hrun & Hload & [(Hc & Hs & He & Hask)|(new & Hu & Hc & Hq)]);
    exists w'; (split; [exact Hrun|]); (split; [exact Hload|]).
  - split; [|split].
    + intros _. left. split; assumption.
    + intros _ _. split; assumption.
    + exact Hask.
  - split; [|split].
    + intros Hne. right.
      destruct (App.quotaError storage (take App.DEFAULT_MAX_SHOWS (seen ++ new))) as [e|] eqn:Hq'.
      * destruct Hq as [Hs He]. exists new, e. repeat split; assumption.
      * destruct Hq as [_ He]. contradiction.
    + intros Hroom Hne. rewrite Hroom in Hq. destruct Hq as [_ He]. contradiction.
    + intros Hu'. contradiction.
Qed.

(** X24.  After a run of [importAnilist] the cards are as before, or they
    have pairwise distinct ids, are at most [DEFAULT_MAX_SHOWS] = 1000,
    and the ids of the cards held before (at most 1000, pairwise distinct)
    still stand first, in their order.  The stored blob is as before or
    holds at most 1000 cards. *)
Theorem import_caps_the_deck now seen username w :
  let w' := (App.importAnilist env storage now seen username w).2 in
  (App.cards w' = App.cards w \/
   (NoDup (map App.id (App.cards w')) /\
    (length (App.cards w') <= App.DEFAULT_MAX_SHOWS)%nat /\
    ((length (App.cards w) <= App.DEFAULT_MAX_SHOWS)%nat ->
     NoDup (map App.id (App.cards w)) ->
     map App.id (App.cards w) `prefix_of` map App.id (App.cards w')))) /\
  (App.stored w' = App.stored w \/
   (length (App.stored w') <= App.DEFAULT_MAX_SHOWS)%nat).
Proof.
  destruct (importAnilist_outcome now seen username w)
    as (w' & Hrun & Hload & [(Hc & Hs & He & Hask)|(new & Hu & Hc & Hq)]);
    rewrite Hrun; cbn [snd].
  - split; left; assumption.
  - split.
    + right. rewrite Hc. split; [|split].
      * change (NoDup (App.id <$> take App.DEFAULT_MAX_SHOWS
                                    (App.dedupeById (App.cards w ++ new)))).
        rewrite fmap_take.
        eapply sublist_NoDup;
          [apply (dedupeBy_NoDup App.id (App.cards w ++ new))|apply sublist_take].
      * rewrite length_take. lia.
      * intros Hlen Hnd.
        destruct (dedupeBy_app_prefix App.id (App.cards w) new Hnd) as [rest Hrest].
        change (map App.id (App.cards w)
                  `prefix_of` App.id <$> take App.DEFAULT_MAX_SHOWS
                                           (App.dedupeById (App.cards w ++ new))).
        rewrite fmap_take. unfold App.dedupeById.
        change (App.id <$> dedupeBy App.id (App.cards w ++ new))
          with (map App.id (dedupeBy App.id (App.cards w ++ new))).
        rewrite Hrest. rewrite take_app_ge by (rewrite length_map; lia).
        apply prefix_app_r. reflexivity.
    + destruct (App.quotaError storage (take App.DEFAULT_MAX_SHOWS (seen ++ new))) as [e|].
      * destruct Hq as [Hs _]. rewrite Hs. unfold purged.
        destruct (decide _); [right; simpl; lia|left; reflexivity].
      * destruct Hq as [Hs _]. right. rewrite Hs, length_take. lia.
Qed.

End AppRun.

(** A refused write at work: the import of two shows into a full
    [localStorage] leaves the message of the refusal, the two new cards
    in the cards and nothing in the blob. *)
Lemma refused_write_leaves_the_blob_behind :
  let run :=
    App.importAnilist (collectionEnv [[media3; media7]]) fullStorage 0 [] "melfisk"
      sampleAppWorld in
  run.1 = Ok tt /\
  App.error run.2 = "Erreur lors de l'import : The quota has been exceeded." /\
  map App.id (App.cards run.2) = ["3::OP1::1"; "7::OP1::2"] /\
  App.stored run.2 = [].
Proof. vm_compute. repeat split. Qed.

(** ** The cards the import builds *)

Section AppGen.

Lemma episodeStep_built now media acc ie acc' :
  (ie.1 < App.MAX_CARDS_PER_SERIES)%nat ->
  Forall (builtCard now) acc.2 ->
  App.episodeStep now media acc ie = Ok acc' ->
  Forall (builtCard now) acc'.2 /\
  acc'.1.1.1 = acc.1.1.1 + 1 /\
  (length acc.2 <= length acc'.2 <= length acc.2 + 1)%nat.
Proof.
  destruct acc as [[[gi seen] uo] sc], ie as [index episode]. simpl.
  intros Hidx Hsc. unfold App.episodeStep.
  destruct (negb (bool_decide (strOr (ep_url episode) "" = ""))) eqn:Hurl; simpl.
  - destruct (_ && _).
    + unfold App.cardTitle. destruct (media_title media); [|discriminate].
      intros Heq. inversion Heq; subst acc'. simpl. split; [|split; [lia|]].
      * apply Forall_app. split; [exact Hsc|]. constructor; [|constructor].
        unfold builtCard, App.MAX_CARDS_PER_SERIES in *. simpl.
        split; [lia|]. repeat split.
        intros Hnone. apply negb_true_iff, bool_decide_eq_false in Hurl.
        rewrite Hnone in Hurl. simpl in Hurl. contradiction.
      * rewrite length_app. simpl. lia.
    + intros Heq. inversion Heq; subst acc'. simpl. split; [exact Hsc|lia].
  - intros Heq. inversion Heq; subst acc'. simpl. split; [exact Hsc|lia].
Qed.

Lemma forEachEpisode_built now media episodes : forall acc acc',
  Forall (fun ie => (ie.1 < App.MAX_CARDS_PER_SERIES)%nat) episodes ->
  Forall (builtCard now) acc.2 ->
  App.forEachEpisode now media acc episodes = Ok acc' ->
  Forall (builtCard now) acc'.2 /\
  acc'.1.1.1 = acc.1.1.1 + Z.of_nat (length episodes) /\
  (length acc.2 <= length acc'.2 <= length acc.2 + length episodes)%nat.
Proof.
  induction episodes as [|ie rest IH]; intros acc acc' Hidx Hsc; simpl.
  - intros Heq. inversion Heq; subst. split; [assumption|lia].
  - inversion Hidx as [|? ? Hie Hrest]; subst.
    destruct (App.episodeStep now media acc ie) as [acc1| |] eqn:Hstep; try discriminate.
    destruct (episodeStep_built now media acc ie acc1 Hie Hsc Hstep) as (Hb1 & Hg1 & Hl1).
    intros Hrun. destruct (IH acc1 acc' Hrest Hb1 Hrun) as (Hb & Hg & Hl).
    split; [exact Hb|]. split; lia.
Qed.

Lemma imap_index_bound {A} (l : list A) (n : nat) :
  (length l <= n)%nat -> Forall (fun ie : nat * A => (ie.1 < n)%nat) (imap (fun i e => (i, e)) l).
Proof.
  intros Hlen. apply Forall_forall. intros [i e] Hin.
  apply list_elem_of_lookup in Hin as [k Hk].
  rewrite list_lookup_imap in Hk.
  destruct (l !! k) as [x|] eqn:Hx; simpl in Hk; [|discriminate].
  inversion Hk; subst. simpl. apply lookup_lt_Some in Hx. lia.
Qed.

Lemma mediaStep_built now g media g' :
  Forall (builtCard now) (App.newCards g) ->
  App.mediaStep now g media = Ok g' ->
  Forall (builtCard now) (App.newCards g') /\
  (length (App.newCards g) <= length (App.newCards g')
   <= length (App.newCards g) + App.MAX_CARDS_PER_SERIES)%nat /\
  App.globalIndex g < App.globalIndex g'
  <= App.globalIndex g + Z.of_nat (S App.MAX_CARDS_PER_SERIES).
Proof.
  intros Hnew. unfold App.mediaStep.
  set (episodes := take App.MAX_CARDS_PER_SERIES (orDefault (streamingEpisodes media) [])).
  assert (Hlen : (length episodes <= App.MAX_CARDS_PER_SERIES)%nat)
    by (unfold episodes; rewrite length_take; lia).
  destruct (App.forEachEpisode now media (App.globalIndex g, App.seenOps g, ∅, [])
              (imap (fun i e => (i, e)) episodes)) as [[[[gi seen] uo] sc]| |] eqn:Hep;
    try discriminate.
  destruct (forEachEpisode_built now media (imap (fun i e => (i, e)) episodes)
              (App.globalIndex g, App.seenOps g, ∅, []) (gi, seen, uo, sc)
              (imap_index_bound episodes _ Hlen) (Forall_nil_2 _) Hep) as (Hb & Hg & Hl).
  rewrite length_imap in Hg, Hl. simpl in Hb, Hg, Hl.
  unfold App.MAX_CARDS_PER_SERIES in *.
  destruct (0 <? length sc)%nat eqn:Hsc.
  - apply Nat.ltb_lt in Hsc.
    intros Heq. inversion Heq; subst g'. simpl. split; [|split].
    + apply Forall_app. split; assumption.
    + rewrite length_app. lia.
    + lia.
  - apply Nat.ltb_ge in Hsc.
    destruct (bool_decide _).
    + intros Heq. inversion Heq; subst g'. simpl. split; [exact Hnew|]. split; lia.
    + unfold App.cardTitle. destruct (media_title media); [|discriminate].
      intros Heq. inversion Heq; subst g'. simpl. split; [|split].
      * apply Forall_app. split; [exact Hnew|]. constructor; [|constructor].
        unfold builtCard, App.MAX_CARDS_PER_SERIES. simpl. split; [lia|]. repeat split.
      * rewrite length_app. simpl. lia.
      * lia.
Qed.

Lemma forEachMedia_built now entries : forall g g',
  Forall (builtCard now) (App.newCards g) ->
  App.forEachMedia now g entries = Ok g' ->
  Forall (builtCard now) (App.newCards g') /\
  (length (App.newCards g) <= length (App.newCards g')
   <= length (App.newCards g) + App.MAX_CARDS_PER_SERIES * length entries)%nat /\
  App.globalIndex g + Z.of_nat (length entries) <= App.globalIndex g'
  <= App.globalIndex g + Z.of_nat (S App.MAX_CARDS_PER_SERIES * length entries).
Proof.
  induction entries as [|media rest IH]; intros g g' Hnew; simpl.
  - intros Heq. inversion Heq; subst. split; [assumption|]. split; lia.
  - destruct (App.mediaStep now g media) as [g1| |] eqn:Hstep; try discriminate.
    destruct (mediaStep_built now g media g1 Hnew Hstep) as (Hb1 & Hl1 & Hg1).
    intros Hrun. destruct (IH g1 g' Hb1 Hrun) as (Hb & Hl & Hg).
    split; [exact Hb|]. unfold App.MAX_CARDS_PER_SERIES in *. split; lia.
Qed.

(** X25.  The episode import builds at most [MAX_CARDS_PER_SERIES] = 5
    cards per show, each with an opening number from 1 to 5, the song
    title "Opening n", no artist and a due time one day ahead; the
    counter behind the ids advances by at least one and at most six per
    show. *)
Theorem import_builds_at_most_five_cards_per_show now entries g :
  App.forEachMedia now (App.mkGen 0 ∅ []) entries = Ok g ->
  (length (App.newCards g) <= App.MAX_CARDS_PER_SERIES * length entries)%nat /\
  Forall (builtCard now) (App.newCards g) /\
  Z.of_nat (length entries) <= App.globalIndex g
  <= Z.of_nat (S App.MAX_CARDS_PER_SERIES * length entries).
Proof.
  intros Hrun.
  destruct (forEachMedia_built now entries (App.mkGen 0 ∅ []) g (Forall_nil_2 _) Hrun)
    as (Hb & Hl & Hg).
  simpl in *. split; [lia|]. split; [exact Hb|lia].
Qed.

End AppGen.

Lemma import_builds_at_most_five_cards_per_show_witness :
  exists g,
    App.forEachMedia 0 (App.mkGen 0 ∅ []) [mediaWithEpisodes; media7] = Ok g /\
    (length (App.newCards g) <= 10)%nat /\
    Forall (builtCard 0) (App.newCards g) /\
    2 <= App.globalIndex g <= 12.
Proof.
  eassert (Hrun : App.forEachMedia 0 (App.mkGen 0 ∅ []) [mediaWithEpisodes; media7] = Ok _)
    by (vm_compute; reflexivity).
  eexists. split; [exact Hrun|].
  exact (import_builds_at_most_five_cards_per_show 0 [mediaWithEpisodes; media7] _ Hrun).
Defined.

(** * Properties of the deck and the pages of [App.jsx] *)

Section AppDeck.

Lemma isLater_not_due now c : App.isLater now c = true <-> ~ App.isDue now c = true.
Proof.
  unfold App.isLater, App.isDue. destruct (App.srs c ≫= due) as [d|].
  - destruct (d =? 0), (d <=? now) eqn:Hle, (now <? d) eqn:Hlt; simpl;
      try (apply Z.leb_le in Hle); try (apply Z.leb_gt in Hle);
      try (apply Z.ltb_lt in Hlt); try (apply Z.ltb_ge in Hlt);
      split; try discriminate; try tauto; try lia; intros H; exfalso; apply H; reflexivity.
  - split; [discriminate|]. intros H. exfalso. apply H. reflexivity.
Qed.

(** X26.  The deck of [App.jsx] takes the schedule of a card from the
    schedule map alone: the [srs] a card carries (the due time the import
    gave it) makes no difference, so a card with no entry in the map is
    due at once.  [due] and [later] together hold each card of [all] once,
    and an empty filter keeps every card. *)
Theorem App_deck_reads_the_schedule_map now cards srs_map filterQuery :
  let d := App.deck now cards srs_map filterQuery in
  App.deck_due d ++ App.deck_later d ≡ₚ App.deck_all d /\
  App.deck now (map (fun c => App.withSrs c None) cards) srs_map filterQuery = d /\
  (forall c, c ∈ App.deck_all d -> App.srsAt srs_map (App.id c) = None ->
     c ∈ App.deck_due d) /\
  (filterQuery = "" -> map App.id (App.deck_all d) = map App.id cards).
Proof.
  unfold App.deck. cbn [App.deck_due App.deck_later App.deck_all].
  set (all := map _ cards).
  split; [|split; [|split]].
  - rewrite (list_filter_iff (fun c => App.isLater now c = true)
               (fun c => ~ App.isDue now c = true)) by (intros c; apply isLater_not_due).
    apply filter_app_complement.
  - rewrite map_map. reflexivity.
  - intros c Hc Hnone. apply list_elem_of_filter. split; [|exact Hc].
    apply list_elem_of_filter in Hc as [_ Hc]. unfold all in Hc.
    apply list_elem_of_fmap in Hc as (c0 & -> & _).
    cbn in Hnone. unfold App.isDue. cbn. rewrite Hnone. reflexivity.
  - intros ->.
    assert (Hall : filter (fun c => App.matchesFilter "" c = true) all = all).
    { clear. induction all as [|c l IH]; [reflexivity|].
      rewrite filter_cons_True by reflexivity. f_equal. exact IH. }
    rewrite Hall. unfold all. rewrite map_map. reflexivity.
Qed.

End AppDeck.

Section Pages.
Context {A : Type}.

Lemma slice_window (l : list A) (start stop : Z) :
  0 <= start <= stop ->
  slice l start stop = take (Z.to_nat (stop - start)) (drop (Z.to_nat start) l).
Proof.
  intros H. unfold slice.
  destruct (start <? 0) eqn:H1; [apply Z.ltb_lt in H1; lia|].
  destruct (stop <? 0) eqn:H2; [apply Z.ltb_lt in H2; lia|].
  destruct (decide (start <= Z.of_nat (length l))) as [Hs|Hs].
  - rewrite (Z.min_l start) by lia.
    destruct (decide (stop <= Z.of_nat (length l))) as [He|He].
    + rewrite (Z.min_l stop) by lia. reflexivity.
    + rewrite (Z.min_r stop) by lia.
      rewrite !take_ge; [reflexivity|rewrite length_drop; lia|rewrite length_drop; lia].
  - rewrite (Z.min_r start), (Z.min_r stop) by lia.
    rewrite !drop_ge by lia. rewrite !take_nil. reflexivity.
Qed.

Lemma paginatedDeck_window (l : list A) (p : nat) :
  App.paginatedDeck l (Z.of_nat (S p)) = take 50 (drop (50 * p) l).
Proof.
  unfold App.paginatedDeck, App.pageSize. rewrite slice_window by lia.
  f_equal; [lia|f_equal; lia].
Qed.

Lemma pages_concat (l : list A) : forall n : nat,
  concat (map (fun p => App.paginatedDeck l (Z.of_nat p)) (seq 1 n)) = take (50 * n) l.
Proof.
  induction n as [|n IH]; [reflexivity|].
  rewrite seq_S, map_app, concat_app, IH. simpl map. simpl concat.
  rewrite paginatedDeck_window, app_nil_r.
  replace (50 * S n)%nat with (50 * n + 50)%nat by lia.
  apply take_take_drop.
Qed.

Lemma pageCount_covers (l : list A) :
  0 <= App.pageCount l /\
  Z.of_nat (length l) <= 50 * App.pageCount l < Z.of_nat (length l) + 50.
Proof.
  unfold App.pageCount, App.Math_ceil, App.pageSize.
  set (x := (inject_Z (Z.of_nat (length l)) / inject_Z 50)%Q).
  pose proof (Qle_ceiling x) as Hc. pose proof (Qceiling_lt x) as Hl.
  assert (Hx : (x * 50 == inject_Z (Z.of_nat (length l)))%Q).
  { unfold x. change (inject_Z 50) with 50%Q. field. }
  assert (Hpos : (0 <= inject_Z (Z.of_nat (length l)))%Q).
  { change 0%Q with (inject_Z 0). rewrite <- Zle_Qle. lia. }
  unfold Z.sub in Hl. rewrite inject_Z_plus, inject_Z_opp in Hl.
  change (inject_Z 1) with 1%Q in Hl.
  clearbody x.
  assert (H1 : (inject_Z (Z.of_nat (length l)) <= inject_Z (50 * Qceiling x))%Q).
  { rewrite inject_Z_mult. change (inject_Z 50) with 50%Q. lra. }
  assert (H2 : (inject_Z (50 * Qceiling x) < inject_Z (Z.of_nat (length l) + 50))%Q).
  { rewrite inject_Z_plus, inject_Z_mult. change (inject_Z 50) with 50%Q. lra. }
  rewrite <- Zle_Qle in H1. rewrite <- Zlt_Qlt in H2. lia.
Qed.

(** X27.  The pages 1 to [pageCount] of the deck table, one after the
    other, are the sorted deck: no card is missing and none shows twice.
    A page holds at most 50 cards, each of these pages holds a card, and
    a page past the last is empty. *)
Theorem pages_partition_the_deck (sortedDeck : list A) :
  concat (map (fun p => App.paginatedDeck sortedDeck (Z.of_nat p))
            (seq 1 (Z.to_nat (App.pageCount sortedDeck)))) = sortedDeck /\
  (forall p : Z, (length (App.paginatedDeck sortedDeck p) <= 50)%nat) /\
  (forall p : Z, App.pageCount sortedDeck < p -> App.paginatedDeck sortedDeck p = []) /\
  (forall p : Z, 1 <= p <= App.pageCount sortedDeck -> App.paginatedDeck sortedDeck p <> []).
Proof.
  destruct (pageCount_covers sortedDeck) as [Hpos Hcov].
  split; [|split; [|split]].
  - rewrite pages_concat. apply take_ge. lia.
  - intros p. unfold App.paginatedDeck, slice. rewrite length_take. unfold App.pageSize.
    destruct ((p - 1) * 50 <? 0) eqn:H1, (p * 50 <? 0) eqn:H2;
      try apply Z.ltb_lt in H1; try apply Z.ltb_ge in H1;
      try apply Z.ltb_lt in H2; try apply Z.ltb_ge in H2; lia.
  - intros p Hp. assert (Hn : p - 1 = Z.of_nat (Z.to_nat (p - 1))) by lia.
    set (n := Z.to_nat (p - 1)) in *. clearbody n.
    replace p with (Z.of_nat (S n)) by lia. rewrite paginatedDeck_window.
    rewrite drop_ge by lia. apply take_nil.
  - intros p Hp. assert (Hn : p - 1 = Z.of_nat (Z.to_nat (p - 1))) by lia.
    set (n := Z.to_nat (p - 1)) in *. clearbody n.
    replace p with (Z.of_nat (S n)) by lia. rewrite paginatedDeck_window.
    intros Hnil. apply (f_equal length) in Hnil.
    rewrite length_take, length_drop in Hnil. cbn [length] in Hnil. lia.
Qed.

End Pages.

(** * Properties of grading and undoing in [App.jsx] *)

Section GradeFacts.
Variable env : Env.

Lemma srsAt_insert m k v k' :
  App.srsAt (<[k := v]> m) k' = if decide (k = k') then v else App.srsAt m k'.
Proof.
  unfold App.srsAt. destruct (decide (k = k')) as [->|Hne].
  - rewrite lookup_insert_eq. reflexivity.
  - rewrite lookup_insert_ne by exact Hne. reflexivity.
Qed.

Lemma pickNext_run (d : App.Deck) io :
  exists x io',
    App.pickNext env d io = (Ok x, io') /\
    (forall c, x = Some c -> c ∈ App.deck_due d \/ c ∈ App.deck_later d) /\
    (x = None -> App.deck_due d = [] /\ App.deck_later d = []).
Proof.
  unfold App.pickNext.
  destruct (App.deck_due d) as [|c1 dueL] eqn:Hdue; simpl.
  - destruct (App.deck_later d) as [|c2 laterL] eqn:Hlater; simpl.
    + exists None, io. split; [reflexivity|]. split; [discriminate|]. intros _. split; reflexivity.
    + unfold bind. destruct (shuffle_run env (c2 :: laterL) io) as (perm & Hrun & Hperm).
      rewrite Hrun. unfold ret.
      destruct perm as [|p perm]; [apply Permutation_nil_l in Hperm; discriminate|].
      eexists (Some p), _. split; [reflexivity|]. split; [|discriminate].
      intros c Hc. inversion Hc; subst c. right. rewrite <- Hperm. apply list_elem_of_here.
  - unfold bind. destruct (shuffle_run env (c1 :: dueL) io) as (perm & Hrun & Hperm).
    rewrite Hrun. unfold ret.
    destruct perm as [|p perm]; [apply Permutation_nil_l in Hperm; discriminate|].
    eexists (Some p), _. split; [reflexivity|]. split; [|discriminate].
    intros c Hc. inversion Hc; subst c. left. rewrite <- Hperm. apply list_elem_of_here.
Qed.

Lemma showNext_run (d : App.Deck) s :
  exists x io',
    App.showNext env d s
    = (Ok tt, App.setCurrentCard x (App.setStudyIo io' (App.setShowAnswer false s))) /\
    (forall c, x = Some c -> c ∈ App.deck_due d \/ c ∈ App.deck_later d).
Proof.
  unfold App.showNext, bind, modify, liftIo. cbn [fst snd].
  destruct (pickNext_run d (App.study_io (App.setShowAnswer false s)))
    as (x & io' & Hrun & Hx & _).
  rewrite Hrun. exists x, io'. split; [reflexivity|exact Hx].
Qed.

Lemma grade_run now cl quality s c :
  App.seen_currentCard cl = Some c ->
  exists s1,
    App.grade env now cl quality s = (Ok tt, s1) /\
    App.lastGrade s1 = Some (App.id c, App.srsAt (App.seen_srs cl) (App.id c)) /\
    App.srs_map s1
    = <[App.id c := Some (App.sm2Schedule now (Some c) quality
                            (App.easyDelayHours cl) (App.diffAgain cl))]> (App.srs_map s) /\
    (App.hideVideo cl = false ->
       App.timeouts s1 = App.timeouts s ++ [App.seen_deck cl] /\
       App.currentCard s1 = App.currentCard s).
Proof.
  intros Hc. unfold App.grade. rewrite Hc. unfold bind at 1 2 3, modify. cbn [fst snd].
  destruct (App.hideVideo cl).
  - match goal with |- context [App.showNext env ?d ?s0] =>
      destruct (showNext_run d s0) as (x & io' & Hrun & _) end.
    rewrite Hrun. eexists. split; [reflexivity|].
    split; [reflexivity|]. split; [reflexivity|]. discriminate.
  - eexists. split; [reflexivity|].
    split; [reflexivity|]. split; [reflexivity|]. intros _. split; reflexivity.
Qed.

(** X28.  [grade] sets the schedule of the current card and of no other
    card, and [undoGrade] right after it gives every card the schedule it
    had before the grade; the undo record is then empty, so a second undo
    changes nothing. *)
Theorem undo_restores_the_schedule now cl quality s c :
  App.seen_currentCard cl = Some c ->
  App.seen_srs cl = App.srs_map s ->
  exists s1,
    App.grade env now cl quality s = (Ok tt, s1) /\
    App.srsAt (App.srs_map s1) (App.id c)
    = Some (App.sm2Schedule now (Some c) quality (App.easyDelayHours cl) (App.diffAgain cl)) /\
    (forall k, k <> App.id c -> App.srsAt (App.srs_map s1) k = App.srsAt (App.srs_map s) k) /\
    forall cl1, App.seen_lastGrade cl1 = App.lastGrade s1 ->
      exists s2,
        App.undoGrade cl1 s1 = (Ok tt, s2) /\
        (forall k, App.srsAt (App.srs_map s2) k = App.srsAt (App.srs_map s) k) /\
        App.lastGrade s2 = None /\
        forall cl2, App.seen_lastGrade cl2 = App.lastGrade s2 ->
          App.undoGrade cl2 s2 = (Ok tt, s2).
Proof.
  intros Hc Hsrs.
  destruct (grade_run now cl quality s c Hc) as (s1 & Hrun & Hlast & Hmap & _).
  exists s1. split; [exact Hrun|]. split; [|split].
  - rewrite Hmap, srsAt_insert, decide_True by reflexivity. reflexivity.
  - intros k Hk. rewrite Hmap, srsAt_insert, decide_False by congruence. reflexivity.
  - intros cl1 Hcl1. unfold App.undoGrade at 1. rewrite Hcl1, Hlast.
    unfold bind, modify. cbn [fst snd]. eexists. split; [reflexivity|].
    split; [|split; [reflexivity|]].
    + intros k. cbn [App.srs_map App.setSrs App.setLastGrade App.setToast].
      rewrite Hmap, Hsrs, !srsAt_insert.
      destruct (decide (App.id c = k)) as [->|Hne]; reflexivity.
    + intros cl2 Hcl2. unfold App.undoGrade. rewrite Hcl2. reflexivity.
Qed.

(** X29.  With the video shown, [grade] queues a timeout that picks the
    next card from the deck of the grading render.  When it fires, the
    current card is a card of that old deck and carries the schedule the
    map held before the grade; grading this card counts its attempts from
    that old schedule. *)
Theorem timeout_brings_back_a_stale_card now t cards filterQuery cl quality s c :
  App.seen_currentCard cl = Some c ->
  App.hideVideo cl = false ->
  App.timeouts s = [] ->
  App.seen_deck cl = App.deck t cards (App.seen_srs cl) filterQuery ->
  exists s1 s2,
    App.grade env now cl quality s = (Ok tt, s1) /\
    App.runTimeout env s1 = (Ok tt, s2) /\
    App.srs_map s2 = App.srs_map s1 /\
    App.timeouts s2 = [] /\
    forall x, App.currentCard s2 = Some x ->
      x ∈ App.deck_all (App.seen_deck cl) /\
      App.srs x = Some (orDefault (App.srsAt (App.seen_srs cl) (App.id x)) emptySrs) /\
      forall now' quality' easyDelayHours diffAgain,
        attempts (App.sm2Schedule now' (Some x) quality' easyDelayHours diffAgain)
        = Some (attemptCount (App.srsAt (App.seen_srs cl) (App.id x)) + 1).
Proof.
  intros Hc Hhide Hnone Hdeck.
  destruct (grade_run now cl quality s c Hc) as (s1 & Hrun & Hlast & Hmap & Htimers).
  destruct (Htimers Hhide) as [Ht _]. rewrite Hnone in Ht. simpl in Ht.
  assert (Hrt : App.runTimeout env s1
                = App.showNext env (App.seen_deck cl) (App.setTimeouts [] s1)).
  { unfold App.runTimeout. rewrite Ht. reflexivity. }
  destruct (showNext_run (App.seen_deck cl) (App.setTimeouts [] s1)) as (x & io' & Hnext & Hx).
  exists s1. eexists. split; [exact Hrun|]. split; [rewrite Hrt; exact Hnext|].
  split; [reflexivity|]. split; [reflexivity|].
  cbn [App.currentCard App.setCurrentCard]. intros x' ->.
  assert (Hall : x' ∈ App.deck_all (App.seen_deck cl)).
  { rewrite Hdeck in Hx |- *. unfold App.deck in *.
    cbn [App.deck_due App.deck_later App.deck_all] in *.
    destruct (Hx x' eq_refl) as [Hin|Hin]; apply list_elem_of_filter in Hin as [_ Hin];
      exact Hin. }
  assert (Hsrs : App.srs x'
                 = Some (orDefault (App.srsAt (App.seen_srs cl) (App.id x')) emptySrs)).
  { rewrite Hdeck in Hall. unfold App.deck in Hall. cbn [App.deck_all] in Hall.
    apply list_elem_of_filter in Hall as [_ Hall].
    apply list_elem_of_fmap in Hall as (c0 & -> & _). reflexivity. }
  split; [exact Hall|]. split; [exact Hsrs|].
  intros now' quality' e d. rewrite App_sm2Schedule_attempts. cbn. rewrite Hsrs.
  unfold attemptCount. cbn.
  destruct (App.srsAt (App.seen_srs cl) (App.id x')); reflexivity.
Qed.

End GradeFacts.

Lemma undo_restores_the_schedule_witness :
  exists s1,
    App.grade steadyEnv 1000 (sampleSeen true) 1 sampleAppStudy = (Ok tt, s1) /\
    App.srsAt (App.srs_map s1) "7::OP1::1"
    = Some (App.sm2Schedule 1000 (Some sampleAppCard) 1 48 false) /\
    (forall k, k <> "7::OP1::1" -> App.srsAt (App.srs_map s1) k = App.srsAt ∅ k) /\
    forall cl1, App.seen_lastGrade cl1 = App.lastGrade s1 ->
      exists s2,
        App.undoGrade cl1 s1 = (Ok tt, s2) /\
        (forall k, App.srsAt (App.srs_map s2) k = App.srsAt ∅ k) /\
        App.lastGrade s2 = None /\
        forall cl2, App.seen_lastGrade cl2 = App.lastGrade s2 ->
          App.undoGrade cl2 s2 = (Ok tt, s2).
Proof.
  exact (undo_restores_the_schedule steadyEnv 1000 (sampleSeen true) 1 sampleAppStudy
           sampleAppCard eq_refl eq_refl).
Defined.

Lemma timeout_brings_back_a_stale_card_witness :
  exists s1 s2,
    App.grade steadyEnv 1000 (sampleSeen false) 0 sampleAppStudy = (Ok tt, s1) /\
    App.runTimeout steadyEnv s1 = (Ok tt, s2) /\
    App.srs_map s2 = App.srs_map s1 /\
    App.timeouts s2 = [] /\
    forall x, App.currentCard s2 = Some x ->
      x ∈ App.deck_all (App.seen_deck (sampleSeen false)) /\
      App.srs x = Some (orDefault (App.srsAt ∅ (App.id x)) emptySrs) /\
      forall now' quality' easyDelayHours diffAgain,
        attempts (App.sm2Schedule now' (Some x) quality' easyDelayHours diffAgain)
        = Some (attemptCount (App.srsAt ∅ (App.id x)) + 1).
Proof.
  exact (timeout_brings_back_a_stale_card steadyEnv 1000 0 [sampleAppCard] ""
           (sampleSeen false) 0 sampleAppStudy sampleAppCard eq_refl eq_refl eq_refl eq_refl).
Defined.
